(** * Finite-difference pricing framework: inner-value calculators,
      pricing-engine set-up, axis meshers, step conditions, solver driver.

    Real numbers ([Real], [Time]) are modelled by exact rationals: the
    properties below depend on the order and the field operations only.
    [Size] is the unsigned 64-bit integer of the C++ code. *)

From Stdlib Require Import QArith Qabs Qminmax Lia List Bool Sorted SetoidList.
From Stdlib Require Import String.
From stdpp Require Import base list.
Import ListNotations.

Local Open Scope Q_scope.

Abbreviation Real := Q.
Abbreviation Time := Q.
Abbreviation Size := N.
Abbreviation Array := (list Real).

(** [QuantLib::Error], thrown by [QL_REQUIRE] and [QL_FAIL]. *)
Inductive Error := QL_Error (message : string).

(** [std::vector<T>::operator[]] read; an index past the end is undefined
    behaviour in the source and reads the default here. *)
Definition at_ {A} (d : A) (v : list A) (i : Size) : A :=
  default d (v !! N.to_nat i).

(** Element assignment [v[i] = x]. *)
Definition assign {A} (v : list A) (i : Size) (x : A) : list A :=
  <[N.to_nat i := x]> v.

(** Unsigned 64-bit subtraction, as [dim-1] on a [Size]. *)
Definition Size_sub (a b : Size) : Size := ((a + 2 ^ 64 - b) mod 2 ^ 64)%N.

Definition Qltb (a b : Q) : bool := negb (Qle_bool b a).

(** ** Grid layout and mesher interface (fdmlinearoplayout.hpp, fdmmesher.hpp) *)

Record FdmLinearOpIterator := {
  index : Size;
  coordinates : list Size
}.

(** [iter.coordinates()[direction]]. *)
Definition coordinateAlong (direction : Size) (iter : FdmLinearOpIterator)
    : Size :=
  at_ 0%N (coordinates iter) direction.

(** The layout: the extent of every direction, and the iterators visited by
    [for (iter = layout->begin(); iter != layout->end(); ++iter)]. *)
Record FdmLinearOpLayout := {
  dim : list Size;
  iterators : list FdmLinearOpIterator
}.

(** The virtual interface of [FdmMesher] used by the calculators. *)
Record FdmMesher := {
  layout : FdmLinearOpLayout;
  location : FdmLinearOpIterator → Size → Real;
  dplus : FdmLinearOpIterator → Size → Real;
  dminus : FdmLinearOpIterator → Size → Real
}.

(** Well-formedness of a layout along a direction: every coordinate below the
    extent of the direction is visited by the iteration. *)
Definition layoutCovers (l : FdmLinearOpLayout) (direction : Size) : bool :=
  forallb
    (λ k, existsb (λ it, (coordinateAlong direction it =? N.of_nat k)%N)
            (iterators l))
    (seq 0 (N.to_nat (at_ 0%N (dim l) direction))).

(** The first iterator of an iteration whose coordinate along [direction]
    is [xn]. *)
Definition firstAt (direction xn : Size) (its : list FdmLinearOpIterator)
    : option FdmLinearOpIterator :=
  find (λ it, (coordinateAlong direction it =? xn)%N) its.

(** ** FdmLogInnerValue (fdminnervaluecalculator.cpp) *)

Module FdmLogInnerValue.
Section Calculator.
(** [payoff_->operator()], [std::exp], and the Simpson integrator
    [SimpsonIntegral(accuracy, maxIterations)(f, a, b)], which either
    returns the integral or throws an [Error]. *)
Variable payoff_ : Real → Real.
Variable exp : Real → Real.
Variable SimpsonIntegral :
  Real → Size → (Real → Real) → Real → Real → Error + Real.
Variable mesher_ : FdmMesher.
Variable direction_ : Size.

Definition innerValue (iter : FdmLinearOpIterator) (_ : Time) : Real :=
  let s := exp (location mesher_ iter direction_) in
  payoff_ s.

(** Lower end [a] of the averaging interval. *)
Definition cellLower (iter : FdmLinearOpIterator) : Real :=
  let coord := coordinateAlong direction_ iter in
  let loc := location mesher_ iter direction_ in
  if (0 <? coord)%N then loc - dminus mesher_ iter direction_ / 2 else loc.

(** Upper end [b] of the averaging interval. *)
Definition cellUpper (iter : FdmLinearOpIterator) : Real :=
  let dim_ := at_ 0%N (dim (layout mesher_)) direction_ in
  let coord := coordinateAlong direction_ iter in
  let loc := location mesher_ iter direction_ in
  if (coord <? Size_sub dim_ 1)%N
  then loc + dplus mesher_ iter direction_ / 2 else loc.

Definition f (x : Real) : Real := payoff_ (exp x).

Definition accuracy (a b : Real) : Real :=
  if negb (Qeq_bool (f a) 0) || negb (Qeq_bool (f b) 0)
  then (f a + f b) * (5 # 100000) else 1 # 10000.

(** The value computed for one grid point.  [None] stands for a value that
    is not a finite number: the quotient that the division by [b - a] gives
    when the interval is empty ([b - a] is 0.0). *)
Definition avgInnerValueCalc (iter : FdmLinearOpIterator) (t : Time)
    : option Real :=
  let a := cellLower iter in
  let b := cellUpper iter in
  match SimpsonIntegral (accuracy a b) 8%N f a b with
  | inr integral =>
      if Qeq_bool (b - a) 0 then None else Some (integral / (b - a))
  | inl _ => Some (innerValue iter t)
  end.

(** The caching loop over the layout; its state is
    [(initialized, avgInnerValues_)]. *)
Fixpoint fillCache (its : list FdmLinearOpIterator) (t : Time)
    (initialized : list bool) (avgInnerValues_ : list (option Real))
    : list bool * list (option Real) :=
  match its with
  | [] => (initialized, avgInnerValues_)
  | iter0 :: rest =>
      let xn := coordinateAlong direction_ iter0 in
      if negb (at_ false initialized xn)
      then fillCache rest t (assign initialized xn true)
             (assign avgInnerValues_ xn (avgInnerValueCalc iter0 t))
      else fillCache rest t initialized avgInnerValues_
  end.

(** [avgInnerValue] threads the mutable member [avgInnerValues_]: it takes
    the cache before the call and returns the value and the cache after.
    [resize] fills the new cache with 0.0. *)
Definition avgInnerValue (avgInnerValues_ : list (option Real))
    (iter : FdmLinearOpIterator) (t : Time)
    : option Real * list (option Real) :=
  let cache :=
    match avgInnerValues_ with
    | [] =>
        let n := N.to_nat (at_ 0%N (dim (layout mesher_)) direction_) in
        snd (fillCache (iterators (layout mesher_)) t
               (replicate n false) (replicate n (Some 0)))
    | _ :: _ => avgInnerValues_
    end in
  (at_ (Some 0) cache (coordinateAlong direction_ iter), cache).

End Calculator.

End FdmLogInnerValue.

(** ** FdmLogBasketInnerValue (fdminnervaluecalculator.cpp) *)

Module FdmLogBasketInnerValue.
Section Calculator.
Variable payoff_ : list Real → Real.
Variable exp : Real → Real.
Variable mesher_ : FdmMesher.

Definition innerValue (iter : FdmLinearOpIterator) (_ : Time) : Real :=
  let n := length (dim (layout mesher_)) in
  let x := map (λ i, exp (location mesher_ iter (N.of_nat i))) (seq 0 n) in
  payoff_ x.

Definition avgInnerValue (iter : FdmLinearOpIterator) (t : Time) : Real :=
  innerValue iter t.

End Calculator.
End FdmLogBasketInnerValue.

(** ** Axis meshers (fdm1dmesher.hpp and its constructors) *)

Module Fdm1dMesher.

(** Modelled from the spec: the error taxonomy of mesher construction (the
    mesher classes are not among the sources, only their callers are). *)
Inductive MesherError := InvalidMesherConfig.

(** Modelled from the spec: the class [Fdm1dMesher], absent from the sources;
    its three arrays, with [None] for the spacing that does not exist past a
    domain edge. *)
Record t := {
  locations_ : list Real;
  dplus_ : list (option Real);
  dminus_ : list (option Real)
}.

(** Modelled from the spec: [Fdm1dMesher::size()]. *)
Definition size (m : t) : nat := length (locations_ m).

(** Modelled from the spec: [Fdm1dMesher::location(index)]. *)
Definition location (m : t) (i : nat) : option Real := locations_ m !! i.

(** Modelled from the spec: [Fdm1dMesher::dplus(index)], the forward
    spacing. *)
Definition dplus (m : t) (i : nat) : option Real :=
  match dplus_ m !! i with Some d => d | None => None end.

(** Modelled from the spec: [Fdm1dMesher::dminus(index)], the backward
    spacing. *)
Definition dminus (m : t) (i : nat) : option Real :=
  match dminus_ m !! i with Some d => d | None => None end.

(** Modelled from the spec: the spacings computed by the constructors of
    [Fdm1dMesher] (absent from the sources), the distance to the next grid
    point for every point that has one. *)
Fixpoint spacings (x : list Real) : list Real :=
  match x with
  | [] => []
  | a :: tl =>
      match tl with
      | [] => []
      | b :: _ => (b - a) :: spacings tl
      end
  end.

(** Modelled from the spec: the filling of the arrays of [Fdm1dMesher] from
    the locations; the forward spacing of the last point and the backward
    spacing of the first do not exist. *)
Definition fill (x : list Real) : t :=
  {| locations_ := x;
     dplus_ := (Some <$> spacings x) ++ [None];
     dminus_ := None :: (Some <$> spacings x) |}.

(** Modelled from the spec: the monotonicity check of the constructors of
    [Fdm1dMesher]. *)
Fixpoint strictlyIncreasing (x : list Real) : bool :=
  match x with
  | [] => true
  | a :: tl =>
      match tl with
      | [] => true
      | b :: _ => Qltb a b && strictlyIncreasing tl
      end
  end.

(** Modelled from the spec: the validation shared by the constructors of
    [Fdm1dMesher], [size >= 3] and strictly increasing locations, else
    [InvalidMesherConfig]. *)
Definition make (x : list Real) : MesherError + t :=
  if (3 <=? length x)%nat && strictlyIncreasing x
  then inr (fill x) else inl InvalidMesherConfig.

(** Modelled from the spec: [Predefined1dMesher], absent from the sources; a
    mesher from given locations. *)
Definition Predefined1dMesher (x : list Real) : MesherError + t := make x.

(** Modelled from the spec: the locations of [Uniform1dMesher], uniform
    spacing between two bounds. *)
Definition uniformLocations (start end_ : Real) (size : nat) : list Real :=
  let dx := (end_ - start) / inject_Z (Z.of_nat (size - 1)) in
  map (λ i, start + inject_Z (Z.of_nat i) * dx) (seq 0 size).

(** Modelled from the spec: [Uniform1dMesher], absent from the sources. *)
Definition Uniform1dMesher (start end_ : Real) (size : nat)
    : MesherError + t :=
  if (3 <=? size)%nat && Qltb start end_
  then make (uniformLocations start end_ size)
  else inl InvalidMesherConfig.

(** Modelled from the spec: [Concentrating1dMesher], absent from the
    sources; spacing concentrated near critical points [(point, density)],
    where [stretch] is the monotonic stretching solved for these points,
    applied to the uniform subdivision of [[0,1]]. *)
Definition Concentrating1dMesher (start end_ : Real) (size : nat)
    (cPoints : list (Real * Real)) (stretch : Real → Real)
    : MesherError + t :=
  if (3 <=? size)%nat && Qltb start end_
     && strictlyIncreasing (map fst cPoints)
     && forallb (λ c, Qltb 0 (snd c)) cPoints
  then make (map stretch (uniformLocations 0 1 size))
  else inl InvalidMesherConfig.

(** Modelled from the spec: a mesher is constructed when one of the
    constructors of the axis meshers returned it. *)
Definition constructed (m : t) : Prop :=
  (∃ x, Predefined1dMesher x = inr m)
  ∨ (∃ start end_ size, Uniform1dMesher start end_ size = inr m)
  ∨ (∃ start end_ size cPoints stretch,
       Concentrating1dMesher start end_ size cPoints stretch = inr m).

End Fdm1dMesher.

(** ** Composite mesher (fdmmeshercomposite.hpp) *)

Module FdmMesherComposite.

(** Modelled from the spec: the iteration of [FdmLinearOpLayout], absent from
    the sources; all index tuples below the extents, in row-major order. *)
Fixpoint tuples (dims : list nat) : list (list nat) :=
  match dims with
  | [] => [[]]
  | d :: rest => flat_map (λ i, map (cons i) (tuples rest)) (seq 0 d)
  end.

(** Modelled from the spec: the layout of [FdmMesherComposite] for the given
    extents, with the linear index of every grid point. *)
Definition layoutOf (dims : list nat) : FdmLinearOpLayout :=
  {| dim := N.of_nat <$> dims;
     iterators :=
       imap (λ i c, {| index := N.of_nat i; coordinates := N.of_nat <$> c |})
            (tuples dims) |}.

(** Modelled from the spec: the axis of a direction and the point of an
    iterator on it. *)
Definition axisValue (axes : list Fdm1dMesher.t)
    (get : Fdm1dMesher.t → nat → option Real)
    (iter : FdmLinearOpIterator) (direction : Size) : Real :=
  match axes !! N.to_nat direction with
  | Some m => default 0 (get m (N.to_nat (coordinateAlong direction iter)))
  | None => 0
  end.

(** Modelled from the spec: [FdmMesherComposite], absent from the sources;
    the Cartesian product of axis meshers.  A spacing that does not exist
    reads 0 here (the calculators never read it). *)
Definition make (axes : list Fdm1dMesher.t) : FdmMesher :=
  {| layout := layoutOf (Fdm1dMesher.size <$> axes);
     location := axisValue axes Fdm1dMesher.location;
     dplus := axisValue axes Fdm1dMesher.dplus;
     dminus := axisValue axes Fdm1dMesher.dminus |}.

End FdmMesherComposite.

(** ** Sample data for the inner-value calculator *)

Module FdmLogInnerValueSample.

(** The composite of the axes [0, 1/2, 1] and [0, 1, 2], a call payoff struck
    at 3/2, a rational stand-in for [std::exp], and a one-panel Simpson rule
    that throws when it disagrees with the trapezoid rule by more than the
    accuracy. *)
Definition sampleMesher : FdmMesher :=
  FdmMesherComposite.make
    [Fdm1dMesher.fill [0; 1 # 2; 1]; Fdm1dMesher.fill [0; 1; 2]].

Definition sampleExp (x : Real) : Real := 1 + x.

Definition samplePayoff (s : Real) : Real := Qmax (s - (3 # 2)) 0.

Definition sampleSimpson (acc : Real) (_ : Size) (g : Real → Real)
    (a b : Real) : Error + Real :=
  let trapezoid := (b - a) / 2 * (g a + g b) in
  let simpson := (b - a) / 6 * (g a + 4 * g ((a + b) / 2) + g b) in
  if Qle_bool (Qabs (simpson - trapezoid)) acc then inr simpson
  else inl (QL_Error "max number of iterations reached").

Definition sampleIterator : FdmLinearOpIterator :=
  {| index := 3%N; coordinates := [1; 1]%N |}.

(** A mesher with one axis of a single point, at 1. *)
Definition sampleSinglePoint : FdmMesher :=
  FdmMesherComposite.make [Fdm1dMesher.fill [1]].

End FdmLogInnerValueSample.

(** ** Step-condition composite (fdmstepconditioncomposite.hpp) *)

Module FdmStepConditionComposite.

(** [StepCondition<Array>::applyTo(a, t)], mutating [a] in place. *)
Definition StepCondition := Array → Time → Array.

(** Modelled from the spec: the constructor of [FdmStepConditionComposite]
    is not among the sources (only its callers are).  Insertion into the
    ordered, duplicate-free set of times. *)
Fixpoint insertTime (t : Time) (s : list Time) : list Time :=
  match s with
  | [] => [t]
  | u :: r =>
      match t ?= u with
      | Lt => t :: s
      | Eq => s
      | Gt => u :: insertTime t r
      end
  end.

(** Modelled from the spec: insertion of a whole event-time list, as the
    constructor of [FdmStepConditionComposite] does for each of its lists. *)
Definition insertAll (l : list Time) (s : list Time) : list Time :=
  fold_left (λ acc t, insertTime t acc) l s.

(** Modelled from the spec: the merge done by the constructor of
    [FdmStepConditionComposite], giving one ascending, duplicate-free
    sequence. *)
Definition mergeTimes (stoppingTimes : list (list Time)) : list Time :=
  fold_left (λ acc l, insertAll l acc) stoppingTimes [].

(** Modelled from the spec: the members of [FdmStepConditionComposite], the
    merged times and the registrations, each an event-time list with its
    condition, in registration order. *)
Record t := {
  stoppingTimes_ : list Time;
  conditions_ : list (list Time * StepCondition)
}.

(** Modelled from the spec: the constructor
    [FdmStepConditionComposite(stoppingTimes, conditions)], pairing lists and
    conditions by position as the callers pass them. *)
Definition make (stoppingTimes : list (list Time))
    (conditions : list StepCondition) : t :=
  {| stoppingTimes_ := mergeTimes stoppingTimes;
     conditions_ := combine stoppingTimes conditions |}.

(** Modelled from the spec: [FdmStepConditionComposite::stoppingTimes()]. *)
Definition stoppingTimes (c : t) : list Time := stoppingTimes_ c.

(** Modelled from the spec: whether a registration of
    [FdmStepConditionComposite] is for the time [t]. *)
Definition registeredAt (t : Time) (r : list Time * StepCondition) : bool :=
  existsb (Qeq_bool t) (fst r).

(** Modelled from the spec: the loop of
    [FdmStepConditionComposite::applyTo] over the registrations, applying in
    place those registered for [t]. *)
Fixpoint applyLoop (rs : list (list Time * StepCondition))
    (a : Array) (t : Time) : Array :=
  match rs with
  | [] => a
  | r :: rest =>
      if registeredAt t r then applyLoop rest (snd r a t) t
      else applyLoop rest a t
  end.

(** Modelled from the spec: [FdmStepConditionComposite::applyTo(a, t)]. *)
Definition applyTo (c : t) (a : Array) (t : Time) : Array :=
  applyLoop (conditions_ c) a t.

(** Sample conditions: a dividend shift and an early-exercise floor. *)
Definition sampleShift : StepCondition := λ a _, map (λ v, v - 1) a.
Definition sampleFloor : StepCondition := λ a _, map (λ v, Qmax v 2) a.

End FdmStepConditionComposite.

(** ** Boundary conditions and the solver description
       (fdmdirichletboundary.hpp, fdmsolverdesc.hpp) *)

Module Barrier.
Inductive Type_ := DownIn | UpIn | DownOut | UpOut.
(** [==] on the enumeration. *)
Definition eqb (a b : Type_) : bool :=
  match a, b with
  | DownIn, DownIn | UpIn, UpIn | DownOut, DownOut | UpOut, UpOut => true
  | _, _ => false
  end.
End Barrier.

Module Exercise.
Inductive Type_ := American | Bermudan | European.
(** [==] on the enumeration. *)
Definition eqb (a b : Type_) : bool :=
  match a, b with
  | American, American | Bermudan, Bermudan | European, European => true
  | _, _ => false
  end.
End Exercise.

Module FdmDirichletBoundary.
Inductive Side := None_ | Upper | Lower.
(** The constructor arguments
    [FdmDirichletBoundary(mesher, valueOnBoundary, direction, side)]. *)
Record t (M : Type) := make {
  mesher : M;
  valueOnBoundary : Real;
  direction : Size;
  side : Side
}.
Arguments make {M} _ _ _ _.
Arguments mesher {M} _.
Arguments valueOnBoundary {M} _.
Arguments direction {M} _.
Arguments side {M} _.
End FdmDirichletBoundary.

Abbreviation FdmBoundaryConditionSet M := (list (FdmDirichletBoundary.t M)).

(** The aggregate [{ mesher, boundaries, conditions, calculator, maturity,
    timeSteps, dampingSteps }]. *)
Record FdmSolverDesc (M Calc : Type) := {
  mesher : M;
  bcSet : FdmBoundaryConditionSet M;
  condition : FdmStepConditionComposite.t;
  calculator : Calc;
  maturity : Time;
  timeSteps : Size;
  dampingSteps : Size
}.
Arguments mesher {M Calc} _.
Arguments bcSet {M Calc} _.
Arguments condition {M Calc} _.
Arguments calculator {M Calc} _.
Arguments maturity {M Calc} _.
Arguments timeSteps {M Calc} _.
Arguments dampingSteps {M Calc} _.

(** ** FdHestonRebateEngine::calculate, sections 3 to 5 *)

Module FdHestonRebateEngine.

Record arguments := {
  barrierType : Barrier.Type_;
  barrier : Real;
  rebate : Real;
  exerciseType : Exercise.Type_
}.

Section Engine.
(** The collaborators built in sections 1 to 3 from classes outside this
    file: the composite mesher, the calculator, the vanilla step-condition
    composite, and the maturity; then the members of the engine. *)
Variables (M Calc : Type).
Variables (mesher_ : M) (calculator_ : Calc).
Variable vanillaComposite : FdmStepConditionComposite.t.
Variables (maturity_ : Time) (tGrid_ dampingSteps_ : Size).

(** Section 4: the two [if]s, each doing one [emplace_back]. *)
Definition boundaries (a : arguments) : FdmBoundaryConditionSet M :=
  let b0 : FdmBoundaryConditionSet M := [] in
  let b1 :=
    if Barrier.eqb (barrierType a) Barrier.DownIn
       || Barrier.eqb (barrierType a) Barrier.DownOut
    then b0 ++ [FdmDirichletBoundary.make mesher_ (rebate a) 0%N
                  FdmDirichletBoundary.Lower]
    else b0 in
  let b2 :=
    if Barrier.eqb (barrierType a) Barrier.UpIn
       || Barrier.eqb (barrierType a) Barrier.UpOut
    then b1 ++ [FdmDirichletBoundary.make mesher_ (rebate a) 0%N
                  FdmDirichletBoundary.Upper]
    else b1 in
  b2.

(** Sections 3 to 5: the exercise-type requirement, then the solver
    description handed to the Heston solver. *)
Definition calculate_solverDesc (a : arguments)
    : Error + FdmSolverDesc M Calc :=
  if negb (Exercise.eqb (exerciseType a) Exercise.European)
  then inl (QL_Error "only european style option are supported")
  else
    inr {| mesher := mesher_; bcSet := boundaries a;
           condition := vanillaComposite; calculator := calculator_;
           maturity := maturity_; timeSteps := tGrid_;
           dampingSteps := dampingSteps_ |}.
End Engine.

(** A down-and-out case of the barrier test data (barrier 95, rebate 3). *)
Definition haugDownOut : arguments :=
  {| barrierType := Barrier.DownOut; barrier := 95; rebate := 3;
     exerciseType := Exercise.European |}.

End FdHestonRebateEngine.

(** ** FdSimpleExtOUStorageEngine::calculate, sections 1 and 4 to 6 *)

Module FdSimpleExtOUStorageEngine.
Section Engine.
Variables (Date M Calc : Type).
(** [rTS_->dayCounter().yearFraction(rTS_->referenceDate(), d)]. *)
Variable yearFraction : Date → Time.
(** [FdmSimpleStorageCondition(exerciseTimes, mesher, calculator, changeRate)]. *)
Variable FdmSimpleStorageCondition :
  list Time → FdmStepConditionComposite.StepCondition.
Variables (mesher_ : M) (storageCalculator : Calc).
Variables (maturity_ : Time) (tGrid_ : Size).

Record arguments := {
  exerciseType : Exercise.Type_;
  exerciseDates : list Date
}.

(** Section 4.1: the loop over the exercise dates. *)
Fixpoint exerciseTimes (dates : list Date) : Error + list Time :=
  match dates with
  | [] => inr []
  | d :: rest =>
      let t := yearFraction d in
      if Qle_bool 0 t
      then match exerciseTimes rest with
           | inr ts => inr (t :: ts)
           | inl e => inl e
           end
      else inl (QL_Error "exercise dates must not contain past date")
  end.

Definition calculate_solverDesc (a : arguments)
    : Error + FdmSolverDesc M Calc :=
  if negb (Exercise.eqb (exerciseType a) Exercise.Bermudan)
  then inl (QL_Error "Bermudan exercise supported only")
  else
    match exerciseTimes (exerciseDates a) with
    | inl e => inl e
    | inr times =>
        let stoppingTimes := [] ++ [times] in
        let stepConditions := [] ++ [FdmSimpleStorageCondition times] in
        let conditions :=
          FdmStepConditionComposite.make stoppingTimes stepConditions in
        inr {| mesher := mesher_; bcSet := [];
               condition := conditions; calculator := storageCalculator;
               maturity := maturity_; timeSteps := tGrid_;
               dampingSteps := 0%N |}
    end.
End Engine.
End FdSimpleExtOUStorageEngine.

(** ** FdHullWhiteSwaptionEngine::calculate, sections 3 to 6 *)

Module FdHullWhiteSwaptionEngine.
Section Engine.
Variables (Date DayCounter M Calc : Type).
(** [dc.yearFraction(referenceDate, d)]. *)
Variable yearFraction : Date → Time.
Variables (dayCounter_eqb : DayCounter → DayCounter → bool)
          (date_eqb : Date → Date → bool).
Variables (mesher_ : M) (calculator_ : Calc).
Variable vanillaComposite : FdmStepConditionComposite.t.
Variables (maturity_ : Time) (tGrid_ dampingSteps_ : Size).

Record arguments := {
  exerciseDates : list Date;
  (** day counter and reference date of the forwarding and of the
      discounting curve *)
  fwdDayCounter : DayCounter;
  disDayCounter : DayCounter;
  fwdReferenceDate : Date;
  disReferenceDate : Date
}.

(** Section 3: the loop filling [t2d]; it fails on the first past date. *)
Fixpoint checkExerciseDates (dates : list Date) : Error + unit :=
  match dates with
  | [] => inr tt
  | d :: rest =>
      if Qle_bool 0 (yearFraction d) then checkExerciseDates rest
      else inl (QL_Error "exercise dates must not contain past date")
  end.

Definition calculate_solverDesc (a : arguments)
    : Error + FdmSolverDesc M Calc :=
  match checkExerciseDates (exerciseDates a) with
  | inl e => inl e
  | inr _ =>
      if negb (dayCounter_eqb (fwdDayCounter a) (disDayCounter a))
      then inl (QL_Error "day counter of forward and discount curve must match")
      else if negb (date_eqb (fwdReferenceDate a) (disReferenceDate a))
      then inl (QL_Error
                  "reference date of forward and discount curve must match")
      else
        inr {| mesher := mesher_; bcSet := [];
               condition := vanillaComposite; calculator := calculator_;
               maturity := maturity_; timeSteps := tGrid_;
               dampingSteps := dampingSteps_ |}
  end.
End Engine.
End FdHullWhiteSwaptionEngine.

(** ** FdSimpleExtOUJumpSwingEngine::calculate, sections 1 and 4 to 6 *)

Module FdSimpleExtOUJumpSwingEngine.
Section Engine.
Variables (M Calc : Type).
(** [FdmSimpleSwingCondition(exerciseTimes, mesher, calculator, 2,
    minExerciseRights)]. *)
Variable FdmSimpleSwingCondition :
  list Time → FdmStepConditionComposite.StepCondition.
Variables (mesher_ : M) (calculator_ : Calc) (tGrid_ : Size).

Record arguments := {
  (** the exercise times of the swing exercise, [None] when the exercise of
      the instrument is not a [SwingExercise] *)
  swingExercise : option (list Time);
  minExerciseRights : Size;
  maxExerciseRights : Size
}.

(** Section 2: the mesher of the exercise rights,
    [Uniform1dMesher(0, Real(maxExerciseRights), maxExerciseRights+1)]. *)
Definition exerciseMesher (a : arguments)
    : Fdm1dMesher.MesherError + Fdm1dMesher.t :=
  Fdm1dMesher.Uniform1dMesher 0
    (inject_Z (Z.of_N (maxExerciseRights a)))
    (N.to_nat ((maxExerciseRights a + 1) mod 2 ^ 64)).

Definition calculate_solverDesc (a : arguments)
    : Error + FdmSolverDesc M Calc :=
  match swingExercise a with
  | None => inl (QL_Error "Swing exercise supported only")
  | Some exerciseTimes =>
      (* [exerciseTimes.back()]; undefined on an empty vector, 0 here *)
      let maturity_ := List.last exerciseTimes 0 in
      let stoppingTimes := [] ++ [exerciseTimes] in
      let stepConditions := [] ++ [FdmSimpleSwingCondition exerciseTimes] in
      let conditions :=
        FdmStepConditionComposite.make stoppingTimes stepConditions in
      inr {| mesher := mesher_; bcSet := [];
             condition := conditions; calculator := calculator_;
             maturity := maturity_; timeSteps := tGrid_;
             dampingSteps := 0%N |}
  end.
End Engine.
End FdSimpleExtOUJumpSwingEngine.

(** ** Solver driver (fdmbackwardsolver.hpp and the model solvers) *)

Module FdmSolver.

(** Modelled from the spec: the closed set of schemes of [FdmSchemeDesc],
    whose declaration is not among the sources. *)
Inductive FdmSchemeType :=
  | HundsdorferType | DouglasType | CraigSneydType
  | ModifiedCraigSneydType | ImplicitEulerType | ExplicitEulerType.

(** Modelled from the spec: the error taxonomy of the solver, which is not
    among the sources. *)
Inductive SolverError :=
  | InvalidMesherConfig | DimensionMismatch | SingularSystem | StaleQuery.

(** Modelled from the spec: the time grid of [FdmBackwardSolver], which is
    not among the sources (only the engines that fill its description are);
    [[0, maturity]] sampled uniformly at [steps] increments: the times
    [i * maturity / steps] for [i < steps], and the maturity. *)
Definition uniformTimes (maturity : Time) (steps : nat) : list Time :=
  map (λ i, inject_Z (Z.of_nat i) * maturity / inject_Z (Z.of_nat steps))
      (seq 0 steps)
  ++ [maturity].

(** Modelled from the spec: the time grid of [FdmBackwardSolver] before the
    damping run, the union of the uniform sampling and the trigger times of
    the composite, ascending and without duplicates. *)
Definition eventGrid {M Calc} (desc : FdmSolverDesc M Calc) : list Time :=
  FdmStepConditionComposite.insertAll
    (FdmStepConditionComposite.stoppingTimes (condition desc))
    (FdmStepConditionComposite.insertAll
       (uniformTimes (maturity desc) (N.to_nat (timeSteps desc))) []).

(** Modelled from the spec: the times that the backward evolution of
    [FdmBackwardSolver] passes after its start at the maturity, latest
    first: the sampling and trigger times from time 0 up to the maturity. *)
Definition reachedTimes {M Calc} (desc : FdmSolverDesc M Calc) : list Time :=
  rev (List.filter (λ t, Qle_bool 0 t && Qltb t (maturity desc))
         (eventGrid desc)).

(** Modelled from the spec: the length of a damping step of
    [FdmBackwardSolver].  The initial run of damping steps is a prefix of
    the evolution: it divides the first increment, from the maturity down to
    the latest time below it, into [dampingSteps + 1] equal parts, the first
    [dampingSteps] of which are the damping steps; where there is no time
    below the maturity the damping steps have length 0. *)
Definition dampingStep {M Calc} (desc : FdmSolverDesc M Calc) : Time :=
  (maturity desc - hd (maturity desc) (reachedTimes desc))
  / inject_Z (Z.of_nat (S (N.to_nat (dampingSteps desc)))).

(** Modelled from the spec: the times at which the damping steps of
    [FdmBackwardSolver] end, latest first. *)
Definition dampingTimes {M Calc} (desc : FdmSolverDesc M Calc) : list Time :=
  (λ k, maturity desc - inject_Z (Z.of_nat k) * dampingStep desc)
  <$> seq 1 (N.to_nat (dampingSteps desc)).

(** Modelled from the spec: the full time grid of [FdmBackwardSolver], the
    union of the uniform sampling, the trigger times of the composite and
    the initial run of damping steps. *)
Definition timeGrid {M Calc} (desc : FdmSolverDesc M Calc) : list Time :=
  FdmStepConditionComposite.insertAll (dampingTimes desc) (eventGrid desc).

(** Modelled from the spec: the times of the backward evolution of
    [FdmBackwardSolver] in the order in which it visits them, from the
    maturity through the damping run down to time 0. *)
Definition walk {M Calc} (desc : FdmSolverDesc M Calc) : list Time :=
  maturity desc :: dampingTimes desc ++ reachedTimes desc.

(** Modelled from the spec: one increment of the evolution of
    [FdmBackwardSolver], from a time to the previous grid time, with the
    scheme that performs it. *)
Record Increment := {
  from_ : Time;
  to_ : Time;
  scheme : FdmSchemeType
}.

(** Modelled from the spec: the scheme [FdmBackwardSolver] uses for the
    [k]-th increment, Implicit Euler during the damping prefix and the
    requested scheme afterwards. *)
Definition schemeOfStep (dampingSteps : nat) (requested : FdmSchemeType)
    (k : nat) : FdmSchemeType :=
  if (k <? dampingSteps)%nat then ImplicitEulerType else requested.

(** Modelled from the spec: the backward walk of [FdmBackwardSolver] over a
    grid given latest time first. *)
Fixpoint incrementsFrom (k : nat) (dampingSteps : nat)
    (requested : FdmSchemeType) (g : list Time) : list Increment :=
  match g with
  | [] => []
  | later :: tl =>
      match tl with
      | [] => []
      | earlier :: _ =>
          {| from_ := later; to_ := earlier;
             scheme := schemeOfStep dampingSteps requested k |}
          :: incrementsFrom (S k) dampingSteps requested tl
      end
  end.

(** Modelled from the spec: the increments of a backward solve of
    [FdmBackwardSolver], one per pair of neighbouring times of the walk. *)
Definition plan {M Calc} (desc : FdmSolverDesc M Calc)
    (requested : FdmSchemeType) : list Increment :=
  incrementsFrom 0 (N.to_nat (dampingSteps desc)) requested (walk desc).

(** Modelled from the spec: the states of the solver, which is not among
    the sources. *)
Inductive State :=
  | Ready
  | Done (solution : Array)
  | Failed.

(** Modelled from the spec: the query operations of the solver. *)
Inductive Query := ValueAt | DeltaAt | GammaAt | ThetaAt | DensityAt.

Section Evolution.
(** One step of a scheme over an increment; it either returns the advanced
    array or fails (for instance with [SingularSystem]). *)
Variable step : Increment → Array → SolverError + Array.
Variable conditions : FdmStepConditionComposite.t.
(** Interpolation of the solution array at query coordinates. *)
Variable interpolate : Query → Array → list Real → Real.

(** Modelled from the spec: the evolution loop of the solver.  Returns the
    outcome and the increments on which the scheme was invoked, in order. *)
Fixpoint run (p : list Increment) (a : Array)
    : (SolverError + Array) * list Increment :=
  match p with
  | [] => (inr a, [])
  | inc :: rest =>
      match step inc a with
      | inl e => (inl e, [inc])
      | inr a' =>
          let a'' := FdmStepConditionComposite.applyTo conditions a' (to_ inc) in
          let '(r, log) := run rest a'' in
          (r, inc :: log)
      end
  end.

(** Modelled from the spec: [evolve()] of the solver, from the terminal
    condition; gives the state the solver is left in, the error propagated to
    the caller if any, and the log of scheme invocations. *)
Definition evolve (p : list Increment) (initial : Array)
    : State * option SolverError * list Increment :=
  match run p initial with
  | (inr a, log) => (Done a, None, log)
  | (inl e, log) => (Failed, Some e, log)
  end.

(** Modelled from the spec: a query ([valueAt] and the like) on the solver
    in a given state. *)
Definition query (s : State) (q : Query) (coords : list Real)
    : SolverError + Real :=
  match s with
  | Done a => inr (interpolate q a coords)
  | Ready | Failed => inl StaleQuery
  end.

End Evolution.

(** Sample data: implicit Euler for [du/dt = u] on every grid point, singular
    when the increment has length 1; no step conditions; interpolation that
    reads the first entry. *)
Definition sampleStep (inc : Increment) (a : Array) : SolverError + Array :=
  let dt := from_ inc - to_ inc in
  if Qeq_bool (1 - dt) 0 then inl SingularSystem
  else inr (map (λ v, v / (1 - dt)) a).

Definition sampleConditions : FdmStepConditionComposite.t :=
  FdmStepConditionComposite.make [] [].

Definition sampleInterpolate (_ : Query) (a : Array) (_ : list Real) : Real :=
  match a with v :: _ => v | [] => 0 end.

(** A solve to maturity 2 in two steps without damping: both increments
    have length 1. *)
Definition sampleDesc : FdmSolverDesc unit unit :=
  {| mesher := tt; bcSet := []; condition := sampleConditions;
     calculator := tt; maturity := 2; timeSteps := 2%N; dampingSteps := 0%N |}.

(** A solve to maturity 3/2 in three steps with one damping step and a
    trigger time at 3/4, between two sampling times. *)
Definition sampleDescTrigger : FdmSolverDesc unit unit :=
  {| mesher := tt; bcSet := [];
     condition := FdmStepConditionComposite.make [[3 # 4]]
                    [FdmStepConditionComposite.sampleFloor];
     calculator := tt; maturity := 3 # 2; timeSteps := 3%N;
     dampingSteps := 1%N |}.

(** A solve to maturity 1 in one step with three damping steps, and the
    same with a trigger time after the maturity. *)
Definition sampleDescDamping : FdmSolverDesc unit unit :=
  {| mesher := tt; bcSet := []; condition := sampleConditions;
     calculator := tt; maturity := 1; timeSteps := 1%N; dampingSteps := 3%N |}.

Definition sampleDescLate : FdmSolverDesc unit unit :=
  {| mesher := tt; bcSet := [];
     condition := FdmStepConditionComposite.make [[5]]
                    [FdmStepConditionComposite.sampleFloor];
     calculator := tt; maturity := 1; timeSteps := 1%N; dampingSteps := 3%N |}.

End FdmSolver.

(** ** fokkerPlanckPrice1D (test-suite/hestonslvmodel.cpp): the start density *)

Module FokkerPlanckPrice1D.

(** [std::upper_bound(x.begin(), x.end(), x0)] as an index into a sorted
    array: the first position whose element is greater than [x0], the size of
    the array when there is none. *)
Fixpoint upper_bound (x : list Real) (x0 : Real) : nat :=
  match x with
  | [] => O
  | a :: tl => if Qltb x0 a then O else S (upper_bound tl x0)
  end.

Section Density.
(** [close_enough(x, y)] of ql/math/comparison.hpp. *)
Variable close_enough : Real → Real → bool.

(** The first part of [fokkerPlanckPrice1D]: the array [p] that stands for
    the Dirac density at [x0] on the locations [x], before the evolution.
    A read past the end of [x], which the source does not check, gives 0
    here; the properties below hold where every read is inside the array. *)
Definition initialDensity (x : Array) (x0 : Real) : Error + Array :=
  let size := N.of_nat (length x) in
  let p := replicate (length x) 0 in
  if negb ((3 <? size)%N && Qle_bool (at_ 0 x 1%N) x0
           && Qle_bool x0 (at_ 0 x (Size_sub size 2%N)))
  then inl (QL_Error "insufficient mesher")
  else
    let upperb := N.of_nat (upper_bound x x0) in
    let lowerb := Size_sub upperb 1%N in
    if close_enough (at_ 0 x upperb) x0 then
      let idx := upperb in
      let dx := (at_ 0 x (idx + 1)%N - at_ 0 x (Size_sub idx 1%N)) / 2 in
      inr (assign p idx (1 / dx))
    else if close_enough (at_ 0 x lowerb) x0 then
      let idx := lowerb in
      let dx := (at_ 0 x (idx + 1)%N - at_ 0 x (Size_sub idx 1%N)) / 2 in
      inr (assign p idx (1 / dx))
    else
      let dx := at_ 0 x upperb - at_ 0 x lowerb in
      let lowerP := (at_ 0 x upperb - x0) / dx in
      let upperP := (x0 - at_ 0 x lowerb) / dx in
      let lowerIdx := lowerb in
      let upperIdx := upperb in
      let lowerDx :=
        (at_ 0 x (lowerIdx + 1)%N - at_ 0 x (Size_sub lowerIdx 1%N)) / 2 in
      let upperDx :=
        (at_ 0 x (upperIdx + 1)%N - at_ 0 x (Size_sub upperIdx 1%N)) / 2 in
      inr (assign (assign p lowerIdx (lowerP / lowerDx))
             upperIdx (upperP / upperDx)).
End Density.

(** Sum of a list of reals. *)
Definition Qsum (l : list Real) : Real := fold_right Qplus 0 l.

(** The width [(x[i+1]-x[i-1])/2] that the function gives to the cell of
    the interior point [i]. *)
Definition cellWidth (x : Array) (i : nat) : Real :=
  (at_ 0 x (N.of_nat (S i)) - at_ 0 x (N.of_nat (pred i))) / 2.

(** Mass and first moment of a discrete density over the interior points,
    each weighted with the width of its cell. *)
Definition mass (x p : Array) : Real :=
  Qsum (map (λ i, at_ 0 p (N.of_nat i) * cellWidth x i)
          (seq 1 (length x - 2))).

Definition firstMoment (x p : Array) : Real :=
  Qsum (map (λ i, at_ 0 p (N.of_nat i)
                  * (cellWidth x i * at_ 0 x (N.of_nat i)))
          (seq 1 (length x - 2))).

(** Sample data: [close_enough] as exact equality, five grid points. *)
Definition sampleClose (a b : Real) : bool := Qeq_bool a b.
Definition sampleLocations : Array := [0; 1; 2; 4; 5].

End FokkerPlanckPrice1D.

(** ** FdHestonRebateEngine::calculate, section 1 (fdhestonrebateengine.cpp) *)

Module FdHestonRebateEngineMesher.
Import FdHestonRebateEngine.

(** Section 1.1: the number of time steps handed to the variance mesher,
    [std::max(tGridMin, tGrid_/50)]. *)
Definition varianceMesherTimeSteps (tGrid_ : Size) : Size :=
  let tGridMin := 5%N in
  N.max tGridMin (tGrid_ / 50).

Section Engine.
Variable log : Real → Real.

(** Section 1.2: the bounds [xMin] and [xMax] handed to the equity mesher;
    [None] stands for [Null<Real>()]. *)
Definition equityMesherBounds (a : arguments) : option Real * option Real :=
  let xMin : option Real := None in
  let xMax : option Real := None in
  let xMin :=
    if Barrier.eqb (barrierType a) Barrier.DownIn
       || Barrier.eqb (barrierType a) Barrier.DownOut
    then Some (log (barrier a)) else xMin in
  let xMax :=
    if Barrier.eqb (barrierType a) Barrier.UpIn
       || Barrier.eqb (barrierType a) Barrier.UpOut
    then Some (log (barrier a)) else xMax in
  (xMin, xMax).
End Engine.

End FdHestonRebateEngineMesher.

(** ** MTBrownianGenerator (mtbrowniangenerator.cpp) *)

Module MTBrownianGenerator.

(** Unsigned 64-bit multiplication and increment of a [Size]. *)
Definition Size_mul (a b : Size) : Size := ((a * b) mod 2 ^ 64)%N.
Definition Size_succ (a : Size) : Size := ((a + 1) mod 2 ^ 64)%N.

(** [Sample<std::vector<Real>>]. *)
Record sample_type := {
  value : list Real;
  weight : Real
}.

(** [std::transform(first, last, result, op)] on the positions [first] to
    [last] of [src], writing from the start of [out]. *)
Definition transform (src : list Real) (first last : Size)
    (out : list Real) (op : Real → Real) : list Real :=
  fold_left
    (λ o k, assign o (N.of_nat k) (op (at_ 0 src (first + N.of_nat k)%N)))
    (seq 0 (N.to_nat (last - first)))
    out.

Section Generator.
(** The state of the [RandomSequenceGenerator<MersenneTwisterUniformRng>]
    member, its construction from a dimension and a seed, and its two
    member functions used here. *)
Variable RandomSequenceGenerator : Type.
Variable makeGenerator : Size → N → RandomSequenceGenerator.
Variable nextSequence :
  RandomSequenceGenerator → RandomSequenceGenerator * sample_type.
Variable lastSequence : RandomSequenceGenerator → sample_type.
(** The [InverseCumulativeNormal] member. *)
Variable inverseCumulative_ : Real → Real.
(** Whether [QL_EXTRA_SAFETY_CHECKS] is defined. *)
Variable QL_EXTRA_SAFETY_CHECKS : bool.

Record t := {
  factors_ : Size;
  steps_ : Size;
  lastStep_ : Size;
  generator_ : RandomSequenceGenerator
}.

Definition make (factors steps : Size) (seed : N) : t :=
  {| factors_ := factors;
     steps_ := steps;
     lastStep_ := 0%N;
     generator_ := makeGenerator (Size_mul factors steps) seed |}.

(** [nextStep(output)]: the new state, the new content of [output] and the
    returned weight. *)
Definition nextStep (g : t) (output : list Real)
    : Error + (t * list Real * Real) :=
  if QL_EXTRA_SAFETY_CHECKS
     && negb (N.of_nat (length output) =? factors_ g)%N
  then inl (QL_Error "size mismatch")
  else if QL_EXTRA_SAFETY_CHECKS && negb (lastStep_ g <? steps_ g)%N
  then inl (QL_Error "uniform sequence exhausted")
  else
    let currentSequence := value (lastSequence (generator_ g)) in
    let start := Size_mul (lastStep_ g) (factors_ g) in
    let end_ := Size_mul (Size_succ (lastStep_ g)) (factors_ g) in
    let output' :=
      transform currentSequence start end_ output inverseCumulative_ in
    inr ({| factors_ := factors_ g;
            steps_ := steps_ g;
            lastStep_ := Size_succ (lastStep_ g);
            generator_ := generator_ g |},
         output', 1).

(** [nextPath()]: the new state and the returned weight. *)
Definition nextPath (g : t) : t * Real :=
  let '(gen, sample) := nextSequence (generator_ g) in
  ({| factors_ := factors_ g;
      steps_ := steps_ g;
      lastStep_ := 0%N;
      generator_ := gen |},
   weight sample).

Definition numberOfFactors (g : t) : Size := factors_ g.
Definition numberOfSteps (g : t) : Size := steps_ g.

(** [n] successive calls of [nextStep] on the same [output] vector, as an
    evolver makes them along one path: the state after the last call, and
    the content of [output] and the weight after each call. *)
Fixpoint nextSteps (n : nat) (g : t) (output : list Real)
    : Error + (t * list (list Real * Real)) :=
  match n with
  | O => inr (g, [])
  | S m =>
      match nextStep g output with
      | inl e => inl e
      | inr (g', output', w) =>
          match nextSteps m g' output' with
          | inl e => inl e
          | inr (g'', rest) => inr (g'', (output', w) :: rest)
          end
      end
  end.

End Generator.

(** [MTBrownianGeneratorFactory]: the seed, and [create]. *)
Record MTBrownianGeneratorFactory := { seed_ : N }.

Definition create {RandomSequenceGenerator : Type}
    (makeGenerator : Size → N → RandomSequenceGenerator)
    (f : MTBrownianGeneratorFactory) (factors steps : Size)
    : t RandomSequenceGenerator :=
  make RandomSequenceGenerator makeGenerator factors steps (seed_ f).

(** Sample data: a generator whose state is the list of the sequences still
    to come, with the last one produced at the head. *)
Definition sampleNext (s : list (list Real)) : list (list Real) * sample_type :=
  (tail s, {| value := hd [] (tail s); weight := 1 |}).
Definition sampleLast (s : list (list Real)) : sample_type :=
  {| value := hd [] s; weight := 1 |}.
Definition sampleGenerator : t (list (list Real)) :=
  {| factors_ := 2; steps_ := 2; lastStep_ := 0;
     generator_ := [[]; [1; 2; 3; 4]] |}.

End MTBrownianGenerator.

(** ** createStationaryDistributionMesher (test-suite/hestonslvmodel.cpp) *)

Module StationaryDistributionMesher.
Section Mesher.
(** [SquareRootProcessRNDCalculator(theta, kappa, theta, sigma)
    .stationary_invcdf]. *)
Variable stationary_invcdf : Real → Real.

(** The argument [qMin + i*dq] of the [i]-th call. *)
Definition quantile (vGrid : Size) (i : Size) : Real :=
  let qMin := 1 # 100 in
  let qMax := 99 # 100 in
  let dq := (qMax - qMin) / inject_Z (Z.of_N (Size_sub vGrid 1%N)) in
  qMin + inject_Z (Z.of_N i) * dq.

(** The vector [v] handed to [Predefined1dMesher]. *)
Definition createStationaryDistributionMesher (vGrid : Size) : list Real :=
  let v := replicate (N.to_nat vGrid) 0 in
  fold_left
    (λ v i, assign v (N.of_nat i)
              (stationary_invcdf (quantile vGrid (N.of_nat i))))
    (seq 0 (N.to_nat vGrid)) v.
End Mesher.
End StationaryDistributionMesher.

(** ** FdSimpleExtOUStorageEngine::calculate, section 2: the elevator mesher
       (fdsimpleextoustorageengine.cpp) *)

From Stdlib Require Import Qround.

Module FdSimpleExtOUStorageLevels.

(** [std::set<Real, Compare>] kept as the ascending list of its elements:
    [insert] puts [x] before the first element that is not less than [x],
    unless that element is not greater than [x] either. *)
Fixpoint set_insert (comp : Real → Real → bool) (x : Real) (s : list Real)
    : list Real :=
  match s with
  | [] => [x]
  | a :: tl =>
      if comp a x then a :: set_insert comp x tl
      else if comp x a then x :: a :: tl
      else a :: tl
  end.

(** The range constructor [std::set<Real, Compare>(first, last)]. *)
Definition set_of_range (comp : Real → Real → bool) (values : list Real)
    : list Real :=
  fold_left (λ s x, set_insert comp x s) values [].

Section Levels.
(** [close_enough(x, y, n)] of ql/math/comparison.hpp. *)
Variable close_enough : Real → Real → Size → bool.

(** [LessButNotCloseEnough::operator()]. *)
Definition LessButNotCloseEnough (a b : Real) : bool :=
  negb (close_enough a b 100%N || Qltb b a).

(** The loop [for (level = 0; level <= capacity; level += changeRate)] that
    appends [level] and [capacity - level]; [None] when the loop is still
    running after [fuel] tests of its condition.  The sum [level +
    changeRate] is taken exactly; on doubles the accumulated level is
    rounded, and the body can run once more or once less than here. *)
Fixpoint storageValuesLoop (fuel : nat) (capacity changeRate level : Real)
    (storageValues : list Real) : option (list Real) :=
  match fuel with
  | O => None
  | S fuel' =>
      if Qle_bool level capacity
      then storageValuesLoop fuel' capacity changeRate (level + changeRate)
             (storageValues ++ [level; capacity - level])
      else Some storageValues
  end.

(** The values handed to [Predefined1dMesher] when [yGrid_] is null. The
    call of [reserve] before the loop changes no element and is left out;
    its argument [Size(capacity/changeRate)+1] is defined for a positive
    change rate only. *)
Definition elevatorStorageValues (fuel : nat) (capacity changeRate : Real)
    : option (list Real) :=
  match storageValuesLoop fuel capacity changeRate 0 [capacity] with
  | None => None
  | Some storageValues =>
      let orderedValues := set_of_range LessButNotCloseEnough storageValues in
      Some orderedValues
  end.
End Levels.

(** The number of times the body of the loop runs when the change rate is
    positive and the capacity is not negative. *)
Definition levelCount (capacity changeRate : Real) : nat :=
  S (Z.to_nat (Qfloor (capacity / changeRate))).

(** The value of [level] after [k] runs of the body, and the content of
    [storageValues] after [n] runs. *)
Definition levelAt (changeRate : Real) (k : nat) : Real :=
  Nat.iter k (λ level, level + changeRate) 0.

Definition rawLevels (capacity changeRate : Real) (n : nat) : list Real :=
  capacity
  :: flat_map (λ k, [levelAt changeRate k; capacity - levelAt changeRate k])
       (seq 0 n).

(** Sample data: [close_enough] as a distance below one tenth. *)
Definition sampleCloseEnough (a b : Real) (n : Size) : bool :=
  Qle_bool (Qabs (a - b)) (1 # 10).

End FdSimpleExtOUStorageLevels.

(** ** FdHullWhiteSwaptionEngine::calculate, section 3: the map [t2d]
       (fdhullwhiteswaptionengine.cpp) *)

Module FdHullWhiteSwaptionT2d.
Section Map.
Variable Date : Type.
(** [dc.yearFraction(referenceDate, d)]. *)
Variable yearFraction : Date → Time.

(** [std::map<Time, Date>] kept as the list of its entries in ascending
    order of the keys; [m[t] = d] overwrites the value of the entry whose
    key is neither less nor greater than [t], and inserts an entry when
    there is none. *)
Fixpoint map_assign (t : Time) (d : Date) (m : list (Time * Date))
    : list (Time * Date) :=
  match m with
  | [] => [(t, d)]
  | (k, v) :: tl =>
      if Qltb k t then (k, v) :: map_assign t d tl
      else if Qltb t k then (t, d) :: (k, v) :: tl
      else (k, d) :: tl
  end.

(** [std::map::find]. *)
Fixpoint map_find (t : Time) (m : list (Time * Date)) : option Date :=
  match m with
  | [] => None
  | (k, v) :: tl =>
      if Qltb k t then map_find t tl
      else if Qltb t k then None
      else Some v
  end.

(** The loop over the exercise dates. *)
Fixpoint t2dLoop (exerciseDates : list Date) (t2d : list (Time * Date))
    : Error + list (Time * Date) :=
  match exerciseDates with
  | [] => inr t2d
  | d :: rest =>
      let t := yearFraction d in
      if negb (Qle_bool 0 t)
      then inl (QL_Error "exercise dates must not contain past date")
      else t2dLoop rest (map_assign t d t2d)
  end.

Definition t2d (exerciseDates : list Date) : Error + list (Time * Date) :=
  t2dLoop exerciseDates [].
End Map.

(** Sample data: dates as day numbers, a year of 360 days. *)
Definition sampleYearFraction (d : Z) : Time := inject_Z d / 360.

End FdHullWhiteSwaptionT2d.

(** * Properties *)

(** ** Vector reads and writes *)

Lemma at_assign_eq {A} (d : A) (v : list A) (i : Size) (x : A) :
  (N.to_nat i < length v)%nat → at_ d (assign v i x) i = x.
Proof.
  intros Hi. unfold at_, assign.
  rewrite list_lookup_insert_eq by exact Hi. reflexivity.
Qed.

Lemma at_assign_ne {A} (d : A) (v : list A) (i j : Size) (x : A) :
  i ≠ j → at_ d (assign v i x) j = at_ d v j.
Proof.
  intros Hij. unfold at_, assign.
  rewrite list_lookup_insert_ne; [reflexivity|].
  intros Heq. apply Hij. apply N2Nat.inj. exact Heq.
Qed.

Lemma length_assign {A} (v : list A) (i : Size) (x : A) :
  length (assign v i x) = length v.
Proof. unfold assign. apply length_insert. Qed.

Lemma at_replicate {A} (d : A) (n : nat) (i : Size) : at_ d (replicate n d) i = d.
Proof.
  unfold at_. destruct (replicate n d !! N.to_nat i) as [y|] eqn:E; [|reflexivity].
  apply lookup_replicate in E. simpl. tauto.
Qed.

Lemma Size_sub_1 (n : Size) : (0 < n < 2 ^ 64)%N → Size_sub n 1%N = (n - 1)%N.
Proof.
  intros [H0 H1]. unfold Size_sub.
  replace (n + 2 ^ 64 - 1)%N with ((n - 1) + 1 * 2 ^ 64)%N by lia.
  rewrite N.Div0.mod_add. apply N.mod_small. lia.
Qed.

(** ** FdmLogBasketInnerValue *)

Module FdmLogBasketInnerValueFacts.
Import FdmLogBasketInnerValue.

(** C9. For every grid iterator and every time, the basket calculator's
    [avgInnerValue] returns exactly the value of its [innerValue], the payoff
    of the exponentiated locations: no cell averaging is performed. *)
Theorem avgInnerValue_is_innerValue (payoff_ : list Real → Real)
    (exp : Real → Real) (mesher_ : FdmMesher) (iter : FdmLinearOpIterator)
    (t : Time) :
  avgInnerValue payoff_ exp mesher_ iter t = innerValue payoff_ exp mesher_ iter t
  ∧ avgInnerValue payoff_ exp mesher_ iter t =
      payoff_ (map (λ i, exp (location mesher_ iter (N.of_nat i)))
                 (seq 0 (length (dim (layout mesher_))))).
Proof. split; reflexivity. Qed.

End FdmLogBasketInnerValueFacts.

(** ** FdmLogInnerValue *)

Module FdmLogInnerValueFacts.
Import FdmLogInnerValue FdmLogInnerValueSample.

Section Cache.
Variable payoff_ : Real → Real.
Variable exp : Real → Real.
Variable SimpsonIntegral :
  Real → Size → (Real → Real) → Real → Real → Error + Real.
Variable mesher_ : FdmMesher.
Variable direction_ : Size.

Lemma fillCache_length its t : ∀ init vals,
  length (snd (fillCache payoff_ exp SimpsonIntegral mesher_ direction_
                 its t init vals)) = length vals.
Proof.
  induction its as [|iter0 rest IH]; intros init vals; simpl; [reflexivity|].
  destruct (negb _); rewrite IH; [apply length_assign | reflexivity].
Qed.

(** After the loop, an entry that was not initialised before holds the
    average computed at the first iterator with that coordinate. *)
Lemma fillCache_lookup its t : ∀ init vals xn,
  length init = length vals →
  (N.to_nat xn < length vals)%nat →
  at_ (Some 0) (snd (fillCache payoff_ exp SimpsonIntegral mesher_
                      direction_ its t init vals)) xn =
    if at_ false init xn then at_ (Some 0) vals xn
    else match firstAt direction_ xn its with
         | Some it =>
             avgInnerValueCalc payoff_ exp SimpsonIntegral mesher_ direction_
               it t
         | None => at_ (Some 0) vals xn
         end.
Proof.
  unfold firstAt.
  induction its as [|iter0 rest IH]; intros init vals xn Hlen Hxn; simpl.
  - destruct (at_ false init xn); reflexivity.
  - set (x0 := coordinateAlong direction_ iter0).
    destruct (at_ false init x0) eqn:Hinit; simpl.
    + rewrite IH by assumption.
      destruct (N.eqb_spec x0 xn) as [->|Hne]; [rewrite Hinit|]; reflexivity.
    + rewrite IH by (rewrite !length_assign; assumption).
      destruct (N.eqb_spec x0 xn) as [->|Hne].
      * rewrite Hinit, !at_assign_eq by (rewrite ?Hlen; assumption).
        reflexivity.
      * rewrite !at_assign_ne by assumption. reflexivity.
Qed.

Lemma layoutCovers_find xn :
  layoutCovers (layout mesher_) direction_ = true →
  (xn < at_ 0%N (dim (layout mesher_)) direction_)%N →
  ∃ iter0, firstAt direction_ xn (iterators (layout mesher_)) = Some iter0.
Proof.
  unfold layoutCovers, firstAt. rewrite forallb_forall. intros Hall Hxn.
  specialize (Hall (N.to_nat xn)). rewrite N2Nat.id in Hall.
  assert (Hex : existsb (λ it, (coordinateAlong direction_ it =? xn)%N)
                  (iterators (layout mesher_)) = true).
  { apply Hall. apply in_seq. lia. }
  apply existsb_exists in Hex as (it & Hin & Hit).
  destruct (find _ (iterators (layout mesher_))) as [i0|] eqn:E; [eauto|].
  apply (find_none _ _ E) in Hin. congruence.
Qed.

(** [innerValue] ignores its time argument, so the averages do not depend on
    the time of the call that fills the cache. *)
Lemma avgInnerValueCalc_time_independent (iter : FdmLinearOpIterator)
    (t t' : Time) :
  avgInnerValueCalc payoff_ exp SimpsonIntegral mesher_ direction_ iter t
  = avgInnerValueCalc payoff_ exp SimpsonIntegral mesher_ direction_ iter t'.
Proof. reflexivity. Qed.

Lemma fillCache_time_independent its (t t' : Time) : ∀ init vals,
  fillCache payoff_ exp SimpsonIntegral mesher_ direction_ its t init vals
  = fillCache payoff_ exp SimpsonIntegral mesher_ direction_ its t' init vals.
Proof.
  induction its as [|iter0 rest IH]; intros init vals; simpl; [reflexivity|].
  destruct (negb _); apply IH.
Qed.

End Cache.

(** On the sample, the integration over the middle cell, which holds the
    kink of the payoff, throws and the point value 0 is cached; the outer
    cells hold their averages 0 and 3/8. *)
Example sample_first_call :
  avgInnerValue samplePayoff sampleExp sampleSimpson sampleMesher 0%N []
    sampleIterator 1
  = (Some (0 # 4), [Some (0 # 24); Some (0 # 4); Some (2304 # 6144)]).
Proof. vm_compute. reflexivity. Qed.

Example sample_middle_cell_throws :
  sampleSimpson
    (accuracy samplePayoff sampleExp
       (cellLower sampleMesher 0%N sampleIterator)
       (cellUpper sampleMesher 0%N sampleIterator))
    8%N (f samplePayoff sampleExp)
    (cellLower sampleMesher 0%N sampleIterator)
    (cellUpper sampleMesher 0%N sampleIterator)
  = inl (QL_Error "max number of iterations reached").
Proof. vm_compute. reflexivity. Qed.

Example sample_later_call :
  avgInnerValue samplePayoff sampleExp sampleSimpson sampleMesher 0%N
    [Some (0 # 24); Some (0 # 4); Some (2304 # 6144)]
    {| index := 4%N; coordinates := [2; 0]%N |} 7
  = (Some (2304 # 6144), [Some (0 # 24); Some (0 # 4); Some (2304 # 6144)]).
Proof. vm_compute. reflexivity. Qed.

(** On an axis with a single point the averaging interval is empty: the
    integral is divided by 0.0 and the entry is not a finite number. *)
Example sample_single_point :
  avgInnerValue samplePayoff sampleExp sampleSimpson sampleSinglePoint 0%N []
    {| index := 0%N; coordinates := [0]%N |} 1
  = (None, [None]).
Proof. vm_compute. reflexivity. Qed.

(** C10. The first call of [avgInnerValue] (empty cache) fills the cache with
    one entry per coordinate along the direction, each the value of
    [avgInnerValueCalc] at the first iterator with that coordinate and at
    the time of this call, and returns the entry of the iterator's
    coordinate; every later call returns the cached entry of its iterator's
    coordinate and leaves the cache unchanged, whatever its time argument.
    The cached computation integrates the payoff of the exponentiated
    location over [[loc - dminus/2, loc + dplus/2]] (cut at [loc] on the
    side where the axis ends: below at coordinate 0, above at the last
    coordinate) with the accuracy of [accuracy] and 8 iterations.  When the
    integrator returns, the entry is the integral divided by the length of
    the interval, the average (not a finite number when the interval is
    empty); when the integrator throws, the entry is the point value
    [payoff(exp(location))]. *)
Theorem avgInnerValue_cached (payoff_ : Real → Real) (exp : Real → Real)
    (SimpsonIntegral : Real → Size → (Real → Real) → Real → Real → Error + Real)
    (mesher_ : FdmMesher) (direction_ : Size)
    (iter : FdmLinearOpIterator) (t : Time) :
  let n := at_ 0%N (dim (layout mesher_)) direction_ in
  let coord := coordinateAlong direction_ in
  let loc := λ it, location mesher_ it direction_ in
  let calc := avgInnerValueCalc payoff_ exp SimpsonIntegral mesher_ direction_ in
  let avg := avgInnerValue payoff_ exp SimpsonIntegral mesher_ direction_ in
  let a := cellLower mesher_ direction_ in
  let b := cellUpper mesher_ direction_ in
  let integrate := λ it,
    SimpsonIntegral (accuracy payoff_ exp (a it) (b it)) 8%N
      (λ x, payoff_ (exp x)) (a it) (b it) in
  (0 < n < 2 ^ 64)%N →
  layoutCovers (layout mesher_) direction_ = true →
  ∃ cache : list (option Real),
    avg [] iter t = (at_ (Some 0) cache (coord iter), cache)
    ∧ length cache = N.to_nat n
    ∧ (∀ xn, (xn < n)%N →
         ∃ iter0,
           firstAt direction_ xn (iterators (layout mesher_)) = Some iter0
           ∧ at_ (Some 0) cache xn = calc iter0 t)
    ∧ (∀ iter' t',
         avg cache iter' t' = (at_ (Some 0) cache (coord iter'), cache))
    ∧ (∀ iter0 t0,
         a iter0 =
           (if (0 <? coord iter0)%N
            then loc iter0 - dminus mesher_ iter0 direction_ / 2
            else loc iter0)
         ∧ b iter0 =
             (if (coord iter0 + 1 <? n)%N
              then loc iter0 + dplus mesher_ iter0 direction_ / 2
              else loc iter0)
         ∧ (∀ integral,
              integrate iter0 = inr integral →
              calc iter0 t0 =
                if Qeq_bool (b iter0 - a iter0) 0 then None
                else Some (integral / (b iter0 - a iter0)))
         ∧ (∀ e,
              integrate iter0 = inl e →
              calc iter0 t0 = Some (payoff_ (exp (loc iter0))))).
Proof.
  intros n coord loc calc avg a b integrate Hn Hcov.
  set (k := N.to_nat n).
  set (cache := snd (fillCache payoff_ exp SimpsonIntegral mesher_ direction_
                       (iterators (layout mesher_)) t
                       (replicate k false) (replicate k (Some 0)))).
  assert (Hlen : length cache = k).
  { unfold cache. rewrite fillCache_length. apply length_replicate. }
  exists cache. split; [reflexivity|]. split; [exact Hlen|].
  split; [|split].
  - intros xn Hxn.
    destruct (layoutCovers_find mesher_ direction_ xn Hcov Hxn) as [iter0 Hf].
    exists iter0. split; [exact Hf|].
    unfold cache. rewrite fillCache_lookup.
    + rewrite at_replicate, Hf. reflexivity.
    + rewrite !length_replicate. reflexivity.
    + rewrite length_replicate. unfold k. lia.
  - intros iter' t'. unfold avg, avgInnerValue.
    destruct cache as [|c0 cs] eqn:E; [|reflexivity].
    simpl in Hlen. unfold k in Hlen. lia.
  - intros iter0 t0. split; [reflexivity|]. split; [|split].
    + unfold b, cellUpper. fold coord. fold n. fold (loc iter0).
      rewrite Size_sub_1 by exact Hn.
      destruct (N.ltb_spec (coord iter0) (n - 1)),
               (N.ltb_spec (coord iter0 + 1) n); try reflexivity; lia.
    + intros integral He. unfold integrate in He.
      unfold calc, avgInnerValueCalc. fold a. fold b.
      change (f payoff_ exp) with (λ x : Real, payoff_ (exp x)).
      rewrite He. reflexivity.
    + intros e He. unfold integrate in He.
      unfold calc, avgInnerValueCalc. fold a. fold b.
      change (f payoff_ exp) with (λ x : Real, payoff_ (exp x)).
      rewrite He. reflexivity.
Qed.

Lemma avgInnerValue_cached_witness :
  ∃ cache : list (option Real),
    avgInnerValue samplePayoff sampleExp sampleSimpson sampleMesher 0%N []
      sampleIterator 1
    = (at_ (Some 0) cache 1%N, cache)
    ∧ length cache = 3%nat
    ∧ at_ (Some 0) cache 2%N = Some (2304 # 6144)
    ∧ at_ (Some 0) cache 1%N = Some (0 # 4).
Proof.
  destruct (avgInnerValue_cached samplePayoff sampleExp sampleSimpson
              sampleMesher 0%N sampleIterator 1)
    as (cache & H1 & H2 & H3 & _ & H5).
  - vm_compute. split; reflexivity.
  - vm_compute. reflexivity.
  - exists cache. split; [exact H1|]. split; [exact H2|]. split.
    + destruct (H3 2%N ltac:(vm_compute; reflexivity)) as (iter0 & Hf & ->).
      destruct (H5 iter0 1) as (_ & _ & Hok & _).
      vm_compute in Hf. injection Hf as <-.
      erewrite Hok by (vm_compute; reflexivity).
      vm_compute. reflexivity.
    + destruct (H3 1%N ltac:(vm_compute; reflexivity)) as (iter0 & Hf & ->).
      destruct (H5 iter0 1) as (_ & _ & _ & Hthrow).
      vm_compute in Hf. injection Hf as <-.
      erewrite Hthrow by (vm_compute; reflexivity).
      vm_compute. reflexivity.
Defined.

End FdmLogInnerValueFacts.

(** ** FdHestonRebateEngine *)

Module FdHestonRebateEngineFacts.
Import FdHestonRebateEngine.

(** C8. Whenever [FdHestonRebateEngine::calculate] reaches the solver, the
    boundary-condition set of the solver description holds exactly one
    Dirichlet condition: for a Down barrier (DownIn, DownOut) on the lower
    edge of axis 0, for an Up barrier (UpIn, UpOut) on the upper edge of
    axis 0, in both cases pinning the solution to the rebate; nothing else
    is attached. *)
Theorem calculate_boundaries (M Calc : Type) (mesher_ : M) (calculator_ : Calc)
    (conditions : FdmStepConditionComposite.t) (maturity_ : Time)
    (tGrid_ dampingSteps_ : Size) (a : arguments)
    (desc : FdmSolverDesc M Calc) :
  calculate_solverDesc M Calc mesher_ calculator_ conditions maturity_ tGrid_
    dampingSteps_ a = inr desc →
  bcSet desc =
    match barrierType a with
    | Barrier.DownIn | Barrier.DownOut =>
        [FdmDirichletBoundary.make mesher_ (rebate a) 0%N
           FdmDirichletBoundary.Lower]
    | Barrier.UpIn | Barrier.UpOut =>
        [FdmDirichletBoundary.make mesher_ (rebate a) 0%N
           FdmDirichletBoundary.Upper]
    end.
Proof.
  unfold calculate_solverDesc. intros H.
  destruct (negb _); [discriminate|].
  injection H as <-. cbn [bcSet]. unfold boundaries.
  destruct (barrierType a); reflexivity.
Qed.

Lemma calculate_boundaries_witness :
  ∃ desc : FdmSolverDesc unit unit,
    calculate_solverDesc unit unit tt tt FdmSolver.sampleConditions (1 # 2)
      100%N 0%N haugDownOut = inr desc
    ∧ bcSet desc =
        [FdmDirichletBoundary.make tt 3 0%N FdmDirichletBoundary.Lower].
Proof.
  eexists. split; [reflexivity|].
  exact (calculate_boundaries unit unit tt tt FdmSolver.sampleConditions
           (1 # 2) 100%N 0%N haugDownOut _ eq_refl).
Defined.

(** The engine refuses every exercise style but the European one. *)
Lemma calculate_requires_european (M Calc : Type) (mesher_ : M)
    (calculator_ : Calc) (conditions : FdmStepConditionComposite.t)
    (maturity_ : Time) (tGrid_ dampingSteps_ : Size) (a : arguments) :
  exerciseType a ≠ Exercise.European →
  calculate_solverDesc M Calc mesher_ calculator_ conditions maturity_ tGrid_
    dampingSteps_ a = inl (QL_Error "only european style option are supported").
Proof.
  unfold calculate_solverDesc. destruct (exerciseType a); simpl; congruence.
Qed.

End FdHestonRebateEngineFacts.

(** ** Axis meshers *)

Module Fdm1dMesherFacts.
Import Fdm1dMesher.

Lemma Qltb_lt (a b : Q) : Qltb a b = true ↔ a < b.
Proof.
  unfold Qltb. rewrite negb_true_iff. split.
  - intros H. apply Qnot_le_lt. intros Hle.
    apply Qle_bool_iff in Hle. congruence.
  - intros H. destruct (Qle_bool b a) eqn:E; [|reflexivity].
    apply Qle_bool_iff in E. exfalso. exact (Qlt_not_le _ _ H E).
Qed.

Lemma strictlyIncreasing_Sorted (x : list Real) :
  strictlyIncreasing x = true ↔ Sorted Qlt x.
Proof.
  induction x as [|a tl IH]; [split; [constructor | reflexivity]|].
  destruct tl as [|b tl'].
  - split; [repeat constructor | reflexivity].
  - change (strictlyIncreasing (a :: b :: tl'))
      with (Qltb a b && strictlyIncreasing (b :: tl')).
    rewrite andb_true_iff, Qltb_lt, IH. split.
    + intros [Hab Hs]. constructor; [exact Hs | constructor; exact Hab].
    + intros Hs. inversion Hs as [|? ? Hs' Hhd]; subst.
      inversion Hhd; subst. split; assumption.
Qed.

Lemma Sorted_Qlt_StronglySorted (x : list Real) :
  Sorted Qlt x → StronglySorted Qlt x.
Proof.
  apply Sorted_StronglySorted. intros a b c. apply Qlt_trans.
Qed.

Lemma spacings_length (x : list Real) :
  length (spacings x) = pred (length x).
Proof.
  induction x as [|a tl IH]; [reflexivity|].
  destruct tl as [|b tl']; [reflexivity|].
  change (spacings (a :: b :: tl')) with ((b - a) :: spacings (b :: tl')).
  simpl length in *. rewrite IH. reflexivity.
Qed.

Lemma spacings_lookup (x : list Real) : ∀ (i : nat) (a b : Real),
  x !! i = Some a → x !! S i = Some b → spacings x !! i = Some (b - a).
Proof.
  induction x as [|a0 tl IH]; intros i a b Ha Hb; [discriminate|].
  destruct tl as [|b0 tl']; [discriminate|].
  change (spacings (a0 :: b0 :: tl')) with ((b0 - a0) :: spacings (b0 :: tl')).
  destruct i as [|i].
  - simpl in Ha, Hb. injection Ha as <-. injection Hb as <-. reflexivity.
  - simpl. apply IH; assumption.
Qed.

Lemma spacings_positive (x : list Real) :
  Sorted Qlt x → Forall (λ d, 0 < d) (spacings x).
Proof.
  induction x as [|a tl IH]; intros Hs; [constructor|].
  destruct tl as [|b tl']; [constructor|].
  change (spacings (a :: b :: tl')) with ((b - a) :: spacings (b :: tl')).
  inversion Hs as [|? ? Hs' Hhd]; subst. inversion Hhd; subst.
  constructor; [|apply IH; exact Hs'].
  unfold Qminus. apply -> Qlt_minus_iff. assumption.
Qed.

(** The forward spacing stored by [fill]. *)
Lemma dplus_fill (x : list Real) (i : nat) (a : Real) :
  x !! i = Some a →
  dplus (fill x) i =
    match x !! S i with Some b => Some (b - a) | None => None end.
Proof.
  intros Ha. unfold dplus, fill; cbn [dplus_].
  destruct (x !! S i) as [b|] eqn:Hb.
  - rewrite lookup_app_l.
    + rewrite list_lookup_fmap, (spacings_lookup x i a b Ha Hb). reflexivity.
    + rewrite length_fmap, spacings_length.
      apply lookup_lt_Some in Hb. lia.
  - apply lookup_ge_None in Hb. apply lookup_lt_Some in Ha.
    assert (Hi : length x = S i) by lia.
    rewrite lookup_app_r by (rewrite length_fmap, spacings_length; lia).
    rewrite length_fmap, spacings_length, Hi. simpl.
    rewrite Nat.sub_diag. reflexivity.
Qed.

(** The backward spacing stored by [fill]. *)
Lemma dminus_fill (x : list Real) (i : nat) (a : Real) :
  x !! i = Some a →
  dminus (fill x) i =
    match i with
    | O => None
    | S j => match x !! j with Some c => Some (a - c) | None => None end
    end.
Proof.
  intros Ha. unfold dminus, fill; cbn [dminus_].
  destruct i as [|j]; [reflexivity|]. simpl.
  assert (Hj : is_Some (x !! j)).
  { apply lookup_lt_is_Some. apply lookup_lt_Some in Ha. lia. }
  destruct Hj as [c Hc]. rewrite Hc.
  rewrite list_lookup_fmap, (spacings_lookup x j c a Hc Ha). reflexivity.
Qed.

Lemma dplus_fill_positive (x : list Real) (i : nat) (d : Real) :
  Sorted Qlt x → dplus (fill x) i = Some d → 0 < d.
Proof.
  intros Hs. unfold dplus, fill; cbn [dplus_].
  destruct (((Some <$> spacings x) ++ [None]) !! i) as [o|] eqn:E;
    [|discriminate].
  intros ->. apply list_elem_of_lookup_2 in E.
  apply elem_of_app in E as [E|E].
  - apply list_elem_of_fmap in E as (d' & Hd & Hin). injection Hd as <-.
    pose proof (spacings_positive x Hs) as Hall.
    rewrite List.Forall_forall in Hall. apply Hall.
    apply list_elem_of_In. exact Hin.
  - apply list_elem_of_singleton in E. discriminate.
Qed.

Lemma dminus_fill_positive (x : list Real) (i : nat) (d : Real) :
  Sorted Qlt x → dminus (fill x) i = Some d → 0 < d.
Proof.
  intros Hs. unfold dminus, fill; cbn [dminus_].
  destruct ((None :: (Some <$> spacings x)) !! i) as [o|] eqn:E;
    [|discriminate].
  intros ->. apply list_elem_of_lookup_2 in E.
  apply elem_of_cons in E as [E|E]; [discriminate|].
  apply list_elem_of_fmap in E as (d' & Hd & Hin). injection Hd as <-.
  pose proof (spacings_positive x Hs) as Hall.
  rewrite List.Forall_forall in Hall. apply Hall.
  apply list_elem_of_In. exact Hin.
Qed.

(** Every constructor goes through [make]. *)
Lemma constructed_make (m : t) :
  constructed m → ∃ x, make x = inr m.
Proof.
  intros [[x H] | [(s & e & n & H) | (s & e & n & cp & st & H)]].
  - exists x. exact H.
  - unfold Uniform1dMesher in H.
    destruct (_ && _) in H; [eauto | discriminate].
  - unfold Concentrating1dMesher in H.
    destruct (_ && _) in H; [eauto | discriminate].
Qed.

Lemma make_inv (x : list Real) (m : t) :
  make x = inr m → m = fill x ∧ (3 ≤ length x)%nat ∧ Sorted Qlt x.
Proof.
  unfold make. destruct (_ && _) eqn:E; [|discriminate].
  intros H. injection H as <-.
  apply andb_true_iff in E as [E1 E2].
  apply Nat.leb_le in E1. apply strictlyIncreasing_Sorted in E2. auto.
Qed.

End Fdm1dMesherFacts.

Module Fdm1dMesherClaims.
Import Fdm1dMesher Fdm1dMesherFacts.

Lemma inject_Z_succ (i : nat) :
  inject_Z (Z.of_nat (S i)) == inject_Z (Z.of_nat i) + 1.
Proof. rewrite Nat2Z.inj_succ. unfold Z.succ. rewrite inject_Z_plus. reflexivity. Qed.

Lemma strictlyIncreasing_map_seq (g : nat → Real) :
  (∀ i, g i < g (S i)) → ∀ n a, strictlyIncreasing (map g (seq a n)) = true.
Proof.
  intros Hg. induction n as [|n IH]; intros a; [reflexivity|].
  destruct n as [|n]; [reflexivity|].
  change (strictlyIncreasing (map g (seq a (S (S n)))))
    with (Qltb (g a) (g (S a)) && strictlyIncreasing (map g (seq (S a) (S n)))).
  rewrite IH. rewrite andb_true_r. apply Qltb_lt. apply Hg.
Qed.

(** A uniform mesher with at least three points between increasing bounds
    is constructed. *)
Lemma Uniform1dMesher_succeeds (start end_ : Real) (size : nat) :
  (3 ≤ size)%nat → start < end_ →
  Uniform1dMesher start end_ size = inr (fill (uniformLocations start end_ size)).
Proof.
  intros Hsize Hlt. unfold Uniform1dMesher.
  apply Nat.leb_le in Hsize as Hs. rewrite Hs.
  apply Qltb_lt in Hlt as Hb. rewrite Hb. simpl.
  unfold make, uniformLocations. rewrite length_map, length_seq, Hs. simpl.
  rewrite strictlyIncreasing_map_seq; [reflexivity|].
  intros i. rewrite inject_Z_succ.
  set (k := inject_Z (Z.of_nat (size - 1))).
  assert (Hk : 0 < k).
  { unfold k. change 0 with (inject_Z 0). rewrite <- Zlt_Qlt. lia. }
  assert (Hdx : 0 < (end_ - start) / k).
  { apply Qlt_shift_div_l; [exact Hk|]. rewrite Qmult_0_l.
    unfold Qminus. apply -> Qlt_minus_iff. exact Hlt. }
  set (dx := (end_ - start) / k) in *.
  rewrite Qmult_plus_distr_l, Qmult_1_l.
  rewrite Qplus_assoc.
  rewrite <- (Qplus_0_r (start + inject_Z (Z.of_nat i) * dx)) at 1.
  apply Qplus_lt_r. exact Hdx.
Qed.

(** The exercise-rights mesher of the swing engine has
    [maxExerciseRights + 1] points: it is constructed exactly when the option
    has at least two exercise rights. *)
Lemma swing_exerciseMesher (a : FdSimpleExtOUJumpSwingEngine.arguments) :
  let rights := FdSimpleExtOUJumpSwingEngine.maxExerciseRights a in
  (rights + 1 < 2 ^ 64)%N →
  ((rights < 2)%N →
     FdSimpleExtOUJumpSwingEngine.exerciseMesher a = inl InvalidMesherConfig)
  ∧ ((2 ≤ rights)%N →
     ∃ m, FdSimpleExtOUJumpSwingEngine.exerciseMesher a = inr m
          ∧ size m = N.to_nat (rights + 1)).
Proof.
  intros rights Hr. unfold FdSimpleExtOUJumpSwingEngine.exerciseMesher.
  fold rights. rewrite N.mod_small by exact Hr. split.
  - intros Hlt. unfold Uniform1dMesher.
    destruct (Nat.leb_spec 3 (N.to_nat (rights + 1))); [lia | reflexivity].
  - intros Hge. eexists. split.
    + apply Uniform1dMesher_succeeds; [lia|].
      change 0 with (inject_Z 0). rewrite <- Zlt_Qlt. lia.
    + unfold size, uniformLocations; simpl.
      rewrite length_map, length_seq. reflexivity.
Qed.

Example uniform_three_points :
  Uniform1dMesher 0 2 3
  = inr {| locations_ := [0 # 2; 2 # 2; 4 # 2];
           dplus_ := [Some (4 # 4); Some (4 # 4); None];
           dminus_ := [None; Some (4 # 4); Some (4 # 4)] |}.
Proof. vm_compute. reflexivity. Qed.



End Fdm1dMesherClaims.

(** ** Composite mesher *)

Module FdmMesherCompositeFacts.
Import FdmMesherComposite.

Lemma tuples_In (dims : list nat) : ∀ c,
  In c (tuples dims) ↔ Forall2 lt c dims.
Proof.
  induction dims as [|d rest IH]; intros c; simpl.
  - split.
    + intros [<-|[]]. constructor.
    + intros H. inversion H. left. reflexivity.
  - rewrite in_flat_map. split.
    + intros (i & Hi & Hc). apply in_map_iff in Hc as (c' & <- & Hc').
      apply in_seq in Hi. constructor; [lia | apply IH; exact Hc'].
    + intros H. inversion H as [|i d' c' rest' Hlt Hrest]; subst.
      exists i. split; [apply in_seq; lia|].
      apply in_map_iff. exists c'. split; [reflexivity | apply IH; exact Hrest].
Qed.

Lemma tuples_inhabited (dims : list nat) :
  List.Forall (lt 0) dims → ∃ c, Forall2 lt c dims.
Proof.
  induction 1 as [|d rest Hd _ [c Hc]].
  - exists []. constructor.
  - exists (0%nat :: c). constructor; assumption.
Qed.

(** Every coordinate below the extent of a direction occurs in some tuple. *)
Lemma tuples_cover (dims : list nat) : ∀ (k d xn : nat),
  List.Forall (lt 0) dims → dims !! k = Some d → (xn < d)%nat →
  ∃ c, In c (tuples dims) ∧ c !! k = Some xn.
Proof.
  induction dims as [|d0 rest IH]; intros k d xn Hpos Hk Hxn; [discriminate|].
  inversion Hpos as [|? ? Hd0 Hrest]; subst.
  destruct k as [|k]; simpl in Hk.
  - injection Hk as ->. destruct (tuples_inhabited rest Hrest) as [c Hc].
    exists (xn :: c). split; [|reflexivity].
    apply tuples_In. constructor; assumption.
  - destruct (IH k d xn Hrest Hk Hxn) as (c & Hc & Hck).
    exists (0%nat :: c). split; [|exact Hck].
    apply tuples_In. constructor; [exact Hd0 | apply tuples_In; exact Hc].
Qed.

(** The layout of a composite mesher is well formed along every direction
    as soon as no axis is empty. *)
Lemma layoutOf_covers (dims : list nat) (direction : Size) :
  List.Forall (lt 0) dims → layoutCovers (layoutOf dims) direction = true.
Proof.
  intros Hpos. unfold layoutCovers. apply forallb_forall. intros xn Hxn.
  apply in_seq in Hxn. unfold at_, layoutOf in Hxn; cbn [dim] in Hxn.
  rewrite list_lookup_fmap in Hxn.
  destruct (dims !! N.to_nat direction) as [d|] eqn:Hd; simpl in Hxn; [|lia].
  rewrite Nat2N.id in Hxn.
  destruct (tuples_cover dims _ d xn Hpos Hd ltac:(lia)) as (c & Hc & Hck).
  apply existsb_exists.
  apply list_elem_of_In, list_elem_of_lookup in Hc as [i Hi].
  exists {| index := N.of_nat i; coordinates := N.of_nat <$> c |}. split.
  - apply list_elem_of_In. unfold layoutOf; cbn [iterators].
    apply elem_of_lookup_imap. exists i, c. auto.
  - apply N.eqb_eq. unfold coordinateAlong, at_; cbn [coordinates].
    rewrite list_lookup_fmap, Hck. reflexivity.
Qed.

Lemma make_covers (axes : list Fdm1dMesher.t) (direction : Size) :
  List.Forall Fdm1dMesher.constructed axes →
  layoutCovers (layout (make axes)) direction = true.
Proof.
  intros Hall. unfold make; cbn [layout]. apply layoutOf_covers.
  induction Hall as [|m rest Hm _ IH]; simpl; constructor; [|exact IH].
  destruct (Fdm1dMesherFacts.constructed_make m Hm) as [x Hx].
  apply Fdm1dMesherFacts.make_inv in Hx as (-> & Hlen & _).
  unfold Fdm1dMesher.size; simpl. lia.
Qed.

Example layout_3_by_2 :
  layoutOf [3; 2]%nat =
    {| dim := [3; 2]%N;
       iterators :=
         [ {| index := 0; coordinates := [0; 0] |};
           {| index := 1; coordinates := [0; 1] |};
           {| index := 2; coordinates := [1; 0] |};
           {| index := 3; coordinates := [1; 1] |};
           {| index := 4; coordinates := [2; 0] |};
           {| index := 5; coordinates := [2; 1] |} ]%N |}.
Proof. reflexivity. Qed.

(** With [dplus] and [dminus] the full distances to the neighbours, the
    averaging intervals of [FdmLogInnerValue::avgInnerValueCalc] at two
    neighbouring points of an axis meet at the midpoint between them: the
    halved spacings tile the axis. *)
Lemma averaging_cells_tile (m : Fdm1dMesher.t) (i : nat) (a b : Real) :
  Fdm1dMesher.constructed m →
  (N.of_nat (Fdm1dMesher.size m) < 2 ^ 64)%N →
  Fdm1dMesher.location m i = Some a →
  Fdm1dMesher.location m (S i) = Some b →
  let it := {| index := N.of_nat i; coordinates := [N.of_nat i] |} in
  let it' := {| index := N.of_nat (S i); coordinates := [N.of_nat (S i)] |} in
  FdmLogInnerValue.cellUpper (make [m]) 0%N it == (a + b) / 2
  ∧ FdmLogInnerValue.cellLower (make [m]) 0%N it' == (a + b) / 2.
Proof.
  intros Hc Hsize Ha Hb it it'.
  destruct (Fdm1dMesherFacts.constructed_make m Hc) as [x Hx].
  apply Fdm1dMesherFacts.make_inv in Hx as (-> & Hlen & _).
  unfold Fdm1dMesher.location, Fdm1dMesher.size in *.
  change (Fdm1dMesher.locations_ (Fdm1dMesher.fill x)) with x in *.
  pose proof (lookup_lt_Some _ _ _ Hb) as Hi.
  unfold FdmLogInnerValue.cellUpper, FdmLogInnerValue.cellLower.
  unfold make, layoutOf, axisValue, coordinateAlong, at_, it, it';
    cbn [layout dim location dplus dminus coordinates].
  simpl lookup. cbn [default from_option]. unfold id. rewrite !Nat2N.id.
  unfold Fdm1dMesher.size, Fdm1dMesher.location.
  change (Fdm1dMesher.locations_ (Fdm1dMesher.fill x)) with x.
  rewrite Ha, Hb. cbn [default from_option].
  rewrite (Fdm1dMesherFacts.dplus_fill x i a Ha), Hb.
  rewrite (Fdm1dMesherFacts.dminus_fill x (S i) b Hb), Ha.
  cbn [default from_option].
  rewrite Size_sub_1 by lia.
  destruct (N.ltb_spec (N.of_nat i) (N.of_nat (length x) - 1)); [|lia].
  destruct (N.ltb_spec 0 (N.of_nat (S i))); [|lia].
  split; field.
Qed.

End FdmMesherCompositeFacts.

(** ** Step-condition composite *)

Module FdmStepConditionCompositeFacts.
Import FdmStepConditionComposite.

Lemma insertTime_InA (t u : Time) (s : list Time) :
  InA Qeq t (insertTime u s) ↔ t == u ∨ InA Qeq t s.
Proof.
  induction s as [|v r IH]; simpl.
  - rewrite InA_cons, InA_nil. tauto.
  - destruct (u ?= v) eqn:E.
    + apply Qeq_alt in E. rewrite InA_cons. split; [tauto|].
      intros [H|H]; [left; rewrite H; exact E | exact H].
    + rewrite !InA_cons. tauto.
    + rewrite !InA_cons, IH. tauto.
Qed.

Lemma insertTime_HdRel (v u : Time) (r : list Time) :
  HdRel Qlt v r → v < u → HdRel Qlt v (insertTime u r).
Proof.
  intros Hhd Hvu. destruct r as [|w r']; simpl.
  - constructor. exact Hvu.
  - destruct (u ?= w); [exact Hhd | constructor; exact Hvu |].
    inversion Hhd; subst. constructor. assumption.
Qed.

Lemma insertTime_Sorted (u : Time) (s : list Time) :
  Sorted Qlt s → Sorted Qlt (insertTime u s).
Proof.
  induction s as [|v r IH]; intros Hs; simpl.
  - repeat constructor.
  - inversion Hs as [|? ? Hr Hhd]; subst.
    destruct (u ?= v) eqn:E.
    + exact Hs.
    + apply Qlt_alt in E. constructor; [exact Hs | constructor; exact E].
    + apply Qgt_alt in E. constructor; [apply IH; exact Hr|].
      apply insertTime_HdRel; assumption.
Qed.

Lemma insertAll_Sorted (l : list Time) : ∀ s,
  Sorted Qlt s → Sorted Qlt (insertAll l s).
Proof.
  unfold insertAll. induction l as [|u l IH]; intros s Hs; simpl; [exact Hs|].
  apply IH, insertTime_Sorted, Hs.
Qed.

Lemma insertAll_InA (t : Time) (l : list Time) : ∀ s,
  InA Qeq t (insertAll l s) ↔ InA Qeq t l ∨ InA Qeq t s.
Proof.
  unfold insertAll. induction l as [|u l IH]; intros s; simpl.
  - rewrite InA_nil. tauto.
  - rewrite IH, insertTime_InA, InA_cons. tauto.
Qed.

Lemma mergeFrom_Sorted (ls : list (list Time)) : ∀ s,
  Sorted Qlt s → Sorted Qlt (fold_left (λ acc l, insertAll l acc) ls s).
Proof.
  induction ls as [|l ls IH]; intros s Hs; simpl; [exact Hs|].
  apply IH, insertAll_Sorted, Hs.
Qed.

Lemma mergeFrom_InA (t : Time) (ls : list (list Time)) : ∀ s,
  InA Qeq t (fold_left (λ acc l, insertAll l acc) ls s)
  ↔ (∃ l, In l ls ∧ InA Qeq t l) ∨ InA Qeq t s.
Proof.
  induction ls as [|l ls IH]; intros s; simpl.
  - split; [tauto|]. intros [(l & [] & _)|H]. exact H.
  - rewrite IH, insertAll_InA. split.
    + intros [(l' & Hin & Ht)|[Ht|Ht]]; eauto.
    + intros [(l' & [<-|Hin] & Ht)|Ht]; eauto.
Qed.

Lemma StronglySorted_Qlt_NoDupA (s : list Time) :
  StronglySorted Qlt s → NoDupA Qeq s.
Proof.
  induction 1 as [|a l Hl IH Hall]; constructor; [|exact IH].
  intros Hin. apply InA_alt in Hin as (y & Hay & Hy).
  rewrite List.Forall_forall in Hall. specialize (Hall y Hy).
  rewrite Hay in Hall. exact (Qlt_irrefl _ Hall).
Qed.

Lemma applyLoop_filter (rs : list (list Time * StepCondition)) (t : Time) :
  ∀ a : Array,
  applyLoop rs a t =
    fold_left (λ acc r, snd r acc t) (List.filter (registeredAt t) rs) a.
Proof.
  induction rs as [|r rest IH]; intros a; simpl; [reflexivity|].
  destruct (registeredAt t r); simpl; apply IH.
Qed.

Lemma make_stoppingTimes_Sorted (times : list (list Time))
    (conditions : list StepCondition) :
  StronglySorted Qlt (stoppingTimes (make times conditions)).
Proof.
  apply Sorted_StronglySorted; [intros x y z; apply Qlt_trans|].
  apply mergeFrom_Sorted. constructor.
Qed.

Lemma make_stoppingTimes_InA (times : list (list Time))
    (conditions : list StepCondition) (t : Time) :
  InA Qeq t (stoppingTimes (make times conditions))
  ↔ ∃ l, In l times ∧ InA Qeq t l.
Proof.
  unfold stoppingTimes, make, mergeTimes; cbn [stoppingTimes_].
  rewrite mergeFrom_InA, InA_nil. tauto.
Qed.

Example merge_two_lists :
  mergeTimes [[1; 3; 2 # 2]; [2; 6 # 2; 1 # 2]] = [1 # 2; 1; 2; 3].
Proof. reflexivity. Qed.

(** C3. The composite built from several event-time lists exposes their merge
    as one strictly ascending (hence duplicate-free) sequence holding exactly
    the times of the input lists, and applying the composite at a time
    applies, in registration order, every condition registered for that
    time to the array. *)
Theorem composite_merges_and_applies_in_order
    (times : list (list Time)) (conditions : list StepCondition) :
  let c := make times conditions in
  StronglySorted Qlt (stoppingTimes c)
  ∧ NoDupA Qeq (stoppingTimes c)
  ∧ (∀ t, InA Qeq t (stoppingTimes c) ↔ ∃ l, In l times ∧ InA Qeq t l)
  ∧ (∀ (a : Array) (t : Time),
       applyTo c a t =
         fold_left (λ acc r, snd r acc t)
           (List.filter (registeredAt t) (combine times conditions)) a).
Proof.
  intros c.
  split; [apply make_stoppingTimes_Sorted|].
  split; [apply StronglySorted_Qlt_NoDupA, make_stoppingTimes_Sorted|].
  split; [apply make_stoppingTimes_InA|].
  intros a t. apply applyLoop_filter.
Qed.

(** On an ex-dividend exercise date the shift registered first is applied
    before the floor registered second; on a date of the first list only,
    the shift alone is applied. *)
Lemma composite_merges_and_applies_in_order_witness :
  let c := make [[1; 3]; [2; 3]] [sampleShift; sampleFloor] in
  applyTo c [5; 2] 3 = [Qmax (5 - 1) 2; Qmax (2 - 1) 2]
  ∧ applyTo c [5; 2] 1 = [5 - 1; 2 - 1]
  ∧ NoDupA Qeq (stoppingTimes c).
Proof.
  destruct (composite_merges_and_applies_in_order
              [[1; 3]; [2; 3]] [sampleShift; sampleFloor])
    as (_ & Hnd & _ & Happly).
  split; [|split].
  - rewrite Happly. reflexivity.
  - rewrite Happly. reflexivity.
  - exact Hnd.
Defined.

End FdmStepConditionCompositeFacts.

(** ** FdSimpleExtOUStorageEngine *)

Module FdSimpleExtOUStorageEngineFacts.
Import FdmStepConditionComposite FdmStepConditionCompositeFacts.
Import FdSimpleExtOUStorageEngine.

Section Engine.
Variables (Date M Calc : Type).
Variable yearFraction : Date → Time.
Variable FdmSimpleStorageCondition : list Time → StepCondition.

Lemma exerciseTimes_ok (dates : list Date) : ∀ times,
  exerciseTimes Date yearFraction dates = inr times →
  times = map yearFraction dates ∧ Forall (λ t, 0 <= t) times.
Proof.
  induction dates as [|d rest IH]; intros times H; simpl in H.
  - injection H as <-. split; [reflexivity | constructor].
  - destruct (Qle_bool 0 (yearFraction d)) eqn:E; [|discriminate].
    destruct (exerciseTimes Date yearFraction rest) as [e|ts]; [discriminate|].
    injection H as <-. destruct (IH ts eq_refl) as [-> Hall].
    split; [reflexivity|]. constructor; [|exact Hall].
    apply Qle_bool_iff. exact E.
Qed.

(** The composite handed to the solver by the storage engine: its trigger
    times are the exercise times, sorted and without duplicates, and at each
    of them (and at no other time) the storage condition is applied. *)
Lemma storage_engine_conditions (mesher_ : M) (storageCalculator : Calc)
    (maturity_ : Time) (tGrid_ : Size) (a : arguments Date)
    (desc : FdmSolverDesc M Calc) :
  calculate_solverDesc Date M Calc yearFraction FdmSimpleStorageCondition
    mesher_ storageCalculator maturity_ tGrid_ a = inr desc →
  let times := map yearFraction (exerciseDates Date a) in
  StronglySorted Qlt (stoppingTimes (condition desc))
  ∧ (∀ t, InA Qeq t (stoppingTimes (condition desc)) ↔ InA Qeq t times)
  ∧ (∀ (arr : Array) (t : Time),
       applyTo (condition desc) arr t =
         if existsb (Qeq_bool t) times
         then FdmSimpleStorageCondition times arr t else arr)
  ∧ bcSet desc = [] ∧ dampingSteps desc = 0%N.
Proof.
  intros H times. unfold calculate_solverDesc in H.
  destruct (negb _); [discriminate|].
  destruct (exerciseTimes Date yearFraction (exerciseDates Date a))
    as [e|ts] eqn:E; [discriminate|].
  apply exerciseTimes_ok in E as [-> _]. fold times in H.
  injection H as <-. cbn [condition bcSet dampingSteps].
  split; [apply make_stoppingTimes_Sorted|]. split; [|split; [|auto]].
  - intros t. rewrite make_stoppingTimes_InA. simpl. split.
    + intros (l & [<-|[]] & Hl). exact Hl.
    + intros Hl. exists times. auto.
  - intros arr t. unfold applyTo, make; cbn [conditions_]. simpl.
    unfold registeredAt. simpl. destruct (existsb _ times); reflexivity.
Qed.

End Engine.
End FdSimpleExtOUStorageEngineFacts.

(** ** FdSimpleExtOUJumpSwingEngine *)

Module FdSimpleExtOUJumpSwingEngineFacts.
Import FdmStepConditionComposite FdmStepConditionCompositeFacts.
Import FdSimpleExtOUJumpSwingEngine.

(** The composite handed to the solver by the swing engine: its trigger
    times are the exercise times of the swing exercise, sorted and without
    duplicates, the maturity of a non-empty exercise is one of them, and at
    each of them (and at no other time) the swing condition is applied. *)
Lemma swing_engine_conditions (M Calc : Type)
    (FdmSimpleSwingCondition : list Time → StepCondition)
    (mesher_ : M) (calculator_ : Calc) (tGrid_ : Size) (a : arguments)
    (desc : FdmSolverDesc M Calc) :
  calculate_solverDesc M Calc FdmSimpleSwingCondition mesher_ calculator_
    tGrid_ a = inr desc →
  ∃ times, swingExercise a = Some times
  ∧ StronglySorted Qlt (stoppingTimes (condition desc))
  ∧ (∀ t, InA Qeq t (stoppingTimes (condition desc)) ↔ InA Qeq t times)
  ∧ (times ≠ [] → InA Qeq (maturity desc) (stoppingTimes (condition desc)))
  ∧ (∀ (arr : Array) (t : Time),
       applyTo (condition desc) arr t =
         if existsb (Qeq_bool t) times
         then FdmSimpleSwingCondition times arr t else arr).
Proof.
  unfold calculate_solverDesc. intros H.
  destruct (swingExercise a) as [times|]; [|discriminate].
  injection H as <-. cbn [condition maturity]. exists times.
  assert (Hin : ∀ t, InA Qeq t (stoppingTimes
                  (make ([] ++ [times]) ([] ++ [FdmSimpleSwingCondition times])))
                ↔ InA Qeq t times).
  { intros t. rewrite make_stoppingTimes_InA. simpl. split.
    - intros (l & [<-|[]] & Hl). exact Hl.
    - intros Hl. exists times. auto. }
  split; [reflexivity|]. split; [apply make_stoppingTimes_Sorted|].
  split; [exact Hin|]. split.
  - intros Hne. apply Hin. apply InA_alt. eexists. split; [reflexivity|].
    destruct (exists_last Hne) as (l' & x & ->).
    rewrite List.last_last. apply in_or_app. right. left. reflexivity.
  - intros arr t. unfold applyTo, make; cbn [conditions_]. simpl.
    unfold registeredAt. simpl. destruct (existsb _ times); reflexivity.
Qed.

End FdSimpleExtOUJumpSwingEngineFacts.

(** ** Solver driver *)

Module FdmSolverFacts.
Import FdmStepConditionComposite FdmStepConditionCompositeFacts FdmSolver.

Lemma uniformTimes_InA (t maturity : Time) (steps : nat) :
  InA Qeq t (uniformTimes maturity steps)
  ↔ (∃ i : nat, (i < steps)%nat
       ∧ t == inject_Z (Z.of_nat i) * maturity / inject_Z (Z.of_nat steps))
    ∨ t == maturity.
Proof.
  unfold uniformTimes. rewrite InA_app_iff, InA_singleton, InA_alt.
  apply or_iff_compat_r. split.
  - intros (y & Hty & Hin). apply in_map_iff in Hin as (i & <- & Hi).
    apply in_seq in Hi. exists i. split; [lia | exact Hty].
  - intros (i & Hi & Hti). eexists. split; [exact Hti|].
    apply in_map_iff. exists i. split; [reflexivity|]. apply in_seq. lia.
Qed.

Lemma eventGrid_Sorted {M Calc} (desc : FdmSolverDesc M Calc) :
  Sorted Qlt (eventGrid desc).
Proof. unfold eventGrid. apply insertAll_Sorted, insertAll_Sorted. constructor. Qed.

Lemma eventGrid_InA {M Calc} (desc : FdmSolverDesc M Calc) (t : Time) :
  InA Qeq t (eventGrid desc)
  ↔ InA Qeq t (uniformTimes (maturity desc) (N.to_nat (timeSteps desc)))
    ∨ InA Qeq t (stoppingTimes (condition desc)).
Proof. unfold eventGrid. rewrite !insertAll_InA, InA_nil. tauto. Qed.

Lemma timeGrid_Sorted {M Calc} (desc : FdmSolverDesc M Calc) :
  StronglySorted Qlt (timeGrid desc).
Proof.
  apply Sorted_StronglySorted; [intros x y z; apply Qlt_trans|].
  unfold timeGrid. apply insertAll_Sorted, eventGrid_Sorted.
Qed.

Lemma dampingTimes_InA {M Calc} (desc : FdmSolverDesc M Calc) (t : Time) :
  InA Qeq t (dampingTimes desc)
  ↔ ∃ k : nat, (1 ≤ k ≤ N.to_nat (dampingSteps desc))%nat
      ∧ t == maturity desc - inject_Z (Z.of_nat k) * dampingStep desc.
Proof.
  unfold dampingTimes. rewrite InA_alt. split.
  - intros (y & Hty & Hin). apply list_elem_of_In, list_elem_of_fmap in Hin.
    destruct Hin as (k & -> & Hk). apply elem_of_seq in Hk.
    exists k. split; [lia | exact Hty].
  - intros (k & Hk & Ht). eexists. split; [exact Ht|].
    apply list_elem_of_In, list_elem_of_fmap. exists k.
    split; [reflexivity|]. apply elem_of_seq. lia.
Qed.

Lemma timeGrid_InA {M Calc} (desc : FdmSolverDesc M Calc) (t : Time) :
  InA Qeq t (timeGrid desc)
  ↔ InA Qeq t (uniformTimes (maturity desc) (N.to_nat (timeSteps desc)))
    ∨ InA Qeq t (stoppingTimes (condition desc))
    ∨ InA Qeq t (dampingTimes desc).
Proof. unfold timeGrid. rewrite insertAll_InA, eventGrid_InA. tauto. Qed.

Lemma timeGrid_InA_event {M Calc} (desc : FdmSolverDesc M Calc) (t : Time) :
  InA Qeq t (timeGrid desc)
  ↔ InA Qeq t (eventGrid desc) ∨ InA Qeq t (dampingTimes desc).
Proof. unfold timeGrid. rewrite insertAll_InA. tauto. Qed.

(** *** The times below the maturity *)

Lemma filter_InA (f : Time → bool) (l : list Time) (t : Time) :
  (∀ x y, x == y → f x = f y) →
  InA Qeq t (List.filter f l) ↔ InA Qeq t l ∧ f t = true.
Proof.
  intros Hf. rewrite !InA_alt. split.
  - intros (y & Hty & Hin). apply filter_In in Hin as [Hin Hy].
    split; [exists y; auto|]. rewrite (Hf t y Hty). exact Hy.
  - intros [(y & Hty & Hin) Ht]. exists y. split; [exact Hty|].
    apply filter_In. split; [exact Hin|]. rewrite <- (Hf t y Hty). exact Ht.
Qed.

Lemma reachedTimes_InA {M Calc} (desc : FdmSolverDesc M Calc) (t : Time) :
  InA Qeq t (reachedTimes desc)
  ↔ InA Qeq t (eventGrid desc) ∧ 0 <= t ∧ t < maturity desc.
Proof.
  unfold reachedTimes. rewrite InA_rev, filter_InA.
  - rewrite andb_true_iff, Qle_bool_iff, Fdm1dMesherFacts.Qltb_lt. tauto.
  - intros x y E. unfold Qltb. f_equal; [|f_equal].
    + destruct (Qle_bool 0 x) eqn:Ex, (Qle_bool 0 y) eqn:Ey; try reflexivity.
      * apply Qle_bool_iff in Ex. rewrite E in Ex.
        apply Qle_bool_iff in Ex. congruence.
      * apply Qle_bool_iff in Ey. rewrite <- E in Ey.
        apply Qle_bool_iff in Ey. congruence.
    + destruct (Qle_bool (maturity desc) x) eqn:Ex,
               (Qle_bool (maturity desc) y) eqn:Ey; try reflexivity.
      * apply Qle_bool_iff in Ex. rewrite E in Ex.
        apply Qle_bool_iff in Ex. congruence.
      * apply Qle_bool_iff in Ey. rewrite <- E in Ey.
        apply Qle_bool_iff in Ey. congruence.
Qed.

Lemma StronglySorted_filter_keeps {A} (R : A → A → Prop) (f : A → bool)
    (l : list A) :
  StronglySorted R l → StronglySorted R (List.filter f l).
Proof.
  induction 1 as [|a l Hl IH Ha]; simpl; [constructor|].
  destruct (f a); [|exact IH]. constructor; [exact IH|].
  rewrite List.Forall_forall in *. intros y Hy.
  apply filter_In in Hy as [Hy _]. apply Ha, Hy.
Qed.

Lemma StronglySorted_append {A} (R : A → A → Prop) (l1 l2 : list A) :
  (∀ x1 x2, In x1 l1 → In x2 l2 → R x1 x2) →
  StronglySorted R l1 → StronglySorted R l2 → StronglySorted R (l1 ++ l2).
Proof.
  intros H12 H1 H2. induction H1 as [|a l Hl IH Ha]; simpl; [exact H2|].
  constructor.
  - apply IH. intros x1 x2 Hx1. apply H12. right. exact Hx1.
  - apply List.Forall_forall. intros y Hy. apply in_app_or in Hy as [Hy | Hy].
    + rewrite List.Forall_forall in Ha. apply Ha, Hy.
    + apply H12; [left; reflexivity | exact Hy].
Qed.

Lemma StronglySorted_rev_flip {A} (R : A → A → Prop) (l : list A) :
  StronglySorted R l → StronglySorted (λ a b, R b a) (rev l).
Proof.
  induction 1 as [|a l Hl IH Ha]; simpl; [constructor|].
  apply StronglySorted_append; [|exact IH | repeat constructor].
  intros x1 x2 H1 [<- | []].
  rewrite List.Forall_forall in Ha. apply Ha. apply in_rev. exact H1.
Qed.

Lemma StronglySorted_fmap_seq {A} (R : A → A → Prop) (f : nat → A) (n : nat) :
  (∀ i j, (i < j)%nat → R (f i) (f j)) →
  ∀ a, StronglySorted R (f <$> seq a n).
Proof.
  intros Hf. induction n as [|n IH]; intros a; [constructor|].
  simpl. constructor; [apply IH|].
  apply List.Forall_forall. intros y Hy.
  apply list_elem_of_In, list_elem_of_fmap in Hy as (j & -> & Hj).
  apply elem_of_seq in Hj. apply Hf. lia.
Qed.

Lemma StronglySorted_weaken {A} (R S : A → A → Prop) (l : list A) :
  (∀ a b, R a b → S a b) → StronglySorted R l → StronglySorted S l.
Proof.
  intros HRS. induction 1 as [|a l Hl IH Ha]; constructor; [exact IH|].
  eapply List.Forall_impl; [|exact Ha]. intros b. apply HRS.
Qed.

Lemma reachedTimes_Sorted {M Calc} (desc : FdmSolverDesc M Calc) :
  StronglySorted (λ a b, b < a) (reachedTimes desc).
Proof.
  unfold reachedTimes. apply StronglySorted_rev_flip.
  apply StronglySorted_filter_keeps.
  apply Sorted_StronglySorted; [intros x y z; apply Qlt_trans|].
  apply eventGrid_Sorted.
Qed.

(** The latest time below the maturity, or the maturity when there is
    none: it is not after the maturity and not before any reached time. *)
Lemma reachedTimes_hd {M Calc} (desc : FdmSolverDesc M Calc) :
  hd (maturity desc) (reachedTimes desc) <= maturity desc
  ∧ Forall (λ r, r <= hd (maturity desc) (reachedTimes desc))
      (reachedTimes desc).
Proof.
  pose proof (reachedTimes_Sorted desc) as Hs.
  assert (Hin : ∀ t, In t (reachedTimes desc) → t < maturity desc).
  { intros t Ht.
    assert (H : InA Qeq t (reachedTimes desc))
      by (apply InA_alt; exists t; split; [reflexivity | exact Ht]).
    apply reachedTimes_InA in H. tauto. }
  destruct (reachedTimes desc) as [|r rs]; simpl.
  - split; [apply Qle_refl | constructor].
  - split; [apply Qlt_le_weak, Hin; left; reflexivity|].
    constructor; [apply Qle_refl|].
    inversion Hs as [|? ? _ Hall]; subst.
    eapply List.Forall_impl; [|exact Hall].
    intros b Hb. apply Qlt_le_weak. exact Hb.
Qed.

Lemma dampingStep_nonneg {M Calc} (desc : FdmSolverDesc M Calc) :
  0 <= dampingStep desc.
Proof.
  unfold dampingStep. destruct (reachedTimes_hd desc) as [H _].
  apply Qle_shift_div_l.
  - change 0 with (inject_Z 0). rewrite <- Zlt_Qlt. lia.
  - rewrite Qmult_0_l. unfold Qminus. apply -> Qle_minus_iff. exact H.
Qed.

(** A damping time is not after the maturity and not before the latest
    time below the maturity. *)
Lemma dampingTimes_between {M Calc} (desc : FdmSolverDesc M Calc) (k : nat) :
  (k ≤ N.to_nat (dampingSteps desc))%nat →
  let t := maturity desc - inject_Z (Z.of_nat k) * dampingStep desc in
  t <= maturity desc ∧ hd (maturity desc) (reachedTimes desc) <= t.
Proof.
  intros Hk t. pose proof (dampingStep_nonneg desc) as Hh.
  set (d := N.to_nat (dampingSteps desc)) in *.
  assert (Hk0 : 0 <= inject_Z (Z.of_nat k)).
  { change 0 with (inject_Z 0). rewrite <- Zle_Qle. lia. }
  split.
  - unfold t. apply Qle_trans with (maturity desc - 0).
    + apply Qplus_le_r, Qopp_le_compat, Qmult_le_0_compat; assumption.
    + unfold Qminus. rewrite Qplus_0_r. apply Qle_refl.
  - assert (E : hd (maturity desc) (reachedTimes desc)
                == maturity desc
                   - inject_Z (Z.of_nat (S d)) * dampingStep desc).
    { unfold dampingStep. fold d. field.
      intros E. change 0 with (inject_Z 0) in E.
      apply (proj1 (inject_Z_injective _ _)) in E. lia. }
    rewrite E. unfold t. apply Qplus_le_r, Qopp_le_compat.
    apply Qmult_le_compat_r; [|exact Hh]. rewrite <- Zle_Qle. lia.
Qed.

(** *** The walk and the plan *)

Lemma walk_length {M Calc} (desc : FdmSolverDesc M Calc) :
  length (walk desc)
  = S (N.to_nat (dampingSteps desc) + length (reachedTimes desc)).
Proof.
  unfold walk, dampingTimes. simpl.
  rewrite length_app, length_fmap, length_seq. reflexivity.
Qed.

Lemma walk_lookup_damping {M Calc} (desc : FdmSolverDesc M Calc) (k : nat) :
  (1 ≤ k ≤ N.to_nat (dampingSteps desc))%nat →
  walk desc !! k
  = Some (maturity desc - inject_Z (Z.of_nat k) * dampingStep desc).
Proof.
  intros Hk. destruct k as [|j]; [lia|]. unfold walk, dampingTimes.
  change ((maturity desc :: ?l) !! S j) with (l !! j).
  rewrite lookup_app_l by (rewrite length_fmap, length_seq; lia).
  rewrite list_lookup_fmap, lookup_seq_lt by lia. reflexivity.
Qed.

Lemma walk_Sorted {M Calc} (desc : FdmSolverDesc M Calc) :
  StronglySorted (λ a b, b <= a) (walk desc).
Proof.
  pose proof (dampingStep_nonneg desc) as Hh.
  destruct (reachedTimes_hd desc) as [Hhd Hall].
  assert (Hdamp : ∀ y, y ∈ dampingTimes desc →
            y <= maturity desc
            ∧ hd (maturity desc) (reachedTimes desc) <= y).
  { intros y Hy. unfold dampingTimes in Hy.
    apply list_elem_of_fmap in Hy as (k & -> & Hk).
    apply elem_of_seq in Hk. apply dampingTimes_between. lia. }
  unfold walk. constructor.
  - apply StronglySorted_append.
    + intros x1 x2 H1 H2. apply Qle_trans
        with (hd (maturity desc) (reachedTimes desc)).
      * rewrite List.Forall_forall in Hall. apply Hall. exact H2.
      * apply Hdamp. apply list_elem_of_In. exact H1.
    + unfold dampingTimes. apply StronglySorted_fmap_seq.
      intros i j Hij. apply Qplus_le_r, Qopp_le_compat.
      apply Qmult_le_compat_r; [|exact Hh]. rewrite <- Zle_Qle. lia.
    + eapply StronglySorted_weaken; [|apply reachedTimes_Sorted].
      intros a b. apply Qlt_le_weak.
  - apply List.Forall_forall. intros y Hy.
    apply in_app_or in Hy as [Hy | Hy].
    + apply Hdamp. apply list_elem_of_In. exact Hy.
    + apply Qle_trans with (hd (maturity desc) (reachedTimes desc));
        [|exact Hhd].
      rewrite List.Forall_forall in Hall. apply Hall. exact Hy.
Qed.

(** The walk visits the maturity and the grid times from 0 up to the
    maturity, and nothing else. *)
Lemma walk_InA {M Calc} (desc : FdmSolverDesc M Calc) (t : Time) :
  InA Qeq t (walk desc)
  ↔ t == maturity desc
    ∨ (InA Qeq t (timeGrid desc) ∧ 0 <= t ∧ t < maturity desc).
Proof.
  unfold walk. rewrite InA_cons, InA_app_iff, reachedTimes_InA.
  rewrite timeGrid_InA_event.
  destruct (reachedTimes_hd desc) as [Hhd Hall].
  split.
  - intros [H | [H | H]]; [left; exact H | | right; tauto].
    apply dampingTimes_InA in H as Hk. destruct Hk as (k & Hk & Ht).
    destruct (dampingTimes_between desc k ltac:(lia)) as [Hle Hge].
    rewrite <- Ht in Hle, Hge.
    apply Qle_lteq in Hle. destruct Hle as [Hlt | Heq]; [|left; exact Heq].
    right. split; [right; exact H|]. split; [|exact Hlt].
    destruct (reachedTimes desc) as [|r rs] eqn:E.
    + simpl in Hge. exfalso. exact (Qlt_not_le _ _ Hlt Hge).
    + simpl in Hge. apply Qle_trans with r; [|exact Hge].
      assert (Hr : InA Qeq r (reachedTimes desc))
        by (rewrite E; left; reflexivity).
      apply reachedTimes_InA in Hr. tauto.
  - intros [H | ([H | H] & H0 & Hlt)];
      [left; exact H | right; right; tauto | right; left; exact H].
Qed.

Lemma incrementsFrom_length (d : nat) (r : FdmSchemeType) (g : list Time) :
  ∀ k0, length (incrementsFrom k0 d r g) = pred (length g).
Proof.
  induction g as [|later tl IH]; intros k0; [reflexivity|].
  destruct tl as [|earlier tl']; [reflexivity|].
  change (incrementsFrom k0 d r (later :: earlier :: tl'))
    with ({| from_ := later; to_ := earlier; scheme := schemeOfStep d r k0 |}
            :: incrementsFrom (S k0) d r (earlier :: tl')).
  simpl length in *. rewrite IH. reflexivity.
Qed.

Lemma incrementsFrom_lookup (d : nat) (r : FdmSchemeType) (g : list Time) :
  ∀ k0 j inc,
  incrementsFrom k0 d r g !! j = Some inc →
  g !! j = Some (from_ inc) ∧ g !! S j = Some (to_ inc)
  ∧ scheme inc = schemeOfStep d r (k0 + j).
Proof.
  induction g as [|later tl IH]; intros k0 j inc H; [discriminate|].
  destruct tl as [|earlier tl']; [discriminate|].
  change (incrementsFrom k0 d r (later :: earlier :: tl'))
    with ({| from_ := later; to_ := earlier; scheme := schemeOfStep d r k0 |}
            :: incrementsFrom (S k0) d r (earlier :: tl')) in H.
  destruct j as [|j].
  - simpl in H. injection H as <-. simpl. rewrite Nat.add_0_r. auto.
  - simpl in H. apply IH in H as (H1 & H2 & H3).
    rewrite H3. replace (S k0 + j)%nat with (k0 + S j)%nat by lia. auto.
Qed.

Lemma plan_lookup {M Calc} (desc : FdmSolverDesc M Calc)
    (requested : FdmSchemeType) (k : nat) (inc : Increment) :
  plan desc requested !! k = Some inc →
  walk desc !! k = Some (from_ inc)
  ∧ walk desc !! S k = Some (to_ inc)
  ∧ scheme inc =
      if (k <? N.to_nat (dampingSteps desc))%nat
      then ImplicitEulerType else requested.
Proof. unfold plan. intros H. apply incrementsFrom_lookup in H. exact H. Qed.

Lemma plan_length {M Calc} (desc : FdmSolverDesc M Calc)
    (requested : FdmSchemeType) :
  length (plan desc requested)
  = (N.to_nat (dampingSteps desc) + length (reachedTimes desc))%nat.
Proof. unfold plan. rewrite incrementsFrom_length, walk_length. reflexivity. Qed.

Example plan_with_trigger :
  plan sampleDescTrigger DouglasType =
    [ {| from_ := 3 # 2; to_ := 60 # 48; scheme := ImplicitEulerType |};
      {| from_ := 60 # 48; to_ := 6 # 6; scheme := DouglasType |};
      {| from_ := 6 # 6; to_ := 3 # 4; scheme := DouglasType |};
      {| from_ := 3 # 4; to_ := 3 # 6; scheme := DouglasType |};
      {| from_ := 3 # 6; to_ := 0 # 6; scheme := DouglasType |} ].
Proof. vm_compute. reflexivity. Qed.

Example plan_with_more_damping_than_steps :
  scheme <$> plan sampleDescDamping DouglasType
  = [ImplicitEulerType; ImplicitEulerType; ImplicitEulerType; DouglasType]
  ∧ Forall2 Qeq (walk sampleDescDamping) [1; 3 # 4; 1 # 2; 1 # 4; 0].
Proof. split; [reflexivity | repeat constructor]. Qed.

Example plan_with_late_trigger :
  InA Qeq 5 (timeGrid sampleDescLate)
  ∧ walk sampleDescLate = walk sampleDescDamping.
Proof.
  split; [|reflexivity].
  apply timeGrid_InA. right. left. vm_compute. left. reflexivity.
Qed.

(** C6. The time grid of a solve is strictly ascending and holds exactly the
    uniform sampling of [[0, maturity]] at the requested step count, every
    trigger time of the composite, and the ends of the initial run of
    damping steps.  The solve starts at the maturity and walks down the grid
    times from there to time 0, one increment per pair of neighbouring
    times: the walk never goes up, and after the damping run it goes
    strictly down.  Its first increments, as many as the configured number
    of damping steps, are performed with Implicit Euler, each of the length
    of a damping step; every later increment is performed with the
    requested scheme. *)
Theorem solver_time_grid_and_damping {M Calc : Type}
    (desc : FdmSolverDesc M Calc) (requested : FdmSchemeType) :
  let g := timeGrid desc in
  let w := walk desc in
  let p := plan desc requested in
  let T := maturity desc in
  let steps := N.to_nat (timeSteps desc) in
  let d := N.to_nat (dampingSteps desc) in
  let h := dampingStep desc in
  StronglySorted Qlt g
  ∧ (∀ t, InA Qeq t g ↔
       ((∃ i : nat, (i < steps)%nat
           ∧ t == inject_Z (Z.of_nat i) * T / inject_Z (Z.of_nat steps))
        ∨ t == T)
       ∨ InA Qeq t (stoppingTimes (condition desc))
       ∨ (∃ k : nat, (1 ≤ k ≤ d)%nat ∧ t == T - inject_Z (Z.of_nat k) * h))
  ∧ (w !! 0%nat = Some T
     ∧ StronglySorted (λ a b, b <= a) w
     ∧ StronglySorted (λ a b, b < a) (drop (S d) w)
     ∧ ∀ t, InA Qeq t w ↔ t == T ∨ (InA Qeq t g ∧ 0 <= t ∧ t < T))
  ∧ (S (length p) = length w ∧ (d ≤ length p)%nat)
  ∧ (∀ k inc, p !! k = Some inc →
       w !! k = Some (from_ inc) ∧ w !! S k = Some (to_ inc)
       ∧ scheme inc = if (k <? d)%nat then ImplicitEulerType else requested)
  ∧ (∀ k, (k < d)%nat →
       ∃ inc, p !! k = Some inc ∧ scheme inc = ImplicitEulerType
              ∧ from_ inc == T - inject_Z (Z.of_nat k) * h
              ∧ to_ inc == T - inject_Z (Z.of_nat (S k)) * h).
Proof.
  intros g w p T steps d h.
  split; [apply timeGrid_Sorted|]. split; [|split; [|split; [|split]]].
  - intros t. unfold g.
    rewrite timeGrid_InA, uniformTimes_InA, dampingTimes_InA. reflexivity.
  - split; [reflexivity|]. split; [apply walk_Sorted|].
    split; [|apply walk_InA].
    unfold w, walk. rewrite skipn_cons, drop_app_length'
      by (unfold dampingTimes; rewrite length_fmap, length_seq; reflexivity).
    apply reachedTimes_Sorted.
  - unfold p, w. rewrite plan_length, walk_length. split; [reflexivity | lia].
  - intros k inc. apply plan_lookup.
  - intros k Hk.
    destruct (lookup_lt_is_Some_2 p k) as [inc E].
    { unfold p. rewrite plan_length. fold d. lia. }
    exists inc. split; [exact E|].
    apply plan_lookup in E as (Hfrom & Hto & ->).
    apply Nat.ltb_lt in Hk as Hb. fold d. rewrite Hb.
    split; [reflexivity|].
    rewrite walk_lookup_damping in Hto by (fold d; lia).
    injection Hto as <-. split; [|reflexivity].
    destruct k as [|j].
    + simpl in Hfrom. injection Hfrom as <-. unfold T. simpl. ring.
    + rewrite walk_lookup_damping in Hfrom by (fold d; lia).
      injection Hfrom as <-. reflexivity.
Qed.

Lemma solver_time_grid_and_damping_witness :
  InA Qeq (3 # 4) (timeGrid sampleDescTrigger)
  ∧ InA Qeq (1 # 2) (timeGrid sampleDescTrigger)
  ∧ InA Qeq (5 # 4) (timeGrid sampleDescTrigger)
  ∧ length (plan sampleDescTrigger DouglasType) = 5%nat
  ∧ ∃ inc, plan sampleDescTrigger DouglasType !! 0%nat = Some inc
           ∧ scheme inc = ImplicitEulerType
           ∧ to_ inc == 5 # 4.
Proof.
  destruct (solver_time_grid_and_damping sampleDescTrigger DouglasType)
    as (_ & Hin & _ & (Hlen & _) & _ & Hdamp).
  split; [|split; [|split; [|split]]].
  - apply Hin. right. left. vm_compute. left. reflexivity.
  - apply Hin. left. left. exists 1%nat.
    split; [vm_compute; lia | reflexivity].
  - apply Hin. right. right. exists 1%nat.
    split; [vm_compute; lia | reflexivity].
  - apply eq_add_S. rewrite Hlen. reflexivity.
  - destruct (Hdamp 0%nat ltac:(vm_compute; lia)) as (inc & E & Hs & _ & Ht).
    exists inc. split; [exact E|]. split; [exact Hs|].
    rewrite Ht. reflexivity.
Defined.

(** *** The solves set up by the engines *)

(** In the solve of the Heston rebate engine the increments before the
    engine's [dampingSteps_] use Implicit Euler, the others the engine's
    scheme. *)
Lemma rebate_engine_damping (M Calc : Type) (mesher_ : M) (calculator_ : Calc)
    (conditions : FdmStepConditionComposite.t) (maturity_ : Time)
    (tGrid_ dampingSteps_ : Size) (schemeDesc_ : FdmSchemeType)
    (a : FdHestonRebateEngine.arguments) (desc : FdmSolverDesc M Calc)
    (k : nat) (inc : Increment) :
  FdHestonRebateEngine.calculate_solverDesc M Calc mesher_ calculator_
    conditions maturity_ tGrid_ dampingSteps_ a = inr desc →
  plan desc schemeDesc_ !! k = Some inc →
  scheme inc =
    if (k <? N.to_nat dampingSteps_)%nat then ImplicitEulerType
    else schemeDesc_.
Proof.
  unfold FdHestonRebateEngine.calculate_solverDesc. intros H Hk.
  destruct (negb _); [discriminate|].
  injection H as <-. apply plan_lookup in Hk as (_ & _ & ->). reflexivity.
Qed.

(** The same for the Hull-White swaption engine. *)
Lemma swaption_engine_damping (Date DayCounter M Calc : Type)
    (yearFraction : Date → Time)
    (dayCounter_eqb : DayCounter → DayCounter → bool)
    (date_eqb : Date → Date → bool) (mesher_ : M) (calculator_ : Calc)
    (conditions : FdmStepConditionComposite.t) (maturity_ : Time)
    (tGrid_ dampingSteps_ : Size) (schemeDesc_ : FdmSchemeType)
    (a : FdHullWhiteSwaptionEngine.arguments Date DayCounter)
    (desc : FdmSolverDesc M Calc) (k : nat) (inc : Increment) :
  FdHullWhiteSwaptionEngine.calculate_solverDesc Date DayCounter M Calc
    yearFraction dayCounter_eqb date_eqb mesher_ calculator_ conditions
    maturity_ tGrid_ dampingSteps_ a = inr desc →
  plan desc schemeDesc_ !! k = Some inc →
  bcSet desc = []
  ∧ scheme inc =
      if (k <? N.to_nat dampingSteps_)%nat then ImplicitEulerType
      else schemeDesc_.
Proof.
  unfold FdHullWhiteSwaptionEngine.calculate_solverDesc. intros H Hk.
  destruct (FdHullWhiteSwaptionEngine.checkExerciseDates _ _ _);
    [discriminate|].
  destruct (negb _); [discriminate|]. destruct (negb _); [discriminate|].
  injection H as <-. apply plan_lookup in Hk as (_ & _ & ->). auto.
Qed.

(** The storage engine asks for no damping: every increment of its solve
    uses the engine's scheme. *)
Lemma storage_engine_no_damping (Date M Calc : Type)
    (yearFraction : Date → Time)
    (FdmSimpleStorageCondition : list Time → StepCondition)
    (mesher_ : M) (storageCalculator : Calc) (maturity_ : Time)
    (tGrid_ : Size) (schemeDesc_ : FdmSchemeType)
    (a : FdSimpleExtOUStorageEngine.arguments Date)
    (desc : FdmSolverDesc M Calc) (k : nat) (inc : Increment) :
  FdSimpleExtOUStorageEngine.calculate_solverDesc Date M Calc yearFraction
    FdmSimpleStorageCondition mesher_ storageCalculator maturity_ tGrid_ a
    = inr desc →
  plan desc schemeDesc_ !! k = Some inc →
  scheme inc = schemeDesc_.
Proof.
  unfold FdSimpleExtOUStorageEngine.calculate_solverDesc. intros H Hk.
  destruct (negb _); [discriminate|].
  destruct (FdSimpleExtOUStorageEngine.exerciseTimes _ _ _); [discriminate|].
  injection H as <-. apply plan_lookup in Hk as (_ & _ & ->). reflexivity.
Qed.

Section Evolution.
Variable step : Increment → Array → SolverError + Array.
Variable conditions : FdmStepConditionComposite.t.

(** A failing run stops at the first increment whose step fails: the log is
    the plan up to and including it, and the error is that step's error. *)
Lemma run_failure (p : list Increment) : ∀ (a : Array) e log,
  run step conditions p a = (inl e, log) →
  ∃ (k : nat) (inc : Increment) (a' : Array),
    p !! k = Some inc
    ∧ log = take (S k) p
    ∧ run step conditions (take k p) a = (inr a', take k p)
    ∧ step inc a' = inl e.
Proof.
  induction p as [|inc rest IH]; intros a e log H; simpl in H; [discriminate|].
  destruct (step inc a) as [e0|a1] eqn:Hstep.
  - injection H as <- <-. exists 0%nat, inc, a. auto.
  - destruct (run step conditions rest (applyTo conditions a1 (to_ inc)))
      as [r log'] eqn:Hrun.
    injection H as -> <-.
    apply IH in Hrun as (k & inc' & a' & Hk & Hlog & Hpre & Hfail).
    exists (S k), inc', a'. split; [exact Hk|]. split; [simpl; congruence|].
    split; [|exact Hfail].
    change (take (S k) (inc :: rest)) with (inc :: take k rest).
    simpl. rewrite Hstep, Hpre. reflexivity.
Qed.

(** A run in which every step succeeds invokes the scheme once on every
    increment of the plan. *)
Lemma run_success (p : list Increment) : ∀ (a a' : Array) log,
  run step conditions p a = (inr a', log) → log = p.
Proof.
  induction p as [|inc rest IH]; intros a a' log H; simpl in H.
  - injection H as _ <-. reflexivity.
  - destruct (step inc a) as [e0|a1]; [discriminate|].
    destruct (run step conditions rest (applyTo conditions a1 (to_ inc)))
      as [r log'] eqn:Hrun.
    injection H as -> <-. f_equal. eapply IH. exact Hrun.
Qed.

End Evolution.



End FdmSolverFacts.

(** ** fokkerPlanckPrice1D: the start density *)

Module FokkerPlanckPrice1DFacts.
Import FokkerPlanckPrice1D.

Lemma Size_sub_small (a b : Size) :
  (b ≤ a)%N → (a < 2 ^ 64)%N → Size_sub a b = (a - b)%N.
Proof.
  intros Hb Ha. unfold Size_sub.
  replace (a + 2 ^ 64 - b)%N with ((a - b) + 1 * 2 ^ 64)%N by lia.
  rewrite N.Div0.mod_add. apply N.mod_small. lia.
Qed.

Lemma at_of_nat {A} (d : A) (v : list A) (i : nat) :
  at_ d v (N.of_nat i) = default d (v !! i).
Proof. unfold at_. rewrite Nat2N.id. reflexivity. Qed.

Lemma at_lookup {A} (d : A) (v : list A) (i : nat) (a : A) :
  v !! i = Some a → at_ d v (N.of_nat i) = a.
Proof. intros H. rewrite at_of_nat, H. reflexivity. Qed.

Lemma StronglySorted_lookup_lt (x : list Real) :
  StronglySorted Qlt x → ∀ i j a b,
  (i < j)%nat → x !! i = Some a → x !! j = Some b → a < b.
Proof.
  induction 1 as [|h t Ht IH Hall]; intros i j a b Hij Ha Hb; [discriminate|].
  destruct j as [|j]; [exfalso; clear -Hij; lia|]. simpl in Hb.
  destruct i as [|i]; simpl in Ha.
  - injection Ha as <-. rewrite List.Forall_forall in Hall. apply Hall.
    apply list_elem_of_In. eapply list_elem_of_lookup_2. exact Hb.
  - apply (IH i j); [clear -Hij; lia | exact Ha | exact Hb].
Qed.

(** On strictly increasing locations the reads are strictly increasing. *)
Lemma at_increasing (x : list Real) (i j : nat) :
  Sorted Qlt x → (i < j)%nat → (j < length x)%nat →
  at_ 0 x (N.of_nat i) < at_ 0 x (N.of_nat j).
Proof.
  intros Hs Hij Hj.
  assert (Hss : StronglySorted Qlt x).
  { apply Sorted_StronglySorted; [intros a b c; apply Qlt_trans | exact Hs]. }
  destruct (x !! i) as [a|] eqn:Ha.
  2:{ apply lookup_ge_None in Ha. exfalso. clear -Ha Hij Hj. lia. }
  destruct (x !! j) as [b|] eqn:Hb.
  2:{ apply lookup_ge_None in Hb. exfalso. clear -Hb Hj. lia. }
  rewrite (at_lookup 0 x i a Ha), (at_lookup 0 x j b Hb).
  exact (StronglySorted_lookup_lt x Hss i j a b Hij Ha Hb).
Qed.

Lemma upper_bound_le_length (x : list Real) (x0 : Real) :
  (upper_bound x x0 ≤ length x)%nat.
Proof.
  induction x as [|a tl IH]; simpl; [lia|].
  destruct (Qltb x0 a); simpl; lia.
Qed.

(** Everything before the upper bound is at most [x0]. *)
Lemma upper_bound_before (x : list Real) (x0 : Real) : ∀ i,
  (i < upper_bound x x0)%nat → at_ 0 x (N.of_nat i) <= x0.
Proof.
  induction x as [|a tl IH]; intros i Hi; simpl in Hi;
    [exfalso; clear -Hi; lia|].
  destruct (Qltb x0 a) eqn:E; [exfalso; clear -Hi; lia|].
  destruct i as [|i].
  - rewrite at_of_nat. simpl. apply Qnot_lt_le. intros Hlt.
    apply Fdm1dMesherFacts.Qltb_lt in Hlt. congruence.
  - rewrite at_of_nat. simpl. rewrite <- at_of_nat. apply IH.
    clear -Hi. lia.
Qed.

(** The element at the upper bound, when there is one, is above [x0]. *)
Lemma upper_bound_at (x : list Real) (x0 : Real) :
  (upper_bound x x0 < length x)%nat →
  x0 < at_ 0 x (N.of_nat (upper_bound x x0)).
Proof.
  induction x as [|a tl IH]; simpl; intros H; [exfalso; clear -H; lia|].
  destruct (Qltb x0 a) eqn:E.
  - rewrite at_of_nat. simpl. apply Fdm1dMesherFacts.Qltb_lt. exact E.
  - rewrite at_of_nat. simpl. rewrite <- at_of_nat. apply IH.
    clear -H. lia.
Qed.

Lemma Qsum_zero (g : nat → Real) (l : list nat) :
  (∀ i, In i l → g i == 0) → Qsum (map g l) == 0.
Proof.
  induction l as [|i l IH]; intros H; simpl; [reflexivity|].
  rewrite (H i (or_introl eq_refl)), IH; [ring|].
  intros j Hj. apply H. right. exact Hj.
Qed.

(** A sum over an index range of terms that vanish except at one index. *)
Lemma Qsum_single (g : nat → Real) (j : nat) : ∀ k a,
  (a ≤ j)%nat → (j < a + k)%nat →
  (∀ i, (a ≤ i)%nat → i ≠ j → g i == 0) →
  Qsum (map g (seq a k)) == g j.
Proof.
  induction k as [|k IH]; intros a Ha Hj Hz; [exfalso; clear -Ha Hj; lia|].
  simpl. destruct (Nat.eq_dec a j) as [->|Hne].
  - rewrite Qsum_zero; [ring|].
    intros i Hi. apply in_seq in Hi. apply Hz; clear -Hi; lia.
  - rewrite (Hz a (Nat.le_refl a) Hne), IH;
      [ring | clear -Ha Hne; lia | clear -Hj; lia|].
    intros i Hi. apply Hz. clear -Hi. lia.
Qed.

(** The same with two exceptional indices. *)
Lemma Qsum_two (g : nat → Real) (j1 j2 : nat) : ∀ k a,
  (a ≤ j1)%nat → (j1 < j2)%nat → (j2 < a + k)%nat →
  (∀ i, i ≠ j1 → i ≠ j2 → g i == 0) →
  Qsum (map g (seq a k)) == g j1 + g j2.
Proof.
  induction k as [|k IH]; intros a Ha H12 Hj Hz;
    [exfalso; clear -Ha H12 Hj; lia|].
  simpl. destruct (Nat.eq_dec a j1) as [->|Hne].
  - rewrite (Qsum_single g j2);
      [reflexivity | clear -H12; lia | clear -Hj; lia |].
    intros i Hi Hi2. apply Hz; [clear -Hi; lia | exact Hi2].
  - rewrite (Hz a); [|exact Hne | clear -Ha H12 Hne; lia].
    rewrite IH; [ring | clear -Ha Hne; lia | exact H12 | clear -Hj; lia|].
    exact Hz.
Qed.

(** Weighted sums of an array that is zero except at one or two indices. *)
Lemma weighted_one (c : nat → Real) (n j : nat) (v : Real) (a k : nat) :
  (j < n)%nat → (a ≤ j)%nat → (j < a + k)%nat →
  Qsum (map (λ i, at_ 0 (assign (replicate n 0) (N.of_nat j) v) (N.of_nat i)
                  * c i) (seq a k))
  == v * c j.
Proof.
  intros Hj Ha Hk.
  rewrite (Qsum_single _ j k a Ha Hk).
  - rewrite at_assign_eq; [reflexivity|].
    rewrite length_replicate, Nat2N.id. exact Hj.
  - intros i _ Hi. rewrite at_assign_ne, at_replicate; [ring|].
    intros E. apply Nat2N.inj in E. congruence.
Qed.

Lemma weighted_two (c : nat → Real) (n j1 j2 : nat) (v1 v2 : Real)
    (a k : nat) :
  (j1 < j2)%nat → (j2 < n)%nat → (a ≤ j1)%nat → (j2 < a + k)%nat →
  Qsum (map (λ i, at_ 0 (assign (assign (replicate n 0) (N.of_nat j1) v1)
                           (N.of_nat j2) v2) (N.of_nat i)
                  * c i) (seq a k))
  == v1 * c j1 + v2 * c j2.
Proof.
  intros H12 Hj Ha Hk.
  rewrite (Qsum_two _ j1 j2 k a Ha H12 Hk).
  - rewrite at_assign_ne, !at_assign_eq; [reflexivity | |  |].
    + rewrite length_assign, length_replicate, Nat2N.id. exact Hj.
    + rewrite length_replicate, Nat2N.id. clear -H12 Hj. lia.
    + intros E. apply Nat2N.inj in E. clear -E H12. lia.
  - intros i Hi1 Hi2. rewrite !at_assign_ne, at_replicate; [ring | |].
    + intros E. apply Nat2N.inj in E. congruence.
    + intros E. apply Nat2N.inj in E. congruence.
Qed.

Lemma Qdiv_nonneg (a b : Q) : 0 <= a → 0 <= b → 0 <= a / b.
Proof.
  intros Ha Hb. unfold Qdiv. apply Qmult_le_0_compat; [exact Ha|].
  apply Qinv_le_0_compat. exact Hb.
Qed.

(** The cell of an interior point of strictly increasing locations has a
    positive width. *)
Lemma cellWidth_positive (x : Array) (i : nat) :
  Sorted Qlt x → (1 ≤ i)%nat → (S i < length x)%nat → 0 < cellWidth x i.
Proof.
  intros Hs H1 Hi. unfold cellWidth.
  assert (H : at_ 0 x (N.of_nat (pred i)) < at_ 0 x (N.of_nat (S i))).
  { apply at_increasing; [exact Hs | clear -H1; lia | exact Hi]. }
  apply Qlt_shift_div_l; [reflexivity|]. rewrite Qmult_0_l.
  unfold Qminus. apply -> Qlt_minus_iff. exact H.
Qed.

Section Density.
Variable close_enough : Real → Real → bool.

(** What a successful run has checked and which array it returns, with the
    unsigned index arithmetic resolved. *)
Lemma initialDensity_inv (x : Array) (x0 : Real) (p : Array) :
  Sorted Qlt x → (N.of_nat (length x) < 2 ^ 64)%N →
  initialDensity close_enough x x0 = inr p →
  let n := length x in
  let u := upper_bound x x0 in
  let X := λ i : nat, at_ 0 x (N.of_nat i) in
  let Z := replicate n (0 : Real) in
  (3 < n)%nat ∧ (2 ≤ u)%nat ∧ (u < n)%nat
  ∧ X (u - 1)%nat <= x0 ∧ x0 < X u ∧ x0 <= X (n - 2)%nat
  ∧ ((close_enough (X u) x0 = true
      ∧ p = assign Z (N.of_nat u) (1 / cellWidth x u))
     ∨ (close_enough (X u) x0 = false
        ∧ close_enough (X (u - 1)%nat) x0 = true
        ∧ p = assign Z (N.of_nat (u - 1)) (1 / cellWidth x (u - 1)))
     ∨ (close_enough (X u) x0 = false
        ∧ close_enough (X (u - 1)%nat) x0 = false
        ∧ p = assign
                (assign Z (N.of_nat (u - 1))
                   ((X u - x0) / (X u - X (u - 1)%nat) / cellWidth x (u - 1)))
                (N.of_nat u)
                ((x0 - X (u - 1)%nat) / (X u - X (u - 1)%nat)
                 / cellWidth x u))).
Proof.
  intros Hs Hsize H n u X Z. unfold initialDensity in H.
  destruct (_ && _) eqn:Hreq in H; simpl in H; [|discriminate].
  apply andb_true_iff in Hreq as [Hreq H2].
  apply andb_true_iff in Hreq as [H3 H1].
  apply N.ltb_lt in H3. apply Qle_bool_iff in H1, H2.
  assert (Hn : (3 < n)%nat) by (unfold n; clear -H3; lia).
  rewrite Size_sub_small in H2 by (clear -H3 Hsize; lia).
  replace (N.of_nat (length x) - 2)%N with (N.of_nat (n - 2))
    in H2 by (unfold n; clear -H3; lia).
  change 1%N with (N.of_nat 1) in H1. fold (X 1%nat) in H1.
  fold (X (n - 2)%nat) in H2.
  pose proof (upper_bound_le_length x x0) as Hule. fold u n in Hule.
  assert (Hu2 : (2 ≤ u)%nat).
  { destruct (Nat.le_gt_cases 2%nat u) as [|Hlt]; [assumption|]. exfalso.
    assert (Hun : (u < length x)%nat) by (fold n; clear -Hlt Hn; lia).
    pose proof (upper_bound_at x x0 Hun) as Hgt. fold u in Hgt.
    assert (Hle : at_ 0 x (N.of_nat u) <= X 1%nat).
    { destruct (Nat.eq_dec u 1%nat) as [E|Hne]; [rewrite E; apply Qle_refl|].
      apply Qlt_le_weak. apply at_increasing;
        [exact Hs | clear -Hlt Hne; lia | fold n; clear -Hn; lia]. }
    apply (Qlt_irrefl x0).
    eapply Qlt_le_trans; [exact Hgt|]. eapply Qle_trans; eassumption. }
  assert (Hun : (u < n)%nat).
  { destruct (Nat.eq_dec u n) as [E|E]; [|clear -Hule E; lia]. exfalso.
    assert (Hb : X (n - 1)%nat <= x0).
    { apply upper_bound_before. fold u. clear -E Hn. lia. }
    assert (Hi : X (n - 2)%nat < X (n - 1)%nat).
    { apply at_increasing; [exact Hs | clear -Hn; lia | fold n; clear -Hn; lia]. }
    apply (Qlt_irrefl x0).
    eapply Qle_lt_trans; [exact H2|]. eapply Qlt_le_trans; eassumption. }
  assert (Hbefore : X (u - 1)%nat <= x0).
  { apply upper_bound_before. fold u. clear -Hu2. lia. }
  assert (Hat : x0 < X u) by (apply upper_bound_at; exact Hun).
  assert (E1 : Size_sub (N.of_nat u) 1 = N.of_nat (u - 1)).
  { rewrite Size_sub_small; [clear -Hu2; lia | clear -Hu2; lia|].
    fold n in Hsize. clear -Hun Hsize. lia. }
  assert (E2 : Size_sub (N.of_nat (u - 1)) 1 = N.of_nat (u - 1 - 1)).
  { rewrite Size_sub_small; [clear -Hu2; lia | clear -Hu2; lia|].
    fold n in Hsize. clear -Hun Hsize. lia. }
  assert (E3 : (N.of_nat u + 1)%N = N.of_nat (S u)) by (clear; lia).
  assert (E4 : (N.of_nat (u - 1) + 1)%N = N.of_nat (S (u - 1)))
    by (clear; lia).
  fold u in H. rewrite !E1, !E2, !E3, !E4 in H. fold n in H.
  repeat split; try assumption.
  unfold cellWidth, X, Z. rewrite <- !Nat.sub_1_r.
  destruct (close_enough (at_ 0 x (N.of_nat u)) x0).
  - left. injection H as <-. auto.
  - destruct (close_enough (at_ 0 x (N.of_nat (u - 1))) x0).
    + right. left. injection H as <-. auto.
    + right. right. injection H as <-. auto.
Qed.

(** When the last location is not close to [x0], the index that carries
    the upper part of the density is an interior one. *)
Lemma initialDensity_interior (x : Array) (x0 : Real) (p : Array) :
  Sorted Qlt x → (N.of_nat (length x) < 2 ^ 64)%N →
  (∀ a b, a == b → close_enough a b = true) →
  close_enough (at_ 0 x (N.of_nat (length x - 1))) x0 = false →
  initialDensity close_enough x x0 = inr p →
  close_enough (at_ 0 x (N.of_nat (upper_bound x x0 - 1))) x0 = true
  ∨ (S (upper_bound x x0) < length x)%nat.
Proof.
  intros Hs Hsize Hrefl Hlast H.
  destruct (initialDensity_inv x x0 p Hs Hsize H)
    as (Hn & Hu2 & Hun & Hbefore & Hat & H2 & Hcases).
  set (u := upper_bound x x0) in *. set (n := length x) in *.
  destruct (Nat.eq_dec u (n - 1)%nat) as [E|E];
    [|right; clear -E Hun; lia].
  left. apply Hrefl. apply Qle_antisym; [exact Hbefore|].
  replace (u - 1)%nat with (n - 2)%nat by (clear -E; lia). exact H2.
Qed.

End Density.

Ltac nonzero :=
  let E := fresh in
  intros E;
  match goal with
  | H : 0 < _ |- _ => apply (Qlt_not_eq _ _ H); symmetry; exact E
  end.

(** The array that [fokkerPlanckPrice1D] takes for the Dirac density at [x0]
    has unit mass with respect to the cell widths [(x[i+1]-x[i-1])/2]: on
    strictly increasing locations, when the last location is not close to
    [x0], it has the size of the mesh, no negative entry, vanishes at both
    ends of the mesh, and its weighted sum over the interior points is 1. *)
Theorem initialDensity_unit_mass (close_enough : Real → Real → bool)
    (x : Array) (x0 : Real) (p : Array) :
  Sorted Qlt x → (N.of_nat (length x) < 2 ^ 64)%N →
  (∀ a b, a == b → close_enough a b = true) →
  close_enough (at_ 0 x (N.of_nat (length x - 1))) x0 = false →
  initialDensity close_enough x x0 = inr p →
  length p = length x
  ∧ mass x p == 1
  ∧ Forall (λ v, 0 <= v) p
  ∧ at_ 0 p 0%N == 0
  ∧ at_ 0 p (N.of_nat (length x - 1)) == 0.
Proof.
  intros Hs Hsize Hrefl Hlast H.
  pose proof (initialDensity_interior close_enough x x0 p Hs Hsize Hrefl
                Hlast H) as Hint.
  destruct (initialDensity_inv close_enough x x0 p Hs Hsize H)
    as (Hn & Hu2 & Hun & Hbefore & Hat & H2 & Hcases).
  set (u := upper_bound x x0) in *. set (n := length x) in *.
  set (X := λ i : nat, at_ 0 x (N.of_nat i)) in *.
  assert (Hwl : 0 < cellWidth x (u - 1)).
  { apply cellWidth_positive; [exact Hs | clear -Hu2; lia|].
    fold n. clear -Hu2 Hun. lia. }
  assert (Hd : 0 < X u - X (u - 1)%nat).
  { unfold Qminus. apply -> Qlt_minus_iff.
    eapply Qle_lt_trans; [exact Hbefore | exact Hat]. }
  assert (Hz0 : (0%N : Size) = N.of_nat 0) by reflexivity.
  destruct Hcases as [(Hc & ->) | [(Hc1 & Hc2 & ->) | (Hc1 & Hc2 & ->)]].
  - (* the upper neighbour is close to x0 *)
    assert (Hu : (S u < n)%nat).
    { destruct Hint as [Hint|Hint]; [|exact Hint].
      destruct (Nat.eq_dec u (n - 1)%nat) as [E|E]; [|clear -E Hun; lia].
      rewrite E in Hc. unfold X in Hc. congruence. }
    assert (Hw : 0 < cellWidth x u).
    { apply cellWidth_positive; [exact Hs | clear -Hu2; lia | exact Hu]. }
    split; [rewrite length_assign; apply length_replicate|].
    split; [|split; [|split]].
    + unfold mass. fold n.
      rewrite weighted_one; [|exact Hun | clear -Hu2; lia | clear -Hu; lia].
      field. nonzero.
    + apply Forall_insert; [apply Forall_replicate; apply Qle_refl|].
      apply Qdiv_nonneg; [discriminate | apply Qlt_le_weak; exact Hw].
    + rewrite Hz0, at_assign_ne, at_replicate; [reflexivity|].
      intros E. apply Nat2N.inj in E. clear -E Hu2. lia.
    + rewrite at_assign_ne, at_replicate; [reflexivity|].
      intros E. apply Nat2N.inj in E. clear -E Hu. lia.
  - (* the lower neighbour is close to x0 *)
    split; [rewrite length_assign; apply length_replicate|].
    split; [|split; [|split]].
    + unfold mass. fold n.
      rewrite weighted_one;
        [|clear -Hun; lia | clear -Hu2; lia | clear -Hun Hn; lia].
      field. nonzero.
    + apply Forall_insert; [apply Forall_replicate; apply Qle_refl|].
      apply Qdiv_nonneg; [discriminate | apply Qlt_le_weak; exact Hwl].
    + rewrite Hz0, at_assign_ne, at_replicate; [reflexivity|].
      intros E. apply Nat2N.inj in E. clear -E Hu2. lia.
    + rewrite at_assign_ne, at_replicate; [reflexivity|].
      intros E. apply Nat2N.inj in E. clear -E Hun Hn. lia.
  - (* x0 lies strictly between two locations that are not close to it *)
    assert (Hu : (S u < n)%nat).
    { destruct Hint as [Hint|Hint]; [|exact Hint].
      unfold X in Hc2. congruence. }
    assert (Hw : 0 < cellWidth x u).
    { apply cellWidth_positive; [exact Hs | clear -Hu2; lia | exact Hu]. }
    split; [rewrite !length_assign; apply length_replicate|].
    split; [|split; [|split]].
    + unfold mass. fold n.
      rewrite weighted_two;
        [|clear -Hu2; lia | exact Hun | clear -Hu2; lia | clear -Hu; lia].
      field. repeat split; nonzero.
    + apply Forall_insert; [apply Forall_insert|].
      * apply Forall_replicate. apply Qle_refl.
      * apply Qdiv_nonneg; [|apply Qlt_le_weak; exact Hwl].
        apply Qdiv_nonneg; [|apply Qlt_le_weak; exact Hd].
        unfold Qminus. apply -> Qle_minus_iff. apply Qlt_le_weak. exact Hat.
      * apply Qdiv_nonneg; [|apply Qlt_le_weak; exact Hw].
        apply Qdiv_nonneg; [|apply Qlt_le_weak; exact Hd].
        unfold Qminus. apply -> Qle_minus_iff. exact Hbefore.
    + rewrite Hz0, !at_assign_ne, at_replicate; [reflexivity | |];
        intros E; apply Nat2N.inj in E; clear -E Hu2; lia.
    + rewrite !at_assign_ne, at_replicate; [reflexivity | |];
        intros E; apply Nat2N.inj in E; clear -E Hu Hun; lia.
Qed.

Lemma initialDensity_unit_mass_witness :
  length [0; 0; 2 # 6; 2 # 6; 0] = length sampleLocations
  ∧ mass sampleLocations [0; 0; 2 # 6; 2 # 6; 0] == 1
  ∧ Forall (λ v, 0 <= v) [0; 0; 2 # 6; 2 # 6; 0]
  ∧ at_ 0 [0; 0; 2 # 6; 2 # 6; 0] 0%N == 0
  ∧ at_ 0 [0; 0; 2 # 6; 2 # 6; 0] (N.of_nat (length sampleLocations - 1)) == 0.
Proof.
  apply (initialDensity_unit_mass sampleClose sampleLocations 3).
  - repeat constructor.
  - reflexivity.
  - intros a b E. apply Qeq_bool_iff. exact E.
  - reflexivity.
  - reflexivity.
Defined.

(** The first moment of the start density of [fokkerPlanckPrice1D] with
    respect to the cell widths, case by case as the function chooses: [x0]
    lies between the location before the upper bound and the one at it; when
    the location at the upper bound is close to [x0] the first moment is
    that location; when it is not and the location before is, the first
    moment is the location before; when neither is close, the mass is split
    between the two and the first moment is [x0] itself. *)
Theorem initialDensity_mean (close_enough : Real → Real → bool)
    (x : Array) (x0 : Real) (p : Array) :
  let upper := at_ 0 x (N.of_nat (upper_bound x x0)) in
  let lower := at_ 0 x (N.of_nat (upper_bound x x0 - 1)) in
  Sorted Qlt x → (N.of_nat (length x) < 2 ^ 64)%N →
  (∀ a b, a == b → close_enough a b = true) →
  close_enough (at_ 0 x (N.of_nat (length x - 1))) x0 = false →
  initialDensity close_enough x x0 = inr p →
  (lower <= x0 ∧ x0 < upper)
  ∧ firstMoment x p ==
      (if close_enough upper x0 then upper
       else if close_enough lower x0 then lower
       else x0).
Proof.
  intros upper lower Hs Hsize Hrefl Hlast H.
  pose proof (initialDensity_interior close_enough x x0 p Hs Hsize Hrefl
                Hlast H) as Hint.
  destruct (initialDensity_inv close_enough x x0 p Hs Hsize H)
    as (Hn & Hu2 & Hun & Hbefore & Hat & H2 & Hcases).
  unfold upper, lower. clear upper lower.
  set (u := upper_bound x x0) in *. set (n := length x) in *.
  set (X := λ i : nat, at_ 0 x (N.of_nat i)) in *.
  split; [split; [exact Hbefore | exact Hat]|].
  assert (Hwl : 0 < cellWidth x (u - 1)).
  { apply cellWidth_positive; [exact Hs | clear -Hu2; lia|].
    fold n. clear -Hu2 Hun. lia. }
  assert (Hd : 0 < X u - X (u - 1)%nat).
  { unfold Qminus. apply -> Qlt_minus_iff.
    eapply Qle_lt_trans; [exact Hbefore | exact Hat]. }
  destruct Hcases as [(Hc & ->) | [(Hc1 & Hc2 & ->) | (Hc1 & Hc2 & ->)]].
  - unfold X in Hc |- *. rewrite Hc.
    assert (Hu : (S u < n)%nat).
    { destruct Hint as [Hint|Hint]; [|exact Hint].
      destruct (Nat.eq_dec u (n - 1)%nat) as [E|E]; [|clear -E Hun; lia].
      rewrite E in Hc. congruence. }
    assert (Hw : 0 < cellWidth x u).
    { apply cellWidth_positive; [exact Hs | clear -Hu2; lia | exact Hu]. }
    unfold firstMoment. fold n.
    rewrite (weighted_one (λ i, cellWidth x i * at_ 0 x (N.of_nat i)));
      [|exact Hun | clear -Hu2; lia | clear -Hu; lia].
    unfold X. field. nonzero.
  - unfold X in Hc1, Hc2 |- *. rewrite Hc1, Hc2.
    unfold firstMoment. fold n.
    rewrite (weighted_one (λ i, cellWidth x i * at_ 0 x (N.of_nat i)));
      [|clear -Hun; lia | clear -Hu2; lia | clear -Hun Hn; lia].
    unfold X. field. nonzero.
  - unfold X in Hc1, Hc2 |- *. rewrite Hc1, Hc2.
    assert (Hu : (S u < n)%nat).
    { destruct Hint as [Hint|Hint]; [|exact Hint].
      congruence. }
    assert (Hw : 0 < cellWidth x u).
    { apply cellWidth_positive; [exact Hs | clear -Hu2; lia | exact Hu]. }
    unfold firstMoment. fold n.
    rewrite (weighted_two (λ i, cellWidth x i * at_ 0 x (N.of_nat i)));
      [|clear -Hu2; lia | exact Hun | clear -Hu2; lia | clear -Hu; lia].
    unfold X. field. repeat split; nonzero.
Qed.

Lemma initialDensity_mean_witness :
  ((2 <= 3 ∧ 3 < 4)
   ∧ firstMoment sampleLocations [0; 0; 2 # 6; 2 # 6; 0] == 3)
  ∧ ((2 <= 2 ∧ 2 < 4)
     ∧ firstMoment sampleLocations [0; 0; 2 # 3; 0; 0] == 2).
Proof.
  split.
  - apply (initialDensity_mean sampleClose sampleLocations 3).
    + repeat constructor.
    + reflexivity.
    + intros a b E. apply Qeq_bool_iff. exact E.
    + reflexivity.
    + reflexivity.
  - apply (initialDensity_mean sampleClose sampleLocations 2).
    + repeat constructor.
    + reflexivity.
    + intros a b E. apply Qeq_bool_iff. exact E.
    + reflexivity.
    + reflexivity.
Defined.

End FokkerPlanckPrice1DFacts.

(** ** MTBrownianGenerator *)

Module MTBrownianGeneratorFacts.
Import MTBrownianGenerator.

Lemma transform_fold (src out : list Real) (op : Real → Real)
    (first n : nat) :
  (n ≤ length out)%nat → (first + n ≤ length src)%nat →
  fold_left
    (λ o k, assign o (N.of_nat k)
              (op (at_ 0 src (N.of_nat first + N.of_nat k)%N)))
    (seq 0 n) out
  = (op <$> take n (drop first src)) ++ drop n out.
Proof.
  induction n as [|n IH]; intros Ho Hs.
  - simpl. rewrite drop_0. reflexivity.
  - rewrite seq_S, fold_left_app, IH by lia. simpl.
    destruct (lookup_lt_is_Some_2 out n ltac:(lia)) as [y Hy].
    destruct (lookup_lt_is_Some_2 (drop first src) n
                ltac:(rewrite length_drop; lia)) as [z Hz].
    rewrite (take_S_r _ _ _ Hz), fmap_app, (drop_S _ _ _ Hy).
    unfold assign. rewrite Nat2N.id.
    rewrite insert_app_r_alt
      by (rewrite length_fmap, length_take, length_drop; lia).
    replace (n - length (op <$> take n (drop first src)))%nat with O
      by (rewrite length_fmap, length_take, length_drop; lia).
    simpl. rewrite <- app_assoc. simpl.
    rewrite lookup_drop in Hz.
    unfold at_. rewrite <- Nat2N.inj_add, Nat2N.id, Hz. reflexivity.
Qed.

Lemma transform_block (src out : list Real) (op : Real → Real)
    (first last : Size) :
  (first ≤ last)%N →
  (N.to_nat (last - first) ≤ length out)%nat →
  (N.to_nat last ≤ length src)%nat →
  transform src first last out op
  = (op <$> take (N.to_nat (last - first)) (drop (N.to_nat first) src))
    ++ drop (N.to_nat (last - first)) out.
Proof.
  intros Hle Ho Hs. unfold transform.
  rewrite <- (transform_fold src out op (N.to_nat first)) by lia.
  rewrite N2Nat.id. reflexivity.
Qed.

Section Generator.
Variable RandomSequenceGenerator : Type.
Variable nextSequence :
  RandomSequenceGenerator → RandomSequenceGenerator * sample_type.
Variable lastSequence : RandomSequenceGenerator → sample_type.
Variable inverseCumulative_ : Real → Real.
Variable checks : bool.

Let nextStep := nextStep RandomSequenceGenerator lastSequence
                  inverseCumulative_ checks.
Let nextSteps := nextSteps RandomSequenceGenerator lastSequence
                   inverseCumulative_ checks.

(** One call of [nextStep] before the sequence is used up. *)
Lemma nextStep_block (g : t RandomSequenceGenerator) (output : list Real) :
  (steps_ _ g < 2 ^ 64)%N →
  (factors_ _ g * steps_ _ g < 2 ^ 64)%N →
  (lastStep_ _ g < steps_ _ g)%N →
  length output = N.to_nat (factors_ _ g) →
  length (value (lastSequence (generator_ _ g)))
  = N.to_nat (factors_ _ g * steps_ _ g) →
  nextStep g output
  = inr ({| factors_ := factors_ _ g; steps_ := steps_ _ g;
            lastStep_ := (lastStep_ _ g + 1)%N;
            generator_ := generator_ _ g |},
         inverseCumulative_
           <$> take (N.to_nat (factors_ _ g))
                 (drop (N.to_nat (lastStep_ _ g * factors_ _ g))
                    (value (lastSequence (generator_ _ g)))),
         1).
Proof.
  intros Hs Hfs Hk Hout Hseq.
  unfold nextStep, MTBrownianGenerator.nextStep.
  destruct g as [f s k gen]. simpl in *.
  assert (E1 : (N.of_nat (length output) =? f)%N = true).
  { apply N.eqb_eq. rewrite Hout. apply N2Nat.id. }
  assert (E2 : (k <? s)%N = true) by (apply N.ltb_lt; exact Hk).
  rewrite E1, E2. simpl. rewrite !andb_false_r.
  assert (E3 : Size_succ k = (k + 1)%N).
  { unfold Size_succ. apply N.mod_small. lia. }
  assert (Hkf : ((k + 1) * f ≤ f * s)%N) by nia.
  assert (E4 : Size_mul k f = (k * f)%N).
  { unfold Size_mul. apply N.mod_small. nia. }
  assert (E5 : Size_mul (k + 1) f = ((k + 1) * f)%N).
  { unfold Size_mul. apply N.mod_small. lia. }
  rewrite E3, E4, E5.
  rewrite transform_block; [| nia | |].
  - replace ((k + 1) * f - k * f)%N with f by nia.
    rewrite (drop_ge output) by (rewrite Hout; apply Nat.le_refl).
    rewrite app_nil_r. reflexivity.
  - replace ((k + 1) * f - k * f)%N with f by nia. lia.
  - rewrite Hseq. lia.
Qed.

Lemma nextSteps_S (n : nat) (g : t RandomSequenceGenerator)
    (output : list Real) :
  nextSteps (S n) g output
  = match nextStep g output with
    | inl e => inl e
    | inr (g', output', w) =>
        match nextSteps n g' output' with
        | inl e => inl e
        | inr (g'', rest) => inr (g'', (output', w) :: rest)
        end
    end.
Proof. reflexivity. Qed.

Lemma nextSteps_blocks (n : nat) (g : t RandomSequenceGenerator)
    (output : list Real) :
  (steps_ _ g < 2 ^ 64)%N →
  (factors_ _ g * steps_ _ g < 2 ^ 64)%N →
  (lastStep_ _ g + N.of_nat n ≤ steps_ _ g)%N →
  length output = N.to_nat (factors_ _ g) →
  length (value (lastSequence (generator_ _ g)))
  = N.to_nat (factors_ _ g * steps_ _ g) →
  ∃ blocks,
    nextSteps n g output
    = inr ({| factors_ := factors_ _ g; steps_ := steps_ _ g;
              lastStep_ := (lastStep_ _ g + N.of_nat n)%N;
              generator_ := generator_ _ g |}, blocks)
    ∧ concat (fst <$> blocks)
      = inverseCumulative_
          <$> take (n * N.to_nat (factors_ _ g))
                (drop (N.to_nat (lastStep_ _ g * factors_ _ g))
                   (value (lastSequence (generator_ _ g))))
    ∧ Forall (λ b, length (fst b) = N.to_nat (factors_ _ g) ∧ snd b = 1)
        blocks
    ∧ length blocks = n.
Proof.
  revert g output.
  induction n as [|n IH]; intros g output Hs Hfs Hk Hout Hseq.
  - exists []. simpl. rewrite N.add_0_r. destruct g; simpl in *.
    repeat split. constructor.
  - rewrite nextSteps_S.
    rewrite nextStep_block by (try assumption; lia).
    set (g' := {| factors_ := factors_ _ g; steps_ := steps_ _ g;
                  lastStep_ := (lastStep_ _ g + 1)%N;
                  generator_ := generator_ _ g |}).
    set (out' := inverseCumulative_ <$> _).
    assert (Hlen : length out' = N.to_nat (factors_ _ g)).
    { unfold out'. rewrite length_fmap, length_take, length_drop, Hseq.
      apply Nat.min_l. nia. }
    destruct (IH g' out') as (blocks & E & Hc & Hf & Hl);
      try assumption; [simpl; lia|].
    rewrite E. simpl.
    exists ((out', 1) :: blocks).
    split; [f_equal; f_equal; f_equal; lia|].
    split; [|split].
    + rewrite fmap_cons. simpl. rewrite Hc. unfold out'.
      rewrite <- fmap_app. f_equal.
      rewrite <- take_take_drop. f_equal. rewrite drop_drop. f_equal.
      unfold g'. simpl. f_equal. lia.
    + constructor; [split; [exact Hlen | reflexivity] | exact Hf].
    + simpl. rewrite Hl. reflexivity.
Qed.

(** With the safety checks compiled in, the call that follows the last
    block of the sequence fails. *)
Lemma nextSteps_exhausted (n : nat) (g : t RandomSequenceGenerator)
    (output : list Real) :
  checks = true →
  (steps_ _ g < 2 ^ 64)%N →
  (factors_ _ g * steps_ _ g < 2 ^ 64)%N →
  (lastStep_ _ g + N.of_nat n = steps_ _ g)%N →
  length output = N.to_nat (factors_ _ g) →
  length (value (lastSequence (generator_ _ g)))
  = N.to_nat (factors_ _ g * steps_ _ g) →
  nextSteps (S n) g output = inl (QL_Error "uniform sequence exhausted").
Proof.
  intros Hc. revert g output.
  induction n as [|n IH]; intros g output Hs Hfs Hk Hout Hseq.
  - unfold nextSteps. simpl. unfold MTBrownianGenerator.nextStep.
    rewrite Hc.
    assert (E1 : (N.of_nat (length output) =? factors_ _ g)%N = true).
    { apply N.eqb_eq. rewrite Hout. apply N2Nat.id. }
    assert (E2 : (lastStep_ _ g <? steps_ _ g)%N = false).
    { apply N.ltb_ge. lia. }
    rewrite E1, E2. reflexivity.
  - rewrite nextSteps_S.
    rewrite nextStep_block by (try assumption; lia).
    set (g' := {| factors_ := factors_ _ g; steps_ := steps_ _ g;
                  lastStep_ := (lastStep_ _ g + 1)%N;
                  generator_ := generator_ _ g |}).
    set (out' := inverseCumulative_ <$> _).
    assert (Hlen : length out' = N.to_nat (factors_ _ g)).
    { unfold out'. rewrite length_fmap, length_take, length_drop, Hseq.
      apply Nat.min_l. nia. }
    rewrite (IH g' out'); try assumption; [reflexivity|].
    simpl. lia.
Qed.

End Generator.

(** After [nextPath], [numberOfSteps()] calls of [nextStep] on a vector of
    [numberOfFactors()] entries all succeed, each with weight 1 and a block
    of [numberOfFactors()] numbers, and the blocks put one after the other
    are the inverse-cumulative images of the whole sequence that [nextPath]
    drew: every uniform number is used once, in order. *)
Theorem nextPath_then_nextSteps (RandomSequenceGenerator : Type)
    (nextSequence :
       RandomSequenceGenerator → RandomSequenceGenerator * sample_type)
    (lastSequence : RandomSequenceGenerator → sample_type)
    (inverseCumulative_ : Real → Real) (checks : bool)
    (g : t RandomSequenceGenerator) (output : list Real) :
  let g0 := fst (nextPath _ nextSequence g) in
  let sequence := value (lastSequence (generator_ _ g0)) in
  (steps_ _ g < 2 ^ 64)%N →
  (factors_ _ g * steps_ _ g < 2 ^ 64)%N →
  length output = N.to_nat (factors_ _ g) →
  length sequence = N.to_nat (factors_ _ g * steps_ _ g) →
  ∃ gN blocks,
    nextSteps _ lastSequence inverseCumulative_ checks
      (N.to_nat (steps_ _ g)) g0 output = inr (gN, blocks)
    ∧ concat (fst <$> blocks) = inverseCumulative_ <$> sequence
    ∧ Forall (λ b, length (fst b) = N.to_nat (factors_ _ g) ∧ snd b = 1)
        blocks
    ∧ length blocks = N.to_nat (steps_ _ g)
    ∧ lastStep_ _ gN = steps_ _ g.
Proof.
  intros g0 sequence Hs Hfs Hout Hseq.
  assert (Hf : factors_ _ g0 = factors_ _ g).
  { unfold g0, nextPath. destruct (nextSequence _). reflexivity. }
  assert (Hst : steps_ _ g0 = steps_ _ g).
  { unfold g0, nextPath. destruct (nextSequence _). reflexivity. }
  assert (Hl : lastStep_ _ g0 = 0%N).
  { unfold g0, nextPath. destruct (nextSequence _). reflexivity. }
  destruct (nextSteps_blocks _ lastSequence inverseCumulative_ checks
              (N.to_nat (steps_ _ g)) g0 output)
    as (blocks & E & Hc & Hfa & Hlen).
  - rewrite Hst. exact Hs.
  - rewrite Hf, Hst. exact Hfs.
  - rewrite Hl, Hst. lia.
  - rewrite Hf. exact Hout.
  - rewrite Hf, Hst. exact Hseq.
  - eexists. exists blocks. split; [exact E|].
    split; [|split; [|split]].
    + rewrite Hc, Hl. simpl. rewrite drop_0. f_equal.
      apply take_ge. fold sequence. rewrite Hseq, Hf. lia.
    + rewrite Hf in Hfa. exact Hfa.
    + exact Hlen.
    + simpl. rewrite Hl. lia.
Qed.

Lemma nextPath_then_nextSteps_witness :
  ∃ gN blocks,
    nextSteps _ sampleLast Qopp true 2 (fst (nextPath _ sampleNext sampleGenerator))
      [0; 0] = inr (gN, blocks)
    ∧ concat (fst <$> blocks) = Qopp <$> [1; 2; 3; 4]
    ∧ Forall (λ b, length (fst b) = 2%nat ∧ snd b = 1) blocks
    ∧ length blocks = 2%nat
    ∧ lastStep_ _ gN = 2%N.
Proof.
  apply (nextPath_then_nextSteps _ sampleNext sampleLast Qopp true
           sampleGenerator [0; 0]); reflexivity.
Defined.

(** With [QL_EXTRA_SAFETY_CHECKS], one call of [nextStep] more than
    [numberOfSteps()] after [nextPath] throws: the sequence is exhausted. *)
Theorem nextPath_then_exhausted (RandomSequenceGenerator : Type)
    (nextSequence :
       RandomSequenceGenerator → RandomSequenceGenerator * sample_type)
    (lastSequence : RandomSequenceGenerator → sample_type)
    (inverseCumulative_ : Real → Real)
    (g : t RandomSequenceGenerator) (output : list Real) :
  let g0 := fst (nextPath _ nextSequence g) in
  let sequence := value (lastSequence (generator_ _ g0)) in
  (steps_ _ g < 2 ^ 64)%N →
  (factors_ _ g * steps_ _ g < 2 ^ 64)%N →
  length output = N.to_nat (factors_ _ g) →
  length sequence = N.to_nat (factors_ _ g * steps_ _ g) →
  nextSteps _ lastSequence inverseCumulative_ true
    (S (N.to_nat (steps_ _ g))) g0 output
  = inl (QL_Error "uniform sequence exhausted").
Proof.
  intros g0 sequence Hs Hfs Hout Hseq.
  assert (Hf : factors_ _ g0 = factors_ _ g).
  { unfold g0, nextPath. destruct (nextSequence _). reflexivity. }
  assert (Hst : steps_ _ g0 = steps_ _ g).
  { unfold g0, nextPath. destruct (nextSequence _). reflexivity. }
  assert (Hl : lastStep_ _ g0 = 0%N).
  { unfold g0, nextPath. destruct (nextSequence _). reflexivity. }
  apply nextSteps_exhausted.
  - reflexivity.
  - rewrite Hst. exact Hs.
  - rewrite Hf, Hst. exact Hfs.
  - rewrite Hl, Hst. lia.
  - rewrite Hf. exact Hout.
  - rewrite Hf, Hst. exact Hseq.
Qed.

Lemma nextPath_then_exhausted_witness :
  nextSteps _ sampleLast Qopp true 3
    (fst (nextPath _ sampleNext sampleGenerator)) [0; 0]
  = inl (QL_Error "uniform sequence exhausted").
Proof.
  apply (nextPath_then_exhausted _ sampleNext sampleLast Qopp
           sampleGenerator [0; 0]); reflexivity.
Defined.

End MTBrownianGeneratorFacts.

(** ** The elevator mesher of FdSimpleExtOUStorageEngine *)

Module FdSimpleExtOUStorageLevelsFacts.
Import FdSimpleExtOUStorageLevels.

Lemma Qeq_le (a b : Q) : a == b → a <= b.
Proof. intros H. rewrite H. apply Qle_refl. Qed.

Lemma levelAt_eq (changeRate : Real) (k : nat) :
  levelAt changeRate k == inject_Z (Z.of_nat k) * changeRate.
Proof.
  unfold levelAt. induction k as [|k IH].
  - simpl. ring.
  - rewrite Nat.iter_succ, IH, Nat2Z.inj_succ. unfold Z.succ.
    rewrite inject_Z_plus. ring.
Qed.

Lemma levelAt_nonneg (changeRate : Real) (k : nat) :
  0 <= changeRate → 0 <= levelAt changeRate k.
Proof.
  intros H. rewrite levelAt_eq. apply Qmult_le_0_compat; [|exact H].
  change 0 with (inject_Z 0). rewrite <- Zle_Qle. lia.
Qed.

(** The body runs as long as the level is within the capacity. *)
Lemma storageValuesLoop_runs (capacity changeRate : Real) (m : nat) :
  ∀ (i fuel : nat) (acc : list Real),
    (∀ j, (i ≤ j < i + m)%nat → levelAt changeRate j <= capacity) →
    ¬ levelAt changeRate (i + m) <= capacity →
    (m < fuel)%nat →
    storageValuesLoop fuel capacity changeRate (levelAt changeRate i) acc
    = Some (acc ++ flat_map
                     (λ k, [levelAt changeRate k;
                            capacity - levelAt changeRate k])
                     (seq i m)).
Proof.
  induction m as [|m IH]; intros i fuel acc Hin Hout Hfuel.
  - destruct fuel as [|fuel]; [exfalso; clear -Hfuel; lia|].
    simpl. rewrite Nat.add_0_r in Hout.
    destruct (Qle_bool (levelAt changeRate i) capacity) eqn:E.
    + apply Qle_bool_iff in E. contradiction.
    + rewrite app_nil_r. reflexivity.
  - destruct fuel as [|fuel]; [exfalso; clear -Hfuel; lia|].
    simpl.
    assert (E : Qle_bool (levelAt changeRate i) capacity = true).
    { apply Qle_bool_iff. apply Hin. clear. lia. }
    rewrite E.
    change (levelAt changeRate i + changeRate)
      with (levelAt changeRate (S i)).
    rewrite IH.
    + rewrite <- app_assoc. reflexivity.
    + intros j Hj. apply Hin. clear -Hj. lia.
    + replace (S i + m)%nat with (i + S m)%nat by (clear; lia). exact Hout.
    + clear -Hfuel. lia.
Qed.

(** With a change rate that is not positive, the condition of the loop
    holds at every iteration. *)
Lemma storageValuesLoop_stays (capacity changeRate : Real) (fuel : nat) :
  changeRate <= 0 →
  ∀ (level : Real) (acc : list Real),
    level <= capacity →
    storageValuesLoop fuel capacity changeRate level acc = None.
Proof.
  intros Hcr. induction fuel as [|fuel IH]; intros level acc Hl.
  - reflexivity.
  - simpl.
    assert (E : Qle_bool level capacity = true)
      by (apply Qle_bool_iff; exact Hl).
    rewrite E. apply IH.
    apply Qle_trans with (level + 0); [|rewrite Qplus_0_r; exact Hl].
    apply Qplus_le_r. exact Hcr.
Qed.

Lemma levelCount_inside (capacity changeRate : Real) (j : nat) :
  0 < changeRate → 0 <= capacity →
  (j < levelCount capacity changeRate)%nat →
  levelAt changeRate j <= capacity.
Proof.
  intros Hcr Hcap Hj. rewrite levelAt_eq. unfold levelCount in Hj.
  assert (H0 : 0 <= capacity / changeRate).
  { apply Qle_shift_div_l; [exact Hcr|]. rewrite Qmult_0_l. exact Hcap. }
  assert (Hf : (0 ≤ Qfloor (capacity / changeRate))%Z).
  { change 0%Z with (Qfloor 0). apply Qfloor_resp_le. exact H0. }
  assert (Hjz : (Z.of_nat j ≤ Qfloor (capacity / changeRate))%Z)
    by (clear -Hj Hf; lia).
  apply Qle_trans with (capacity / changeRate * changeRate).
  - apply Qmult_le_compat_r; [|apply Qlt_le_weak; exact Hcr].
    apply Qle_trans with (inject_Z (Qfloor (capacity / changeRate))).
    + rewrite <- Zle_Qle. exact Hjz.
    + apply Qfloor_le.
  - apply Qeq_le. field. intros E. rewrite E in Hcr.
    exact (Qlt_irrefl _ Hcr).
Qed.

Lemma levelCount_outside (capacity changeRate : Real) :
  0 < changeRate → 0 <= capacity →
  ¬ levelAt changeRate (levelCount capacity changeRate) <= capacity.
Proof.
  intros Hcr Hcap. rewrite levelAt_eq. unfold levelCount.
  assert (H0 : 0 <= capacity / changeRate).
  { apply Qle_shift_div_l; [exact Hcr|]. rewrite Qmult_0_l. exact Hcap. }
  assert (Hf : (0 ≤ Qfloor (capacity / changeRate))%Z).
  { change 0%Z with (Qfloor 0). apply Qfloor_resp_le. exact H0. }
  apply Qlt_not_le.
  rewrite Nat2Z.inj_succ, Z2Nat.id by exact Hf. unfold Z.succ.
  apply Qle_lt_trans with (capacity / changeRate * changeRate).
  - apply Qeq_le. field. intros E. rewrite E in Hcr.
    exact (Qlt_irrefl _ Hcr).
  - apply Qmult_lt_compat_r; [exact Hcr|]. apply Qlt_floor.
Qed.

Lemma storageValuesLoop_raw (capacity changeRate : Real) (fuel : nat) :
  0 < changeRate → 0 <= capacity →
  (levelCount capacity changeRate < fuel)%nat →
  storageValuesLoop fuel capacity changeRate 0 [capacity]
  = Some (rawLevels capacity changeRate (levelCount capacity changeRate)).
Proof.
  intros Hcr Hcap Hfuel.
  apply (storageValuesLoop_runs capacity changeRate
           (levelCount capacity changeRate) 0 fuel [capacity]).
  - intros j Hj. apply levelCount_inside; [exact Hcr | exact Hcap|].
    clear -Hj. lia.
  - apply levelCount_outside; assumption.
  - exact Hfuel.
Qed.

Lemma rawLevels_range (capacity changeRate : Real) :
  0 < changeRate → 0 <= capacity →
  Forall (λ v, 0 <= v ∧ v <= capacity)
    (rawLevels capacity changeRate (levelCount capacity changeRate)).
Proof.
  intros Hcr Hcap. unfold rawLevels.
  constructor; [split; [exact Hcap | apply Qle_refl]|].
  apply List.Forall_forall. intros v Hv.
  apply in_flat_map in Hv. destruct Hv as (k & Hk & Hv).
  apply in_seq in Hk.
  pose proof (levelCount_inside capacity changeRate k Hcr Hcap
                ltac:(clear -Hk; lia)) as Hle.
  pose proof (levelAt_nonneg changeRate k (Qlt_le_weak _ _ Hcr)) as Hge.
  destruct Hv as [<- | [<- | []]].
  - split; assumption.
  - split.
    + unfold Qminus. apply -> Qle_minus_iff. exact Hle.
    + apply Qle_trans with (capacity - 0).
      * apply Qplus_le_r. apply Qopp_le_compat. exact Hge.
      * apply Qeq_le. ring.
Qed.

Lemma Sorted_weaken {A} (R S : A → A → Prop) (l : list A) :
  (∀ a b, R a b → S a b) → Sorted R l → Sorted S l.
Proof.
  intros HRS. induction 1 as [|a l Hl IH Hhd]; constructor; [exact IH|].
  destruct Hhd; constructor. apply HRS. assumption.
Qed.

Section OrderedSet.
Variable comp : Real → Real → bool.
Let lt (a b : Real) : Prop := comp a b = true.

Lemma set_insert_In (x : Real) (s : list Real) (y : Real) :
  In y (set_insert comp x s) → y = x ∨ In y s.
Proof.
  induction s as [|a tl IH]; simpl.
  - intros [<- | []]. left. reflexivity.
  - destruct (comp a x); [|destruct (comp x a)]; simpl.
    + intros [<- | H]; [right; left; reflexivity|].
      destruct (IH H) as [-> | H']; [left; reflexivity | right; right; exact H'].
    + intros [<- | H]; [left; reflexivity | right; exact H].
    + intros H. right. exact H.
Qed.

Lemma set_insert_keeps (x : Real) (s : list Real) (y : Real) :
  In y s → In y (set_insert comp x s).
Proof.
  induction s as [|a tl IH]; simpl; [tauto|].
  destruct (comp a x); [|destruct (comp x a)]; simpl.
  - intros [<- | H]; [left; reflexivity | right; exact (IH H)].
  - intros H. right. exact H.
  - intros H. exact H.
Qed.

Lemma set_insert_covers (x : Real) (s : list Real) :
  ∃ e, In e (set_insert comp x s)
       ∧ (e = x ∨ (comp e x = false ∧ comp x e = false)).
Proof.
  induction s as [|a tl IH]; simpl.
  - exists x. split; [left; reflexivity | left; reflexivity].
  - destruct (comp a x) eqn:E1; [|destruct (comp x a) eqn:E2]; simpl.
    + destruct IH as (e & He & Hx). exists e. split; [right; exact He | exact Hx].
    + exists x. split; [left; reflexivity | left; reflexivity].
    + exists a. split; [left; reflexivity | right; split; assumption].
Qed.

Lemma set_insert_HdRel (a x : Real) (s : list Real) :
  lt a x → HdRel lt a s → HdRel lt a (set_insert comp x s).
Proof.
  intros Hax Hs. destruct s as [|b tl]; simpl.
  - constructor. exact Hax.
  - inversion Hs; subst.
    destruct (comp b x); [|destruct (comp x b)]; constructor; assumption.
Qed.

Lemma set_insert_Sorted (x : Real) (s : list Real) :
  Sorted lt s → Sorted lt (set_insert comp x s).
Proof.
  induction s as [|a tl IH]; intros Hs; simpl.
  - repeat constructor.
  - inversion Hs as [|? ? Htl Hhd]; subst.
    destruct (comp a x) eqn:E1; [|destruct (comp x a) eqn:E2].
    + constructor; [exact (IH Htl)|].
      apply set_insert_HdRel; [exact E1 | exact Hhd].
    + constructor; [exact Hs | constructor; exact E2].
    + exact Hs.
Qed.

Lemma set_fold (values : list Real) :
  ∀ s, Sorted lt s →
    let r := fold_left (λ s x, set_insert comp x s) values s in
    Sorted lt r
    ∧ (∀ e, In e r → In e s ∨ In e values)
    ∧ (∀ e, In e s → In e r)
    ∧ (∀ v, In v values →
         ∃ e, In e r ∧ (e = v ∨ (comp e v = false ∧ comp v e = false))).
Proof.
  induction values as [|x tl IH]; intros s Hs; simpl.
  - repeat split; [exact Hs | tauto | tauto | intros v []].
  - destruct (IH (set_insert comp x s) (set_insert_Sorted x s Hs))
      as (H1 & H2 & H3 & H4).
    split; [exact H1|]. split; [|split].
    + intros e He. destruct (H2 e He) as [H | H]; [|right; right; exact H].
      destruct (set_insert_In x s e H) as [-> | H'];
        [right; left; reflexivity | left; exact H'].
    + intros e He. apply H3. apply set_insert_keeps. exact He.
    + intros v [<- | Hv]; [|exact (H4 v Hv)].
      destruct (set_insert_covers x s) as (e & He & Hx).
      exists e. split; [apply H3; exact He | exact Hx].
Qed.

End OrderedSet.

(** With a capacity that is not negative and a change rate that is not
    positive, the condition [level <= capacity] of the loop over the storage
    levels holds at every iteration: the loop, once entered, is left after
    no number of iterations. *)
Theorem storageValuesLoop_needs_positive_rate (capacity changeRate : Real)
    (fuel : nat) :
  changeRate <= 0 → 0 <= capacity →
  storageValuesLoop fuel capacity changeRate 0 [capacity] = None.
Proof.
  intros Hcr Hcap.
  apply storageValuesLoop_stays; [exact Hcr | exact Hcap].
Qed.

Lemma storageValuesLoop_needs_positive_rate_witness :
  storageValuesLoop 1000 1 0 0 [1] = None.
Proof.
  apply (storageValuesLoop_needs_positive_rate 1 0 1000).
  - discriminate.
  - discriminate.
Defined.

(** The values of the elevator mesher: with a positive change rate, a
    capacity that is not negative and a [close_enough] that holds between
    equal numbers, the values handed to [Predefined1dMesher] are strictly
    increasing, neighbours are not close to each other, all lie between 0
    and the capacity, the capacity is one of them, and every level that the
    loop produced is close to one of them. *)
Theorem elevatorStorageValues_increasing
    (close_enough : Real → Real → Size → bool)
    (capacity changeRate : Real) (fuel : nat) :
  (∀ a b, a == b → close_enough a b 100%N = true) →
  0 < changeRate → 0 <= capacity →
  (levelCount capacity changeRate < fuel)%nat →
  ∃ values,
    elevatorStorageValues close_enough fuel capacity changeRate = Some values
    ∧ Sorted Qlt values
    ∧ Sorted (λ a b, close_enough a b 100%N = false) values
    ∧ Forall (λ v, 0 <= v ∧ v <= capacity) values
    ∧ In capacity values
    ∧ (∀ k, (k < levelCount capacity changeRate)%nat →
         ∃ e, In e values
              ∧ (close_enough e (levelAt changeRate k) 100%N = true
                 ∨ close_enough (levelAt changeRate k) e 100%N = true)).
Proof.
  intros Hrefl Hcr Hcap Hfuel. unfold elevatorStorageValues.
  rewrite storageValuesLoop_raw by assumption.
  set (comp := LessButNotCloseEnough close_enough).
  set (raw := rawLevels capacity changeRate (levelCount capacity changeRate)).
  eexists. split; [reflexivity|].
  destruct (set_fold comp raw [] ltac:(constructor)) as (H1 & H2 & H3 & H4).
  fold (set_of_range comp raw) in H1, H2, H3, H4.
  assert (Hcomp : ∀ a b, comp a b = true →
            close_enough a b 100%N = false ∧ a < b).
  { intros a b H. unfold comp, LessButNotCloseEnough in H.
    apply negb_true_iff, orb_false_iff in H. destruct H as [Hc Hl].
    split; [exact Hc|].
    destruct (Qlt_le_dec b a) as [Hlt | Hle].
    - apply Fdm1dMesherFacts.Qltb_lt in Hlt. congruence.
    - apply Qle_lteq in Hle. destruct Hle as [Hlt | Heq]; [exact Hlt|].
      rewrite (Hrefl a b Heq) in Hc. discriminate. }
  split; [|split; [|split; [|split]]].
  - eapply Sorted_weaken; [|exact H1]. intros a b H. apply Hcomp. exact H.
  - eapply Sorted_weaken; [|exact H1]. intros a b H. apply Hcomp. exact H.
  - apply List.Forall_forall. intros v Hv.
    destruct (H2 v Hv) as [[] | Hraw].
    pose proof (rawLevels_range capacity changeRate Hcr Hcap) as Hr.
    rewrite List.Forall_forall in Hr. apply Hr. exact Hraw.
  - unfold set_of_range, raw, rawLevels. simpl.
    destruct (set_fold comp
                (flat_map (λ k, [levelAt changeRate k;
                                 capacity - levelAt changeRate k])
                   (seq 0 (levelCount capacity changeRate)))
                [capacity] ltac:(repeat constructor)) as (_ & _ & G & _).
    apply G. left. reflexivity.
  - intros k Hk.
    destruct (H4 (levelAt changeRate k)) as (e & He & Hx).
    { unfold raw, rawLevels. right. apply in_flat_map. exists k.
      split; [apply in_seq; clear -Hk; lia | left; reflexivity]. }
    exists e. split; [exact He|].
    destruct Hx as [-> | [Hx1 Hx2]];
      [left; apply Hrefl; reflexivity|].
    unfold comp, LessButNotCloseEnough in Hx1, Hx2.
    apply negb_false_iff, orb_true_iff in Hx1, Hx2.
    destruct Hx1 as [Hc | Hl1]; [left; exact Hc|].
    destruct Hx2 as [Hc | Hl2]; [right; exact Hc|].
    apply Fdm1dMesherFacts.Qltb_lt in Hl1, Hl2.
    exfalso. exact (Qlt_irrefl _ (Qlt_trans _ _ _ Hl1 Hl2)).
Qed.

Lemma sampleCloseEnough_refl (a b : Real) :
  a == b → sampleCloseEnough a b 100%N = true.
Proof.
  intros E. unfold sampleCloseEnough. apply Qle_bool_iff.
  assert (E0 : a - b == 0) by (rewrite E; ring).
  rewrite E0. discriminate.
Qed.

Lemma elevatorStorageValues_increasing_witness :
  ∃ values,
    elevatorStorageValues sampleCloseEnough 4 1 (1 # 2) = Some values
    ∧ Sorted Qlt values
    ∧ Sorted (λ a b, sampleCloseEnough a b 100%N = false) values
    ∧ Forall (λ v, 0 <= v ∧ v <= 1) values
    ∧ In 1 values
    ∧ (∀ k, (k < levelCount 1 (1 # 2))%nat →
         ∃ e, In e values
              ∧ (sampleCloseEnough e (levelAt (1 # 2) k) 100%N = true
                 ∨ sampleCloseEnough (levelAt (1 # 2) k) e 100%N = true)).
Proof.
  apply (elevatorStorageValues_increasing sampleCloseEnough 1 (1 # 2) 4).
  - exact sampleCloseEnough_refl.
  - reflexivity.
  - discriminate.
  - vm_compute. lia.
Defined.

(** The exercise times of the storage engine: the year fractions of the
    exercise dates in their order when none is negative, and the error
    otherwise. *)
Theorem storage_exerciseTimes_past_date (Date : Type)
    (yearFraction : Date → Time) (exerciseDates : list Date) :
  FdSimpleExtOUStorageEngine.exerciseTimes Date yearFraction exerciseDates
  = if forallb (λ d, Qle_bool 0 (yearFraction d)) exerciseDates
    then inr (map yearFraction exerciseDates)
    else inl (QL_Error "exercise dates must not contain past date").
Proof.
  induction exerciseDates as [|d rest IH]; simpl; [reflexivity|].
  destruct (Qle_bool 0 (yearFraction d)); simpl; [|reflexivity].
  rewrite IH. destruct (forallb _ rest); reflexivity.
Qed.

End FdSimpleExtOUStorageLevelsFacts.

(** ** The map of exercise times of FdHullWhiteSwaptionEngine *)

Module FdHullWhiteSwaptionT2dFacts.
Import FdHullWhiteSwaptionT2d.

Lemma Qltb_false (a b : Q) : Qltb a b = false ↔ b <= a.
Proof.
  unfold Qltb. rewrite negb_false_iff. apply Qle_bool_iff.
Qed.

Section Map.
Variable Date : Type.
Variable yearFraction : Date → Time.

Lemma map_find_assign (t : Time) (d : Date) (m : list (Time * Date))
    (t' : Time) :
  map_find Date t' (map_assign Date t d m)
  = if Qeq_bool t t' then Some d else map_find Date t' m.
Proof.
  induction m as [|[k v] tl IH]; simpl.
  - destruct (Qltb t t') eqn:E1; [|destruct (Qltb t' t) eqn:E2].
    + apply Fdm1dMesherFacts.Qltb_lt in E1.
      destruct (Qeq_bool t t') eqn:E; [|reflexivity].
      apply Qeq_bool_iff in E. rewrite E in E1.
      exfalso. exact (Qlt_irrefl _ E1).
    + apply Fdm1dMesherFacts.Qltb_lt in E2.
      destruct (Qeq_bool t t') eqn:E; [|reflexivity].
      apply Qeq_bool_iff in E. rewrite E in E2.
      exfalso. exact (Qlt_irrefl _ E2).
    + apply Qltb_false in E1, E2.
      assert (E : Qeq_bool t t' = true)
        by (apply Qeq_bool_iff; apply Qle_antisym; assumption).
      rewrite E. reflexivity.
  - destruct (Qltb k t) eqn:Ekt; [|destruct (Qltb t k) eqn:Etk]; simpl.
    + (* k < t *)
      apply Fdm1dMesherFacts.Qltb_lt in Ekt.
      destruct (Qltb k t') eqn:E1; [exact IH|].
      apply Qltb_false in E1.
      assert (E : Qeq_bool t t' = false).
      { destruct (Qeq_bool t t') eqn:E; [|reflexivity].
        apply Qeq_bool_iff in E. rewrite E in Ekt.
        exfalso. exact (Qlt_not_le _ _ Ekt E1). }
      rewrite E. reflexivity.
    + (* t < k *)
      apply Fdm1dMesherFacts.Qltb_lt in Etk.
      destruct (Qltb t t') eqn:E1; [|destruct (Qltb t' t) eqn:E2].
      * apply Fdm1dMesherFacts.Qltb_lt in E1.
        assert (E : Qeq_bool t t' = false).
        { destruct (Qeq_bool t t') eqn:E; [|reflexivity].
          apply Qeq_bool_iff in E. rewrite E in E1.
          exfalso. exact (Qlt_irrefl _ E1). }
        rewrite E. reflexivity.
      * apply Fdm1dMesherFacts.Qltb_lt in E2.
        assert (E : Qeq_bool t t' = false).
        { destruct (Qeq_bool t t') eqn:E; [|reflexivity].
          apply Qeq_bool_iff in E. rewrite E in E2.
          exfalso. exact (Qlt_irrefl _ E2). }
        rewrite E.
        assert (E3 : Qltb k t' = false).
        { apply Qltb_false. apply Qlt_le_weak.
          apply Qlt_trans with t; assumption. }
        assert (E4 : Qltb t' k = true).
        { apply Fdm1dMesherFacts.Qltb_lt. apply Qlt_trans with t; assumption. }
        rewrite E3, E4. reflexivity.
      * apply Qltb_false in E1, E2.
        assert (E : Qeq_bool t t' = true)
          by (apply Qeq_bool_iff; apply Qle_antisym; assumption).
        rewrite E. reflexivity.
    + (* k == t *)
      apply Qltb_false in Ekt, Etk.
      assert (Hkt : k == t) by (apply Qle_antisym; assumption).
      destruct (Qltb k t') eqn:E1; [|destruct (Qltb t' k) eqn:E2].
      * apply Fdm1dMesherFacts.Qltb_lt in E1.
        assert (E : Qeq_bool t t' = false).
        { destruct (Qeq_bool t t') eqn:E; [|reflexivity].
          apply Qeq_bool_iff in E. rewrite <- E, <- Hkt in E1.
          exfalso. exact (Qlt_irrefl _ E1). }
        rewrite E. reflexivity.
      * apply Fdm1dMesherFacts.Qltb_lt in E2.
        assert (E : Qeq_bool t t' = false).
        { destruct (Qeq_bool t t') eqn:E; [|reflexivity].
          apply Qeq_bool_iff in E. rewrite <- E, <- Hkt in E2.
          exfalso. exact (Qlt_irrefl _ E2). }
        rewrite E. reflexivity.
      * apply Qltb_false in E1, E2.
        assert (E : Qeq_bool t t' = true).
        { apply Qeq_bool_iff. rewrite <- Hkt.
          apply Qle_antisym; assumption. }
        rewrite E. reflexivity.
Qed.

Lemma map_assign_HdRel (a : Time * Date) (t : Time) (d : Date)
    (m : list (Time * Date)) :
  fst a < t →
  HdRel (λ x y, fst x < fst y) a m →
  HdRel (λ x y, fst x < fst y) a (map_assign Date t d m).
Proof.
  intros Hat Hm. destruct m as [|[k v] tl]; simpl.
  - constructor. exact Hat.
  - inversion Hm; subst.
    destruct (Qltb k t); [|destruct (Qltb t k)]; constructor; assumption.
Qed.

Lemma map_assign_Sorted (t : Time) (d : Date) (m : list (Time * Date)) :
  Sorted (λ x y, fst x < fst y) m →
  Sorted (λ x y, fst x < fst y) (map_assign Date t d m).
Proof.
  induction m as [|[k v] tl IH]; intros Hs; simpl.
  - repeat constructor.
  - inversion Hs as [|? ? Htl Hhd]; subst.
    destruct (Qltb k t) eqn:E1; [|destruct (Qltb t k) eqn:E2].
    + constructor; [exact (IH Htl)|].
      apply map_assign_HdRel; [|exact Hhd].
      apply Fdm1dMesherFacts.Qltb_lt. exact E1.
    + constructor; [exact Hs|]. constructor.
      apply Fdm1dMesherFacts.Qltb_lt. exact E2.
    + constructor; [exact Htl|].
      destruct Hhd; constructor. assumption.
Qed.

Lemma map_assign_entries (P : Time * Date → Prop) (t : Time) (d : Date)
    (m : list (Time * Date)) :
  (∀ k, k == t → P (k, d)) → Forall P m →
  Forall P (map_assign Date t d m).
Proof.
  intros Hnew. induction m as [|[k v] tl IH]; intros Hm; simpl.
  - constructor; [apply Hnew; reflexivity | constructor].
  - inversion Hm; subst.
    destruct (Qltb k t) eqn:E1; [|destruct (Qltb t k) eqn:E2].
    + constructor; [assumption | apply IH; assumption].
    + constructor; [apply Hnew; reflexivity | exact Hm].
    + constructor; [|assumption]. apply Hnew.
      apply Qltb_false in E1, E2. apply Qle_antisym; assumption.
Qed.

Lemma t2dLoop_inv (exerciseDates : list Date) :
  ∀ m m',
    t2dLoop Date yearFraction exerciseDates m = inr m' →
    (Sorted (λ x y, fst x < fst y) m → Sorted (λ x y, fst x < fst y) m')
    ∧ (∀ P : Time * Date → Prop,
         (∀ k d, In d exerciseDates → 0 <= yearFraction d →
                 k == yearFraction d → P (k, d)) →
         Forall P m → Forall P m')
    ∧ (∀ t, map_find Date t m'
            = match last (List.filter
                            (λ d, Qeq_bool (yearFraction d) t) exerciseDates)
              with
              | Some d => Some d
              | None => map_find Date t m
              end).
Proof.
  induction exerciseDates as [|d rest IH]; intros m m' H; simpl in H.
  - injection H as <-. repeat split; try tauto.
  - destruct (Qle_bool 0 (yearFraction d)) eqn:E; simpl in H; [|discriminate].
    apply Qle_bool_iff in E.
    destruct (IH _ _ H) as (H1 & H2 & H3).
    split; [|split].
    + intros Hs. apply H1. apply map_assign_Sorted. exact Hs.
    + intros P HP Hm. apply H2.
      * intros k d' Hd'. apply HP. right. exact Hd'.
      * apply map_assign_entries; [|exact Hm].
        intros k Hk. apply HP; [left; reflexivity | exact E | exact Hk].
    + intros t. rewrite H3, map_find_assign. simpl.
      destruct (Qeq_bool (yearFraction d) t) eqn:Et.
      * rewrite last_cons. destruct (last _); reflexivity.
      * reflexivity.
Qed.

End Map.

(** The map [t2d] of a run that gets past the loop: its keys are strictly
    ascending and not negative, every entry holds an exercise date under
    its own year fraction, and looking up a time gives the last exercise
    date that has this year fraction, so of two exercise dates with the
    same year fraction only the later one of the list is kept. *)
Theorem t2d_last_date_wins (Date : Type) (yearFraction : Date → Time)
    (exerciseDates : list Date) (m : list (Time * Date)) :
  t2d Date yearFraction exerciseDates = inr m →
  Sorted Qlt (fst <$> m)
  ∧ Forall (λ kv, 0 <= fst kv ∧ In (snd kv) exerciseDates
                  ∧ fst kv == yearFraction (snd kv)) m
  ∧ ∀ t, map_find Date t m
         = last (List.filter (λ d, Qeq_bool (yearFraction d) t)
                   exerciseDates).
Proof.
  intros H. unfold t2d in H.
  destruct (t2dLoop_inv Date yearFraction exerciseDates [] m H)
    as (H1 & H2 & H3).
  split; [|split].
  - specialize (H1 ltac:(constructor)).
    clear -H1. induction H1 as [|a l Hl IH Hhd]; [constructor|].
    rewrite fmap_cons. constructor; [exact IH|].
    destruct Hhd; [constructor|]. rewrite fmap_cons. constructor. assumption.
  - apply H2; [|constructor].
    intros k d Hd H0 Hk. simpl. split; [|split].
    + rewrite Hk. exact H0.
    + exact Hd.
    + exact Hk.
  - intros t. rewrite H3. simpl.
    destruct (last _); reflexivity.
Qed.

Lemma t2d_last_date_wins_witness :
  Sorted Qlt (fst <$> [(90 # 360, 90%Z); (180 # 360, 180%Z)])
  ∧ Forall (λ kv, 0 <= fst kv ∧ In (snd kv) [180%Z; 90%Z; 180%Z]
                  ∧ fst kv == sampleYearFraction (snd kv))
      [(90 # 360, 90%Z); (180 # 360, 180%Z)]
  ∧ ∀ t, map_find Z t [(90 # 360, 90%Z); (180 # 360, 180%Z)]
         = last (List.filter (λ d, Qeq_bool (sampleYearFraction d) t)
                   [180%Z; 90%Z; 180%Z]).
Proof.
  apply (t2d_last_date_wins Z sampleYearFraction [180%Z; 90%Z; 180%Z]).
  reflexivity.
Defined.

Lemma t2dLoop_past_date (Date : Type) (yearFraction : Date → Time)
    (exerciseDates : list Date) :
  ∀ m,
    if forallb (λ d, Qle_bool 0 (yearFraction d)) exerciseDates
    then ∃ m', t2dLoop Date yearFraction exerciseDates m = inr m'
    else t2dLoop Date yearFraction exerciseDates m
         = inl (QL_Error "exercise dates must not contain past date").
Proof.
  induction exerciseDates as [|d rest IH]; intros m; simpl.
  - exists m. reflexivity.
  - destruct (Qle_bool 0 (yearFraction d)); simpl; [apply IH | reflexivity].
Qed.

(** The loop that fills [t2d] gets through exactly when no exercise date
    has a negative year fraction, and throws otherwise; the loop that
    checks the dates without building the map gives the same verdict. *)
Theorem t2d_past_date (Date : Type) (yearFraction : Date → Time)
    (exerciseDates : list Date) :
  if forallb (λ d, Qle_bool 0 (yearFraction d)) exerciseDates
  then (∃ m, t2d Date yearFraction exerciseDates = inr m)
       ∧ FdHullWhiteSwaptionEngine.checkExerciseDates Date yearFraction
           exerciseDates = inr tt
  else t2d Date yearFraction exerciseDates
       = inl (QL_Error "exercise dates must not contain past date")
       ∧ FdHullWhiteSwaptionEngine.checkExerciseDates Date yearFraction
           exerciseDates
         = inl (QL_Error "exercise dates must not contain past date").
Proof.
  pose proof (t2dLoop_past_date Date yearFraction exerciseDates []) as H.
  fold (t2d Date yearFraction exerciseDates) in H.
  assert (G : FdHullWhiteSwaptionEngine.checkExerciseDates Date yearFraction
                exerciseDates
              = if forallb (λ d, Qle_bool 0 (yearFraction d)) exerciseDates
                then inr tt
                else inl (QL_Error
                            "exercise dates must not contain past date")).
  { clear H. induction exerciseDates as [|d rest IH]; simpl; [reflexivity|].
    destruct (Qle_bool 0 (yearFraction d)); simpl; [exact IH | reflexivity]. }
  destruct (forallb _ exerciseDates); split; assumption.
Qed.

End FdHullWhiteSwaptionT2dFacts.

(** ** The equity mesher of FdHestonRebateEngine *)

Module FdHestonRebateEngineMesherFacts.
Import FdHestonRebateEngine FdHestonRebateEngineMesher.

(** The equity mesher is cut at the logarithm of the barrier on the very
    side on which the Dirichlet condition is attached, and is left open
    ([Null<Real>()]) on the other side. *)
Theorem mesher_cut_at_barrier (M : Type) (mesher_ : M) (log : Real → Real)
    (a : arguments) :
  match FdmDirichletBoundary.side <$> boundaries M mesher_ a with
  | [FdmDirichletBoundary.Lower] =>
      equityMesherBounds log a = (Some (log (barrier a)), None)
  | [FdmDirichletBoundary.Upper] =>
      equityMesherBounds log a = (None, Some (log (barrier a)))
  | _ => False
  end.
Proof.
  unfold boundaries, equityMesherBounds.
  destruct (barrierType a); reflexivity.
Qed.

(** The variance mesher gets 5 time steps as long as the engine has fewer
    than 300, and a fiftieth of the engine's time steps, rounded down,
    from then on. *)
Theorem varianceMesherTimeSteps_cases (tGrid_ : Size) :
  varianceMesherTimeSteps tGrid_
  = if (tGrid_ <? 300)%N then 5%N else (tGrid_ / 50)%N.
Proof.
  unfold varianceMesherTimeSteps.
  destruct (N.ltb_spec tGrid_ 300) as [H | H].
  - apply N.max_l.
    assert (tGrid_ / 50 < 6)%N by (apply N.Div0.div_lt_upper_bound; lia).
    lia.
  - apply N.max_r.
    assert (6 ≤ tGrid_ / 50)%N by (apply N.div_le_lower_bound; lia).
    lia.
Qed.

End FdHestonRebateEngineMesherFacts.

(** ** FdmLogInnerValue: independence of time, integration accuracy *)

Module FdmLogInnerValueTimeFacts.
Import FdmLogInnerValue.

(** [avgInnerValue] does not depend on its time argument, neither in the
    value returned nor in the cache left behind, whether the call fills the
    cache or finds it filled. *)
Theorem avgInnerValue_time_independent (payoff_ : Real → Real)
    (exp : Real → Real)
    (SimpsonIntegral : Real → Size → (Real → Real) → Real → Real → Error + Real)
    (mesher_ : FdmMesher) (direction_ : Size)
    (avgInnerValues_ : list (option Real))
    (iter : FdmLinearOpIterator) (t t' : Time) :
  avgInnerValue payoff_ exp SimpsonIntegral mesher_ direction_
    avgInnerValues_ iter t
  = avgInnerValue payoff_ exp SimpsonIntegral mesher_ direction_
      avgInnerValues_ iter t'.
Proof.
  unfold avgInnerValue. destruct avgInnerValues_ as [|c cs]; [|reflexivity].
  rewrite (FdmLogInnerValueFacts.fillCache_time_independent payoff_ exp
             SimpsonIntegral mesher_ direction_ _ t t').
  reflexivity.
Qed.

(** For a payoff without negative values the accuracy asked of the Simpson
    integration is positive. *)
Theorem accuracy_positive (payoff_ : Real → Real) (exp : Real → Real)
    (a b : Real) :
  (∀ s, 0 <= payoff_ s) → 0 < accuracy payoff_ exp a b.
Proof.
  intros Hp. unfold accuracy, f.
  pose proof (Hp (exp a)) as Ha. pose proof (Hp (exp b)) as Hb.
  destruct (Qeq_bool (payoff_ (exp a)) 0) eqn:Ea;
    destruct (Qeq_bool (payoff_ (exp b)) 0) eqn:Eb; simpl;
    try reflexivity.
  - apply Qeq_bool_neq in Eb.
    apply Qmult_lt_0_compat; [|reflexivity].
    apply Qlt_le_trans with (0 + payoff_ (exp b)).
    + rewrite Qplus_0_l. apply Qle_lteq in Hb.
      destruct Hb as [Hb | Hb]; [exact Hb|]. exfalso. apply Eb.
      symmetry. exact Hb.
    + apply Qplus_le_l. exact Ha.
  - apply Qeq_bool_neq in Ea.
    apply Qmult_lt_0_compat; [|reflexivity].
    apply Qlt_le_trans with (payoff_ (exp a) + 0).
    + rewrite Qplus_0_r. apply Qle_lteq in Ha.
      destruct Ha as [Ha | Ha]; [exact Ha|]. exfalso. apply Ea.
      symmetry. exact Ha.
    + apply Qplus_le_r. exact Hb.
  - apply Qeq_bool_neq in Ea.
    apply Qmult_lt_0_compat; [|reflexivity].
    apply Qlt_le_trans with (payoff_ (exp a) + 0).
    + rewrite Qplus_0_r. apply Qle_lteq in Ha.
      destruct Ha as [Ha | Ha]; [exact Ha|]. exfalso. apply Ea.
      symmetry. exact Ha.
    + apply Qplus_le_r. exact Hb.
Qed.

Lemma accuracy_positive_witness :
  0 < accuracy (λ s, Qmax (s - 1) 0) (λ x, x) 0 2.
Proof.
  apply (accuracy_positive (λ s, Qmax (s - 1) 0) (λ x, x) 0 2).
  intros s. apply Q.le_max_r.
Defined.

End FdmLogInnerValueTimeFacts.

(** ** createStationaryDistributionMesher *)

Module StationaryDistributionMesherFacts.
Import StationaryDistributionMesher.

Lemma fill_fold {A} (g : nat → A) (n : nat) :
  ∀ out : list A, (n ≤ length out)%nat →
    fold_left (λ v i, assign v (N.of_nat i) (g i)) (seq 0 n) out
    = (g <$> seq 0 n) ++ drop n out.
Proof.
  induction n as [|n IH]; intros out Hn.
  - simpl. rewrite drop_0. reflexivity.
  - rewrite seq_S, fold_left_app, IH by lia. simpl.
    destruct (lookup_lt_is_Some_2 out n ltac:(lia)) as [y Hy].
    rewrite fmap_app, (drop_S _ _ _ Hy). unfold assign. rewrite Nat2N.id.
    rewrite insert_app_r_alt by (rewrite length_fmap, length_seq; lia).
    replace (n - length (g <$> seq 0 n))%nat with O
      by (rewrite length_fmap, length_seq; lia).
    simpl. rewrite <- app_assoc. reflexivity.
Qed.

Lemma Sorted_fmap_seq (g : nat → Real) (n : nat) :
  ∀ a, (∀ i, (a ≤ i)%nat → (S i < a + n)%nat → g i < g (S i)) →
       Sorted Qlt (g <$> seq a n).
Proof.
  induction n as [|n IH]; intros a Hg; [constructor|].
  simpl. constructor.
  - apply IH. intros i Hi Hi'. apply Hg; lia.
  - destruct n as [|n]; [constructor|]. simpl. constructor.
    apply Hg; lia.
Qed.

Lemma quantile_range (vGrid i : Size) :
  (2 ≤ vGrid < 2 ^ 64)%N → (i < vGrid)%N →
  (1 # 100) <= quantile vGrid i ∧ quantile vGrid i <= (99 # 100)
  ∧ quantile vGrid i < quantile vGrid (i + 1).
Proof.
  intros Hv Hi. unfold quantile.
  rewrite Size_sub_1 by lia.
  set (n := inject_Z (Z.of_N (vGrid - 1))).
  assert (Hn : 0 < n).
  { unfold n. change 0 with (inject_Z 0). rewrite <- Zlt_Qlt. lia. }
  assert (Hin : inject_Z (Z.of_N i) <= n).
  { unfold n. rewrite <- Zle_Qle. lia. }
  assert (Hi0 : 0 <= inject_Z (Z.of_N i)).
  { change 0 with (inject_Z 0). rewrite <- Zle_Qle. lia. }
  assert (Hdq : 0 < ((99 # 100) - (1 # 100)) / n).
  { apply Qlt_shift_div_l; [exact Hn|]. rewrite Qmult_0_l. reflexivity. }
  split; [|split].
  - apply Qle_trans with ((1 # 100) + 0);
      [rewrite Qplus_0_r; apply Qle_refl|].
    apply Qplus_le_r. apply Qmult_le_0_compat;
      [exact Hi0 | apply Qlt_le_weak; exact Hdq].
  - apply Qle_trans
      with ((1 # 100) + n * (((99 # 100) - (1 # 100)) / n)).
    + apply Qplus_le_r. apply Qmult_le_compat_r;
        [exact Hin | apply Qlt_le_weak; exact Hdq].
    + assert (E : (1 # 100) + n * (((99 # 100) - (1 # 100)) / n)
                  == 99 # 100).
      { field. intros E. rewrite E in Hn. exact (Qlt_irrefl _ Hn). }
      rewrite E. apply Qle_refl.
  - apply Qplus_lt_r. apply Qmult_lt_compat_r; [exact Hdq|].
    rewrite <- Zlt_Qlt. lia.
Qed.

(** For a grid of at least two points and an inverse distribution function
    that increases strictly on [0.01, 0.99], the locations of the stationary
    distribution mesher are strictly increasing, one per grid point, each
    the quantile of a level between 0.01 and 0.99; the first level is 0.01
    and the last is 0.99. *)
Theorem stationary_mesher_increasing (stationary_invcdf : Real → Real)
    (vGrid : Size) :
  let v := createStationaryDistributionMesher stationary_invcdf vGrid in
  (2 ≤ vGrid < 2 ^ 64)%N →
  (∀ q q', (1 # 100) <= q → q < q' → q' <= (99 # 100) →
           stationary_invcdf q < stationary_invcdf q') →
  length v = N.to_nat vGrid
  ∧ Sorted Qlt v
  ∧ (∀ i, (i < vGrid)%N →
       at_ 0 v i = stationary_invcdf (quantile vGrid i)
       ∧ (1 # 100) <= quantile vGrid i ∧ quantile vGrid i <= (99 # 100))
  ∧ quantile vGrid 0 == 1 # 100
  ∧ quantile vGrid (vGrid - 1) == 99 # 100.
Proof.
  intros v Hv Hmono.
  assert (Ev : v = (λ i, stationary_invcdf (quantile vGrid (N.of_nat i)))
                   <$> seq 0 (N.to_nat vGrid)).
  { unfold v, createStationaryDistributionMesher.
    rewrite (fill_fold
               (λ i, stationary_invcdf (quantile vGrid (N.of_nat i))))
      by (rewrite length_replicate; apply Nat.le_refl).
    rewrite drop_ge by (rewrite length_replicate; apply Nat.le_refl).
    apply app_nil_r. }
  split; [|split; [|split; [|split]]].
  - rewrite Ev, length_fmap, length_seq. reflexivity.
  - rewrite Ev. apply Sorted_fmap_seq. intros i _ Hi.
    destruct (quantile_range vGrid (N.of_nat i) Hv ltac:(lia))
      as (H1 & _ & H3).
    destruct (quantile_range vGrid (N.of_nat (S i)) Hv ltac:(lia))
      as (_ & H2' & _).
    replace (N.of_nat i + 1)%N with (N.of_nat (S i)) in H3 by lia.
    apply Hmono; assumption.
  - intros i Hi.
    destruct (quantile_range vGrid i Hv Hi) as (H1 & H2 & _).
    split; [|split; assumption].
    rewrite Ev. unfold at_. rewrite list_lookup_fmap.
    rewrite lookup_seq_lt by lia. simpl. rewrite N2Nat.id. reflexivity.
  - unfold quantile. simpl. ring.
  - unfold quantile. rewrite Size_sub_1 by lia.
    set (n := inject_Z (Z.of_N (vGrid - 1))).
    assert (Hn : 0 < n).
    { unfold n. change 0 with (inject_Z 0). rewrite <- Zlt_Qlt. lia. }
    field. intros E. rewrite E in Hn. exact (Qlt_irrefl _ Hn).
Qed.

Lemma stationary_mesher_increasing_witness :
  length (createStationaryDistributionMesher (λ q, q) 3) = N.to_nat 3
  ∧ Sorted Qlt (createStationaryDistributionMesher (λ q, q) 3)
  ∧ (∀ i, (i < 3)%N →
       at_ 0 (createStationaryDistributionMesher (λ q, q) 3) i
       = quantile 3 i
       ∧ (1 # 100) <= quantile 3 i ∧ quantile 3 i <= (99 # 100))
  ∧ quantile 3 0 == 1 # 100
  ∧ quantile 3 (3 - 1) == 99 # 100.
Proof.
  apply (stationary_mesher_increasing (λ q, q) 3).
  - lia.
  - intros q q' _ H _. exact H.
Defined.

End StationaryDistributionMesherFacts.
